(** * sage batch scheduler: token-bucket rate limiter and priority queue

    Shallow embedding of [src/sage/services/queue.py] together with the
    models it works on ([sage/models/queue.py], [sage/utils/progress.py],
    [sage/config/settings.py]).

    Modelling conventions.
    - Python [int] is [Z].  A [float] is a rational [Q].  The conversion
      of an [int] to a [float] is modelled as it is: [float_of_int]
      rounds to the nearest double, and the conversion of [2**attempt]
      in [acquire] raises OverflowError from attempt 1024 on.  Sums,
      products and quotients of floats are exact in the model, where a
      double rounds them; the statements below are either insensitive to
      that rounding or say that they are about exact arithmetic.
      Equality of levels is [Qeq] ([==]).
    - [min(a, b)] and [max(a, b)] of Python return the first argument on
      a tie; so do [Qmin] and [Qmax].
    - The event-loop clock is threaded explicitly.  [asyncio.sleep] is an
      environment function [sleep now d] giving the loop time at which
      the sleeper is resumed; nothing is assumed about it unless a
      statement asks for [punctual].  [datetime.now] is the n-th reading
      of a wall clock [utcnow].
    - [while True] loops take a fuel argument.  Running out of fuel is
      reported as "still waiting", never confused with a return.
    - The injected ingestion handler is a function from the item it is
      given to the progress updates it reports and the way it ends: it
      returns or it raises.  A handler that never ends is outside the
      model; the statements about a drain that returns are about
      handlers that end.
    - The console of [Scheduler] takes every line as it is, like a rich
      console built with [markup=False].  [Markup] embeds the [except]
      clause again for a console whose [log] can raise, as the default
      console does on unbalanced markup.
    - [asyncio.PriorityQueue] is modelled by its contract: [get] removes
      the entry with the lowest key. *)

From Stdlib Require Import ZArith QArith Qminmax Lqa Lia List.
From Stdlib Require Import Sorting.Sorted Sorting.Permutation.
From Stdlib Require Import DecimalString.
From stdpp Require Import base gmap strings list.

(* ================================================================== *)
(** * The token bucket ([class RateLimiter]) *)
(* ================================================================== *)

Module RateLimit.

Local Open Scope Q_scope.

(** The dataclass: four init fields and three fields set by
    [__post_init__]. *)
Record RateLimiter : Type := mkRateLimiter {
  requests_per_minute : Z;
  burst : Z;
  backoff_base_seconds : Q;
  max_backoff_seconds : Q;
  _tokens : Q;
  _last_refill : Q;
  _refill_rate : Q
}.

(** Defaults of the dataclass fields. *)
Definition default_backoff_base_seconds : Q := 1 # 2.
Definition default_max_backoff_seconds : Q := 5.

(** [float(n)] of an [int]: the nearest double, ties to the even
    mantissa.  An integer of magnitude below 2^53 is a double; a larger
    one keeps its 53 leading bits.  From 2^1024 on Python raises
    OverflowError instead and no limiter is constructed, so the
    statements about a constructed limiter bound its integer fields. *)
Definition float_of_int (n : Z) : Q :=
  let a := Z.abs n in
  if (a <? 2 ^ 53)%Z then inject_Z n
  else
    let e := (Z.log2 a - 52)%Z in
    let q := (a / 2 ^ e)%Z in
    let r := (a mod 2 ^ e)%Z in
    let half := (2 ^ (e - 1))%Z in
    let q' :=
      if (half <? r)%Z || ((r =? half)%Z && Z.odd q) then (q + 1)%Z else q in
    inject_Z (Z.sgn n * (q' * 2 ^ e)).

(** [RateLimiter(requests_per_minute, burst, base, max)] followed by
    [__post_init__]; [now] is the reading of the event-loop clock. *)
Definition __post_init__
    (rpm brst : Z) (base maxb : Q) (now : Q) : RateLimiter :=
  {| requests_per_minute := rpm;
     burst := brst;
     backoff_base_seconds := base;
     max_backoff_seconds := maxb;
     _tokens := float_of_int brst;
     _last_refill := now;
     _refill_rate := if (rpm =? 0)%Z then 0 else float_of_int rpm / 60 |}.

Definition set_tokens (self : RateLimiter) (t : Q) : RateLimiter :=
  {| requests_per_minute := requests_per_minute self;
     burst := burst self;
     backoff_base_seconds := backoff_base_seconds self;
     max_backoff_seconds := max_backoff_seconds self;
     _tokens := t;
     _last_refill := _last_refill self;
     _refill_rate := _refill_rate self |}.

Definition set_last_refill (self : RateLimiter) (t : Q) : RateLimiter :=
  {| requests_per_minute := requests_per_minute self;
     burst := burst self;
     backoff_base_seconds := backoff_base_seconds self;
     max_backoff_seconds := max_backoff_seconds self;
     _tokens := _tokens self;
     _last_refill := t;
     _refill_rate := _refill_rate self |}.

(** [_refill]: replenish from the time elapsed since the last refill. *)
Definition _refill (now : Q) (self : RateLimiter) : RateLimiter :=
  let elapsed := now - _last_refill self in
  if Qle_bool elapsed 0 || Qeq_bool (_refill_rate self) 0 then self
  else
    set_last_refill
      (set_tokens self
         (Qmin (inject_Z (burst self))
               (_tokens self + elapsed * _refill_rate self)))
      now.

(** The two components of the suspension and their maximum, as computed
    in the body of the loop of [acquire]. *)
Definition wait_time (self : RateLimiter) : Q :=
  if Qeq_bool (_refill_rate self) 0 then backoff_base_seconds self
  else (1 - _tokens self) / _refill_rate self.

(** [min(max_backoff_seconds, backoff_base_seconds * (2**attempt))].
    The power is an [int]; the product converts it to a [float], which
    raises OverflowError ([None]) once it is 2^1024 or more. *)
Definition backoff (self : RateLimiter) (attempt : nat) : option Q :=
  if (1024 <=? Z.of_nat attempt)%Z then None
  else
    Some (Qmin (max_backoff_seconds self)
               (backoff_base_seconds self * inject_Z (2 ^ Z.of_nat attempt))).

(** [max(wait_time, backoff)], the argument of [asyncio.sleep]. *)
Definition suspension (self : RateLimiter) (attempt : nat) : option Q :=
  match backoff self attempt with
  | Some b => Some (Qmax (wait_time self) b)
  | None => None
  end.

(** What one call of [acquire] leaves behind: the limiter, the loop time
    at which the call stopped, the durations it slept, whether it
    returned, and whether it raised OverflowError.  Neither: the fuel ran
    out while it was waiting. *)
Record Acquired : Type := mkAcquired {
  limiter : RateLimiter;
  resumed_at : Q;
  slept : list Q;
  admitted : bool;
  overflowed : bool
}.

Definition after_sleep (d : Q) (r : Acquired) : Acquired :=
  {| limiter := limiter r;
     resumed_at := resumed_at r;
     slept := d :: slept r;
     admitted := admitted r;
     overflowed := overflowed r |}.

Section Acquire.

(** [sleep now d]: loop time at which [await asyncio.sleep(d)], started
    at [now], resumes. *)
Variable sleep : Q -> Q -> Q.

(** The [while True] loop of [acquire]. *)
Fixpoint acquire_loop (fuel attempt : nat) (now : Q) (self : RateLimiter)
    : Acquired :=
  match fuel with
  | O => mkAcquired self now [] false false
  | S fuel' =>
      let self1 := _refill now self in
      if Qle_bool 1 (_tokens self1) then
        mkAcquired (set_tokens self1 (_tokens self1 - 1)) now [] true false
      else
        match suspension self1 attempt with
        | None => mkAcquired self1 now [] false true
        | Some d =>
            after_sleep d (acquire_loop fuel' (S attempt) (sleep now d) self1)
        end
  end.

Definition acquire (fuel : nat) (now : Q) (self : RateLimiter) : Acquired :=
  if (requests_per_minute self <=? 0)%Z then mkAcquired self now [] true false
  else acquire_loop fuel 0 now self.

(** A sequence of [acquire] calls on one limiter; call [i] starts at loop
    time [snd c_i] and may run for [fst c_i] iterations.  Returns what
    each call did and the limiter after the last one. *)
Fixpoint acquire_calls (calls : list (nat * Q)) (self : RateLimiter)
    : list Acquired * RateLimiter :=
  match calls with
  | [] => ([], self)
  | (fuel, now) :: calls' =>
      let r := acquire fuel now self in
      let '(rs, self') := acquire_calls calls' (limiter r) in
      (r :: rs, self')
  end.

End Acquire.

(** An integer that a double holds exactly. *)
Definition exact_int (n : Z) : Prop := (Z.abs n <= 2 ^ 53)%Z.

(** The bound the specification states for the token level. *)
Definition tokens_in_range (self : RateLimiter) : Prop :=
  0 <= _tokens self /\ _tokens self <= inject_Z (burst self).

(** The level is in range, and a limiter that throttles at all refills
    at a positive rate. *)
Definition consistent (self : RateLimiter) : Prop :=
  tokens_in_range self /\
  ((0 < requests_per_minute self)%Z -> 0 < _refill_rate self).

(** A scheduler that resumes a sleeper no earlier than asked, and a
    clock that does not run backwards while it sleeps. *)
Definition punctual (sleep : Q -> Q -> Q) : Prop :=
  forall now d, now <= sleep now d /\ now + d <= sleep now d.

(** The scheduler without latency. *)
Definition exact_sleep (now d : Q) : Q := now + Qmax 0 d.

(** 60 requests per minute, burst 1, built at loop time 0. *)
Definition one_per_second : RateLimiter :=
  __post_init__ 60 1 default_backoff_base_seconds
    default_max_backoff_seconds 0.



End RateLimit.

(* ================================================================== *)
(** * The data model ([sage/models/queue.py], [sage/utils/progress.py]) *)
(* ================================================================== *)

Module QueueStatus.

Inductive t : Type := QUEUED | PROCESSING | COMPLETED | FAILED.

End QueueStatus.

Module ProcessingStage.

Inductive t : Type :=
| VALIDATING | DOWNLOADING | TRANSCRIBING | SUMMARIZING | STORING
| COMPLETE | FAILED.

End ProcessingStage.

(** [class ProgressUpdate]: what the ingestion handler hands to the
    progress callback. *)
Module ProgressUpdate.

Record t : Type := mk {
  stage : ProcessingStage.t;
  stage_progress : Z;
  overall_progress : Z;
  message : string;
  video_url : string;
  estimated_time_remaining : option Z
}.

(** The pydantic field constraints ([ge=0, le=100], [ge=0]); an object
    built by the class constructor satisfies them. *)
Definition validated (u : t) : bool :=
  (0 <=? stage_progress u)%Z && (stage_progress u <=? 100)%Z &&
  (0 <=? overall_progress u)%Z && (overall_progress u <=? 100)%Z &&
  match estimated_time_remaining u with
  | Some r => (0 <=? r)%Z
  | None => true
  end.

End ProgressUpdate.

(** [class QueueItem].  [video_url] holds [str] of the validated
    [HttpUrl]; datetimes are integers. *)
Module QueueItem.

Record t : Type := mk {
  video_url : string;
  status : QueueStatus.t;
  priority : Z;
  manual_tags : list string;
  summarize : bool;
  summary_length : Z;
  remove_timestamps : bool;
  force : bool;
  current_stage : option ProcessingStage.t;
  stage_progress_percent : Z;
  overall_progress_percent : Z;
  retry_count : Z;
  max_retries : Z;
  error_message : option string;
  error_type : option string;
  message : option string;
  queued_at : Z;
  started_at : option Z;
  completed_at : option Z
}.

(** The constructor call of [add_to_queue]: the fields it passes, the
    class defaults for the others, and the two validations that can
    reject the call ([HttpUrl], [summary_length >= 1]).  [http_url]
    is pydantic's URL validation: [None] when it rejects the string,
    otherwise the normalised text that [str(item.video_url)] gives. *)
Definition new (http_url : string -> option string)
    (url : string) (prio : Z) (queued : Z) (tags : list string)
    (summ : bool) (summ_len : Z) (rm_ts frc : bool) : option t :=
  match http_url url with
  | None => None
  | Some validated_url =>
      if (1 <=? summ_len)%Z then
        Some {| video_url := validated_url;
                status := QueueStatus.QUEUED;
                priority := prio;
                manual_tags := tags;
                summarize := summ;
                summary_length := summ_len;
                remove_timestamps := rm_ts;
                force := frc;
                current_stage := None;
                stage_progress_percent := 0;
                overall_progress_percent := 0;
                retry_count := 0;
                max_retries := 3;
                error_message := None;
                error_type := None;
                message := None;
                queued_at := queued;
                started_at := None;
                completed_at := None |}
      else None
  end.

(** The keys that [model_copy(update={...})] is given in the scheduler. *)
Inductive field_update : Type :=
| set_status (v : QueueStatus.t)
| set_started_at (v : option Z)
| set_completed_at (v : option Z)
| set_current_stage (v : option ProcessingStage.t)
| set_stage_progress_percent (v : Z)
| set_overall_progress_percent (v : Z)
| set_error_message (v : option string)
| set_error_type (v : option string)
| set_message (v : option string).

(** A copy of [self] with the nine mutable fields as given. *)
Definition with_state (self : t)
    (st : QueueStatus.t) (started completed : option Z)
    (stage : option ProcessingStage.t) (stage_pct overall_pct : Z)
    (err_msg err_type msg : option string) : t :=
  {| video_url := video_url self;
     status := st;
     priority := priority self;
     manual_tags := manual_tags self;
     summarize := summarize self;
     summary_length := summary_length self;
     remove_timestamps := remove_timestamps self;
     force := force self;
     current_stage := stage;
     stage_progress_percent := stage_pct;
     overall_progress_percent := overall_pct;
     retry_count := retry_count self;
     max_retries := max_retries self;
     error_message := err_msg;
     error_type := err_type;
     message := msg;
     queued_at := queued_at self;
     started_at := started;
     completed_at := completed |}.

Definition apply_update (self : t) (u : field_update) : t :=
  let st := status self in
  let sa := started_at self in
  let ca := completed_at self in
  let cs := current_stage self in
  let sp := stage_progress_percent self in
  let op := overall_progress_percent self in
  let em := error_message self in
  let et := error_type self in
  let ms := message self in
  match u with
  | set_status v => with_state self v sa ca cs sp op em et ms
  | set_started_at v => with_state self st v ca cs sp op em et ms
  | set_completed_at v => with_state self st sa v cs sp op em et ms
  | set_current_stage v => with_state self st sa ca v sp op em et ms
  | set_stage_progress_percent v => with_state self st sa ca cs v op em et ms
  | set_overall_progress_percent v => with_state self st sa ca cs sp v em et ms
  | set_error_message v => with_state self st sa ca cs sp op v et ms
  | set_error_type v => with_state self st sa ca cs sp op em v ms
  | set_message v => with_state self st sa ca cs sp op em et v
  end.

(** [self.model_copy(update=...)]: a new object, no validation. *)
Definition model_copy (self : t) (update : list field_update) : t :=
  fold_left apply_update update self.

End QueueItem.

(** [class ServiceRateLimit]: the two fields the scheduler reads.
    pydantic declares them [Optional[PositiveInt]]. *)
Module ServiceRateLimit.

Record t : Type := mk {
  requests_per_minute : option Z;
  burst : option Z
}.

Definition validated (c : t) : bool :=
  match requests_per_minute c with Some v => (0 <? v)%Z | None => true end &&
  match burst c with Some v => (0 <? v)%Z | None => true end.

End ServiceRateLimit.

(* ================================================================== *)
(** * The scheduler ([class QueueService]) *)
(* ================================================================== *)

Module Scheduler.

Import RateLimit.

(** An exception object as [_process_item] sees it: the class name, its
    [str], and whether [except Exception] catches it (false for
    [KeyboardInterrupt], [SystemExit], [asyncio.CancelledError]). *)
Record BaseException : Type := mkBaseException {
  class_name : string;
  str : string;
  isinstance_Exception : bool
}.

(** One run of the injected ingestion handler: the progress updates it
    reports, in order, and how it ends ([None]: it returns). *)
Record HandlerRun : Type := mkHandlerRun {
  reports : list ProgressUpdate.t;
  raised : option BaseException
}.

Definition IngestionHandler : Type := QueueItem.t -> HandlerRun.

(** An entry of the priority queue: [(-priority, sequence, item)]. *)
Definition Entry : Type := Z * Z * QueueItem.t.

Definition entry_item (e : Entry) : QueueItem.t := snd e.
Definition entry_sequence (e : Entry) : Z := snd (fst e).
Definition entry_key (e : Entry) : Z * Z := fst e.

(** Tuple comparison of Python on the first two components.  The third
    is never compared: sequence numbers in the queue are distinct. *)
Definition entry_ltb (a b : Entry) : bool :=
  let '(ka, sa) := entry_key a in
  let '(kb, sb) := entry_key b in
  (ka <? kb)%Z || ((ka =? kb)%Z && (sa <? sb)%Z).

(** [asyncio.PriorityQueue] through its contract: [put] adds an entry,
    [get] removes the lowest one. *)
Definition pq_put (e : Entry) (q : list Entry) : list Entry := e :: q.

Fixpoint pq_lowest (e : Entry) (q : list Entry) : Entry * list Entry :=
  match q with
  | [] => (e, [])
  | x :: q' =>
      let '(m, rest) := pq_lowest x q' in
      if entry_ltb m e then (m, e :: rest) else (e, x :: q')
  end.

Definition pq_get (q : list Entry) : option (Entry * list Entry) :=
  match q with
  | [] => None
  | e :: q' => Some (pq_lowest e q')
  end.

(** The order in which repeated [get] empties a queue. *)
Fixpoint pq_drain (n : nat) (q : list Entry) : list Entry :=
  match n with
  | O => []
  | S n' =>
      match pq_get q with
      | None => []
      | Some (e, rest) => e :: pq_drain n' rest
      end
  end.

(** The scheduler object, with the two clocks it reads: the event-loop
    time and the number of [datetime.now] readings taken so far. *)
Record QueueService : Type := mkQueueService {
  _ingestion_handler : IngestionHandler;
  _priority_queue : list Entry;
  _items : gmap string QueueItem.t;
  _sequence : Z;
  _rate_limiters : gmap string RateLimiter;
  _console : list string;
  loop_time : Q;
  utc_reads : nat
}.

Definition set_priority_queue (self : QueueService) (q : list Entry)
    : QueueService :=
  mkQueueService (_ingestion_handler self) q (_items self) (_sequence self)
    (_rate_limiters self) (_console self) (loop_time self) (utc_reads self).

Definition set_items (self : QueueService) (m : gmap string QueueItem.t)
    : QueueService :=
  mkQueueService (_ingestion_handler self) (_priority_queue self) m
    (_sequence self) (_rate_limiters self) (_console self) (loop_time self)
    (utc_reads self).

Definition set_sequence (self : QueueService) (n : Z) : QueueService :=
  mkQueueService (_ingestion_handler self) (_priority_queue self)
    (_items self) n (_rate_limiters self) (_console self) (loop_time self)
    (utc_reads self).

Definition set_rate_limiters (self : QueueService)
    (m : gmap string RateLimiter) : QueueService :=
  mkQueueService (_ingestion_handler self) (_priority_queue self)
    (_items self) (_sequence self) m (_console self) (loop_time self)
    (utc_reads self).

Definition console_log (self : QueueService) (line : string) : QueueService :=
  mkQueueService (_ingestion_handler self) (_priority_queue self)
    (_items self) (_sequence self) (_rate_limiters self)
    (_console self ++ [line]) (loop_time self) (utc_reads self).

Definition set_loop_time (self : QueueService) (t : Q) : QueueService :=
  mkQueueService (_ingestion_handler self) (_priority_queue self)
    (_items self) (_sequence self) (_rate_limiters self) (_console self)
    t (utc_reads self).

Definition set_utc_reads (self : QueueService) (n : nat) : QueueService :=
  mkQueueService (_ingestion_handler self) (_priority_queue self)
    (_items self) (_sequence self) (_rate_limiters self) (_console self)
    (loop_time self) n.

(** Python's [value or default] on an optional integer. *)
Definition or_default (value : option Z) (default : Z) : Z :=
  match value with
  | Some v => if (v =? 0)%Z then default else v
  | None => default
  end.

(** [_create_limiter]: the limiter and the console lines it logs. *)
Definition _create_limiter (now : Q) (service_name : string)
    (config : ServiceRateLimit.t) : RateLimiter * list string :=
  let rpm := or_default (ServiceRateLimit.requests_per_minute config) 60 in
  let brst := or_default (ServiceRateLimit.burst config) rpm in
  (__post_init__ rpm brst default_backoff_base_seconds
     default_max_backoff_seconds now,
   if (rpm <=? 0)%Z then
     [String.append "[yellow]"
        (String.append service_name
           ": rate limit disabled or zero requests configured.[/yellow]")]
   else []).

(** [load_rate_limits], over the items of [configuration.services] in
    their order. *)
Fixpoint load_rate_limits (now : Q)
    (services : list (string * ServiceRateLimit.t))
    (limiters : gmap string RateLimiter) (console : list string)
    : gmap string RateLimiter * list string :=
  match services with
  | [] => (limiters, console)
  | (service_name, config) :: services' =>
      let '(lim, lines) := _create_limiter now service_name config in
      load_rate_limits now services' (<[service_name := lim]> limiters)
        (console ++ lines)
  end.

(** [QueueService.__init__] *)
Definition __init__ (ingestion_handler : IngestionHandler)
    (rate_limits : list (string * ServiceRateLimit.t)) (now : Q)
    : QueueService :=
  let '(limiters, console) := load_rate_limits now rate_limits ∅ [] in
  {| _ingestion_handler := ingestion_handler;
     _priority_queue := [];
     _items := ∅;
     _sequence := 0;
     _rate_limiters := limiters;
     _console := console;
     loop_time := now;
     utc_reads := 0 |}.

(** How a call of [apply_rate_limit], [_process_item] or
    [process_queue] ends.  [Waiting] is an [acquire] that had not been
    admitted when the fuel ran out. *)
Inductive Outcome : Type :=
| Returned
| Waiting
| Raised (exc : BaseException).

(** What [float(2**attempt)] raises in [acquire]. *)
Definition overflow_error : BaseException :=
  {| class_name := "OverflowError";
     str := "int too large to convert to float";
     isinstance_Exception := true |}.

(** How a call of [acquire] ends. *)
Definition acquire_outcome (r : Acquired) : Outcome :=
  if admitted r then Returned
  else if overflowed r then Raised overflow_error
  else Waiting.

(** The world outside the process. *)
Record Env : Type := mkEnv {
  http_url : string -> option string;
  utcnow : nat -> Z;
  sleep : Q -> Q -> Q
}.

(** One call of [add_to_queue] with its arguments. *)
Record Enqueue : Type := mkEnqueue {
  url : string;
  priority : Z;
  manual_tags : list string;
  summarize : bool;
  summary_length : Z;
  remove_timestamps : bool;
  force : bool
}.

Section WithEnv.

Variable env : Env.

(** [datetime.now(timezone.utc)] *)
Definition datetime_now (self : QueueService) : Z * QueueService :=
  (utcnow env (utc_reads self), set_utc_reads self (S (utc_reads self))).

(** [add_to_queue]; [None] when the [QueueItem] constructor raises. *)
Definition add_to_queue (c : Enqueue) (self : QueueService)
    : option QueueItem.t * QueueService :=
  let '(queued_at, self) := datetime_now self in
  match QueueItem.new (http_url env) (url c) (priority c) queued_at
          (manual_tags c) (summarize c) (summary_length c)
          (remove_timestamps c) (force c) with
  | None => (None, self)
  | Some item =>
      let self := set_sequence self (_sequence self + 1) in
      let self :=
        set_priority_queue self
          (pq_put ((- priority c)%Z, _sequence self, item)
                  (_priority_queue self)) in
      (Some item, set_items self (<[url c := item]> (_items self)))
  end.

(** A caller issuing [add_to_queue] calls one after the other. *)
Definition add_all (calls : list Enqueue) (self : QueueService)
    : QueueService :=
  fold_left (fun s c => snd (add_to_queue c s)) calls self.

(** [apply_rate_limit], with the way the awaited [acquire] ends. *)
Definition apply_rate_limit (fuel : nat) (service_name : string)
    (self : QueueService) : QueueService * Outcome :=
  match _rate_limiters self !! service_name with
  | None => (self, Returned)
  | Some lim =>
      let r := acquire (sleep env) fuel (loop_time self) lim in
      (set_loop_time
         (set_rate_limiters self
            (<[service_name := limiter r]> (_rate_limiters self)))
         (resumed_at r),
       acquire_outcome r)
  end.

(** [for service in services_to_throttle: await apply_rate_limit(service)];
    a call that does not return ends the loop. *)
Fixpoint throttle (fuel : nat) (services : list string)
    (self : QueueService) : QueueService * Outcome :=
  match services with
  | [] => (self, Returned)
  | service :: services' =>
      let '(self1, out) := apply_rate_limit fuel service self in
      match out with
      | Returned => throttle fuel services' self1
      | _ => (self1, out)
      end
  end.

(** The callback returned by [_progress_callback_for video_url]. *)
Definition _progress_callback_for (video_url : string)
    (self : QueueService) (update : ProgressUpdate.t) : QueueService :=
  match _items self !! video_url with
  | None => self
  | Some current =>
      set_items self
        (<[video_url :=
             QueueItem.model_copy current
               [QueueItem.set_current_stage
                  (Some (ProgressUpdate.stage update));
                QueueItem.set_stage_progress_percent
                  (ProgressUpdate.stage_progress update);
                QueueItem.set_overall_progress_percent
                  (Z.max (QueueItem.overall_progress_percent current)
                         (ProgressUpdate.overall_progress update));
                QueueItem.set_message
                  (Some (ProgressUpdate.message update))]]>
           (_items self))
  end.

(** The three copies [_process_item] makes. *)
Definition in_progress_copy (item : QueueItem.t) (started : Z)
    : QueueItem.t :=
  QueueItem.model_copy item
    [QueueItem.set_status QueueStatus.PROCESSING;
     QueueItem.set_started_at (Some started);
     QueueItem.set_current_stage (Some ProcessingStage.VALIDATING);
     QueueItem.set_stage_progress_percent 0].

Definition completed_copy (in_progress : QueueItem.t) (finished : Z)
    : QueueItem.t :=
  QueueItem.model_copy in_progress
    [QueueItem.set_status QueueStatus.COMPLETED;
     QueueItem.set_completed_at (Some finished);
     QueueItem.set_current_stage (Some ProcessingStage.COMPLETE);
     QueueItem.set_overall_progress_percent 100;
     QueueItem.set_stage_progress_percent 100].

Definition failed_copy (in_progress : QueueItem.t) (finished : Z)
    (exc : BaseException) : QueueItem.t :=
  QueueItem.model_copy in_progress
    [QueueItem.set_status QueueStatus.FAILED;
     QueueItem.set_completed_at (Some finished);
     QueueItem.set_current_stage (Some ProcessingStage.FAILED);
     QueueItem.set_error_message (Some (str exc));
     QueueItem.set_error_type (Some (class_name exc))].

Definition services_to_throttle (in_progress : QueueItem.t) : list string :=
  "youtube_api"%string ::
  (if QueueItem.summarize in_progress then ["openai_api"%string] else []).

(** [_process_item] up to the point where the handler is awaited: the
    PROCESSING copy is stored and the rate limits are applied. *)
Definition begin_item (fuel : nat) (item : QueueItem.t)
    (self : QueueService) : QueueItem.t * QueueService * Outcome :=
  let '(started, self) := datetime_now self in
  let in_progress := in_progress_copy item started in
  let self :=
    set_items self
      (<[QueueItem.video_url item := in_progress]> (_items self)) in
  let '(self, out) := throttle fuel (services_to_throttle in_progress) self in
  (in_progress, self, out).

(** The handler runs: its reports go through the progress callback. *)
Definition run_reports (video_url : string) (run : HandlerRun)
    (self : QueueService) : QueueService :=
  fold_left (_progress_callback_for video_url) (reports run) self.

(** The text of the log call in the [except] clause. *)
Definition failure_line (exc : BaseException) : string :=
  String.append "[red]Batch item failed:[/red] " (str exc).

(** An exception raised in the [try] body: the [except Exception]
    clause stores the FAILED copy and logs, anything else propagates.
    The console here takes the text as it is. *)
Definition except_Exception (item in_progress : QueueItem.t)
    (exc : BaseException) (self : QueueService) : QueueService * Outcome :=
  if isinstance_Exception exc then
    let '(finished, self) := datetime_now self in
    let self :=
      set_items self
        (<[QueueItem.video_url item :=
             failed_copy in_progress finished exc]> (_items self)) in
    (console_log self (failure_line exc), Returned)
  else (self, Raised exc).

(** The end of [_process_item]: the [try] body after the handler, or the
    [except Exception] clause. *)
Definition finish_item (item in_progress : QueueItem.t) (run : HandlerRun)
    (self : QueueService) : QueueService * Outcome :=
  match raised run with
  | None =>
      let '(finished, self) := datetime_now self in
      (set_items self
         (<[QueueItem.video_url item := completed_copy in_progress finished]>
            (_items self)),
       Returned)
  | Some exc => except_Exception item in_progress exc self
  end.

(** [_process_item].  The calls of [apply_rate_limit] are inside the
    [try]: the OverflowError of an [acquire] is caught like an error of
    the handler. *)
Definition _process_item (fuel : nat) (item : QueueItem.t)
    (self : QueueService) : QueueService * Outcome :=
  let '(in_progress, self, out) := begin_item fuel item self in
  match out with
  | Returned =>
      let run := _ingestion_handler self in_progress in
      finish_item item in_progress run
        (run_reports (QueueItem.video_url item) run self)
  | Waiting => (self, Waiting)
  | Raised exc => except_Exception item in_progress exc self
  end.

(** The loop of [process_queue].  [n] bounds the number of items taken;
    the result lists the entries that [get] returned, in order. *)
Fixpoint process_queue_loop (n fuel : nat) (self : QueueService)
    : list Entry * QueueService * Outcome :=
  match pq_get (_priority_queue self) with
  | None =>
      ([], set_loop_time self (sleep env (loop_time self) (1 # 20)), Returned)
  | Some (entry, rest) =>
      match n with
      | O => ([], self, Waiting)
      | S n' =>
          let '(self1, out) :=
            _process_item fuel (entry_item entry)
              (set_priority_queue self rest) in
          match out with
          | Returned =>
              let '(popped, self2, out2) :=
                process_queue_loop n' fuel self1 in
              (entry :: popped, self2, out2)
          | _ => ([entry], self1, out)
          end
      end
  end.

(** [process_queue]: every entry present is taken at most once, so the
    length of the queue bounds the loop. *)
Definition process_queue (fuel : nat) (self : QueueService)
    : list Entry * QueueService * Outcome :=
  process_queue_loop (length (_priority_queue self)) fuel self.

End WithEnv.

(** ** Vocabulary of the properties *)

(** [a] is served before [b]: higher priority first, and among equal
    priorities the lower sequence number. *)
Definition runs_before (a b : Entry) : Prop :=
  (QueueItem.priority (entry_item b) < QueueItem.priority (entry_item a))%Z \/
  (QueueItem.priority (entry_item a) = QueueItem.priority (entry_item b) /\
   (entry_sequence a < entry_sequence b)%Z).

(** Order of the keys as [get] sees it: [a] is not above [b]. *)
Definition entry_le (a b : Entry) : Prop := entry_ltb b a = false.

(** What holds of the queue of a scheduler between calls: entries carry
    the negated priority of their item, sequence numbers were all handed
    out already, and no two entries share one. *)
Definition queue_consistent (self : QueueService) : Prop :=
  Forall (fun e =>
            fst (entry_key e) = (- QueueItem.priority (entry_item e))%Z /\
            (entry_sequence e <= _sequence self)%Z)
         (_priority_queue self) /\
  NoDup (map entry_sequence (_priority_queue self)).

(** Whether the [QueueItem] constructor accepts the arguments of a call. *)
Definition accepts (env : Env) (c : Enqueue) : bool :=
  match http_url env (url c) with
  | Some _ => (1 <=? summary_length c)%Z
  | None => false
  end.

(** The keys that accepted calls push, starting after sequence number
    [seq]: [(-priority, seq + 1)], [(-priority, seq + 2)], ... *)
Fixpoint pushed_keys (seq : Z) (accepted : list Enqueue) : list (Z * Z) :=
  match accepted with
  | [] => []
  | c :: cs => ((- priority c)%Z, (seq + 1)%Z) :: pushed_keys (seq + 1) cs
  end.

(** The entries of a queue whose item is for the (validated) URL [v]. *)
Definition entries_for (v : string) (q : list Entry) : list Entry :=
  List.filter (fun e => String.eqb (QueueItem.video_url (entry_item e)) v) q.

(** Every limiter of the registry can admit: consistent, a bucket that
    holds a whole token when it throttles, and refilled no later than
    the present loop time. *)
Definition limiter_ready (now : Q) (lim : RateLimiter) : Prop :=
  consistent lim /\
  ((0 < requests_per_minute lim)%Z -> (1 <= burst lim)%Z) /\
  (_last_refill lim <= now)%Q.

(** The integers of a service configuration are such that a double
    holds them exactly. *)
Definition in_double_range (config : ServiceRateLimit.t) : Prop :=
  match ServiceRateLimit.requests_per_minute config with
  | Some v => exact_int v
  | None => True
  end /\
  match ServiceRateLimit.burst config with
  | Some v => exact_int v
  | None => True
  end.

Definition limiters_ready (self : QueueService) : Prop :=
  forall name lim,
    _rate_limiters self !! name = Some lim ->
    limiter_ready (loop_time self) lim.

(** The handler signals failure with errors only (instances of
    [Exception]). *)
Definition raises_only_errors (handler : IngestionHandler) : Prop :=
  forall item exc,
    raised (handler item) = Some exc -> isinstance_Exception exc = true.

(** Two schedulers that differ at most in what they hold for the URL
    [u]: the map entry of [u], the console, and what the handler does
    for items of that URL. *)
Definition same_except (u : string) (a b : QueueService) : Prop :=
  _priority_queue a = _priority_queue b /\
  _sequence a = _sequence b /\
  _rate_limiters a = _rate_limiters b /\
  loop_time a = loop_time b /\
  utc_reads a = utc_reads b /\
  (forall k, k <> u -> _items a !! k = _items b !! k) /\
  (forall item,
     QueueItem.video_url item <> u ->
     _ingestion_handler a item = _ingestion_handler b item).

(** The fields no step of [_process_item] writes. *)
Definition untouched (a b : QueueService) : Prop :=
  _ingestion_handler b = _ingestion_handler a /\
  _priority_queue b = _priority_queue a /\
  _sequence b = _sequence a.

(** The rate limits let [item] through: every [acquire] that
    [_process_item] awaits returns within [fuel] iterations, so the
    handler is called. *)
Definition admits (env : Env) (fuel : nat) (item : QueueItem.t)
    (self : QueueService) : Prop :=
  snd (begin_item env fuel item self) = Returned.

(** ** A concrete environment and handlers, for the examples *)

Definition plain_env : Env :=
  {| http_url := fun url => if String.eqb url "" then None else Some url;
     utcnow := fun n => (1700000000 + Z.of_nat n)%Z;
     sleep := exact_sleep |}.

Definition quiet_handler : IngestionHandler :=
  fun _ => {| reports := []; raised := None |}.

Definition video : string := "https://www.youtube.com/watch?v=dQw4w9WgXcQ".

(** A call of [add_to_queue url priority=p] with the default keywords. *)
Definition call (u : string) (p : Z) : Enqueue :=
  {| url := u;
     priority := p;
     manual_tags := [];
     summarize := true;
     summary_length := 300;
     remove_timestamps := false;
     force := false |}.

Definition halfway : ProgressUpdate.t :=
  {| ProgressUpdate.stage := ProcessingStage.DOWNLOADING;
     ProgressUpdate.stage_progress := 80;
     ProgressUpdate.overall_progress := 50;
     ProgressUpdate.message := "downloading";
     ProgressUpdate.video_url := video;
     ProgressUpdate.estimated_time_remaining := None |}.

Definition network_down : BaseException :=
  {| class_name := "RuntimeError";
     str := "network down";
     isinstance_Exception := true |}.

(** Reports half of the work done, then raises. *)
Definition failing_handler : IngestionHandler :=
  fun _ => {| reports := [halfway]; raised := Some network_down |}.

(** Fails for [video] only. *)
Definition picky_handler : IngestionHandler :=
  fun item =>
    if String.eqb (QueueItem.video_url item) video then failing_handler item
    else quiet_handler item.

(** Both services of [_process_item] throttled at 60 per minute with a
    burst of 1. *)
Definition tight_limits : list (string * ServiceRateLimit.t) :=
  [("youtube_api"%string, ServiceRateLimit.mk (Some 60%Z) (Some 1%Z));
   ("openai_api"%string, ServiceRateLimit.mk (Some 60%Z) None)].

(** Two items of equal priority; the handler fails for the first. *)
Definition two_videos : QueueService :=
  add_all plain_env [call video 0; call "https://youtu.be/abcdefghijk" 0]
    (__init__ picky_handler tight_limits 0).

End Scheduler.

(* ================================================================== *)
(** * The scheduler with a console that renders markup *)
(* ================================================================== *)

(** [QueueService] logs through [self._console], the console it was
    given or [Console()].  [Console.log] of rich renders console markup
    unless the console was built with [markup=False]: a closing tag
    [[/name]] in the text that matches no open tag makes it raise
    [rich.errors.MarkupError].  In [Scheduler] the console takes every
    line as it is.  Here [Console.log] is a parameter that says for each
    line whether the call raises, and the [except] clause of
    [_process_item], the only place that logs while the queue is
    processed, is embedded again with it. *)
Module Markup.

Import Strings.Ascii RateLimit Scheduler.

(** [rich.errors.MarkupError], a subclass of [Exception]. *)
Definition MarkupError (message : string) : BaseException :=
  {| class_name := "MarkupError";
     str := message;
     isinstance_Exception := true |}.

Section WithConsole.

Variable env : Env.

(** [self._console.log(line)]: [Some exc] when the call raises [exc]. *)
Variable log_raises : string -> option BaseException.

Definition console_log (self : QueueService) (line : string)
    : QueueService * Outcome :=
  match log_raises line with
  | Some exc => (self, Raised exc)
  | None => (Scheduler.console_log self line, Returned)
  end.

(** The [except Exception] clause: what its log call raises leaves
    [_process_item]. *)
Definition except_Exception (item in_progress : QueueItem.t)
    (exc : BaseException) (self : QueueService) : QueueService * Outcome :=
  if isinstance_Exception exc then
    let '(finished, self) := datetime_now env self in
    let self :=
      set_items self
        (<[QueueItem.video_url item :=
             failed_copy in_progress finished exc]> (_items self)) in
    console_log self (failure_line exc)
  else (self, Raised exc).

Definition finish_item (item in_progress : QueueItem.t) (run : HandlerRun)
    (self : QueueService) : QueueService * Outcome :=
  match raised run with
  | None =>
      let '(finished, self) := datetime_now env self in
      (set_items self
         (<[QueueItem.video_url item := completed_copy in_progress finished]>
            (_items self)),
       Returned)
  | Some exc => except_Exception item in_progress exc self
  end.

(** [_process_item] *)
Definition _process_item (fuel : nat) (item : QueueItem.t)
    (self : QueueService) : QueueService * Outcome :=
  let '(in_progress, self, out) := begin_item env fuel item self in
  match out with
  | Returned =>
      let run := _ingestion_handler self in_progress in
      finish_item item in_progress run
        (run_reports (QueueItem.video_url item) run self)
  | Waiting => (self, Waiting)
  | Raised exc => except_Exception item in_progress exc self
  end.

(** The loop of [process_queue] *)
Fixpoint process_queue_loop (n fuel : nat) (self : QueueService)
    : list Entry * QueueService * Outcome :=
  match pq_get (_priority_queue self) with
  | None =>
      ([], set_loop_time self (sleep env (loop_time self) (1 # 20)), Returned)
  | Some (entry, rest) =>
      match n with
      | O => ([], self, Waiting)
      | S n' =>
          let '(self1, out) :=
            _process_item fuel (entry_item entry)
              (set_priority_queue self rest) in
          match out with
          | Returned =>
              let '(popped, self2, out2) :=
                process_queue_loop n' fuel self1 in
              (entry :: popped, self2, out2)
          | _ => ([entry], self1, out)
          end
      end
  end.

(** [process_queue] *)
Definition process_queue (fuel : nat) (self : QueueService)
    : list Entry * QueueService * Outcome :=
  process_queue_loop (length (_priority_queue self)) fuel self.

End WithConsole.

(** ** Consoles, for the examples *)


(** The text of the tag that a bracket opens: what stands before the
    first closing bracket, when no opening bracket stands before it. *)
Fixpoint tag_text (s : string) : option string :=
  match s with
  | EmptyString => None
  | String c rest =>
      if Strings.Ascii.eqb c "]"%char then Some EmptyString
      else if Strings.Ascii.eqb c "["%char then None
      else option_map (String c) (tag_text rest)
  end.

(** The first opening bracket of a text, when no backslash stands before
    it and it opens a closing tag [[/name...]] whose name starts with a
    letter: its offset, counted from [offset], and the text of the
    tag. *)
Fixpoint first_closing_tag (offset : nat) (s : string)
    : option (nat * string) :=
  match s with
  | EmptyString => None
  | String c rest =>
      if Strings.Ascii.eqb c "\"%char then None
      else if Strings.Ascii.eqb c "["%char then
        match rest with
        | String "/"%char (String l _) =>
            if (Strings.Ascii.leb "a"%char l && Strings.Ascii.leb l "z"%char)%bool then
              option_map (fun t => (offset, t)) (tag_text rest)
            else None
        | _ => None
        end
      else first_closing_tag (S offset) rest
  end.

(** The text before [{exc}] in the line that the [except] clause
    logs. *)
Definition failure_prefix : string := "[red]Batch item failed:[/red] ".

(** [Console.log] of a console with markup, on the failure lines that
    [first_closing_tag] decides: after [[red]] and [[/red]] no tag is
    open, so a closing tag in the text of the error raises MarkupError.
    The lines it does not decide are taken as logged. *)
Definition rich_console (line : string) : option BaseException :=
  if String.prefix failure_prefix line then
    let text :=
      String.substring (String.length failure_prefix)
        (String.length line - String.length failure_prefix) line in
    match first_closing_tag (String.length failure_prefix) text with
    | Some (position, tag) =>
        Some (MarkupError
                (String.append "closing tag '["
                   (String.append tag
                      (String.append "]' at position "
                         (String.append
                            (NilZero.string_of_uint (Nat.to_uint position))
                            " doesn't match any open tag")))))
    | None => None
    end
  else None.

(** An error whose text names a path in brackets. *)
Definition cache_full : BaseException :=
  {| class_name := "OSError";
     str := "no space left in cache [/var/tmp/sage]";
     isinstance_Exception := true |}.

(** Fails with [cache_full] for [video] only. *)
Definition cache_handler : IngestionHandler :=
  fun item =>
    if String.eqb (QueueItem.video_url item) video
    then {| reports := []; raised := Some cache_full |}
    else quiet_handler item.

(** Two items of equal priority; the handler fails for the first. *)
Definition two_more_videos : QueueService :=
  add_all plain_env [call video 0; call "https://youtu.be/abcdefghijk" 0]
    (__init__ cache_handler tight_limits 0).

End Markup.

(* ================================================================== *)
(** * Further definitions: status report *)
(* ================================================================== *)

Module StatusReport.

Import RateLimit Scheduler.

#[global] Instance QueueStatus_eq_dec : EqDecision QueueStatus.t.
Proof. solve_decision. Defined.

(** The local [counts] dictionary of [get_queue_status]. *)
Record Counts : Type := mkCounts {
  n_queued : Z;
  n_processing : Z;
  n_completed : Z;
  n_failed : Z
}.

(** [counts[item.status] += 1] *)
Definition count_item (counts : Counts) (item : QueueItem.t) : Counts :=
  match QueueItem.status item with
  | QueueStatus.QUEUED =>
      mkCounts (n_queued counts + 1) (n_processing counts)
        (n_completed counts) (n_failed counts)
  | QueueStatus.PROCESSING =>
      mkCounts (n_queued counts) (n_processing counts + 1)
        (n_completed counts) (n_failed counts)
  | QueueStatus.COMPLETED =>
      mkCounts (n_queued counts) (n_processing counts)
        (n_completed counts + 1) (n_failed counts)
  | QueueStatus.FAILED =>
      mkCounts (n_queued counts) (n_processing counts)
        (n_completed counts) (n_failed counts + 1)
  end.

(** The dictionary [get_queue_status] returns. *)
Record Status : Type := mkStatus {
  queued : Z;
  processing : Z;
  completed : Z;
  failed : Z;
  total : Z
}.

(** [get_queue_status]: one pass over the values of the map. *)
Definition get_queue_status (self : QueueService) : Status :=
  let counts :=
    map_fold (fun _ item counts => count_item counts item)
      (mkCounts 0 0 0 0) (_items self) in
  {| queued := n_queued counts;
     processing := n_processing counts;
     completed := n_completed counts;
     failed := n_failed counts;
     total := n_queued counts + n_processing counts
              + n_completed counts + n_failed counts |}.

(** The entries of the map that are in status [s]. *)
Definition with_status (s : QueueStatus.t) (m : gmap string QueueItem.t)
    : gmap string QueueItem.t :=
  filter (fun kv => QueueItem.status (snd kv) = s) m.

(** ** Vocabulary of the further properties *)

Definition percent (n : Z) : Prop := (0 <= n <= 100)%Z.

(** Both percentages of an item are percentages. *)
Definition item_in_range (item : QueueItem.t) : Prop :=
  percent (QueueItem.stage_progress_percent item) /\
  percent (QueueItem.overall_progress_percent item).

(** Every item the scheduler holds, in the map or in the queue, has its
    percentages in range. *)
Definition percentages_in_range (self : QueueService) : Prop :=
  (forall k item, _items self !! k = Some item -> item_in_range item) /\
  Forall (fun e => item_in_range (entry_item e)) (_priority_queue self).

(** Every update the handler reports went through the constructor of
    [ProgressUpdate]. *)
Definition reports_validated (handler : IngestionHandler) : Prop :=
  forall item,
    Forall (fun u => ProgressUpdate.validated u = true)
           (reports (handler item)).

Definition terminal (s : QueueStatus.t) : Prop :=
  s = QueueStatus.COMPLETED \/ s = QueueStatus.FAILED.

(** No entry of the map is PROCESSING. *)
Definition none_processing (self : QueueService) : Prop :=
  forall k item,
    _items self !! k = Some item ->
    QueueItem.status item <> QueueStatus.PROCESSING.

(** [f] is [current] with at most the four fields changed that the
    callback writes. *)
Definition callback_touched (current f : QueueItem.t) : Prop :=
  f = QueueItem.with_state current
        (QueueItem.status current) (QueueItem.started_at current)
        (QueueItem.completed_at current) (QueueItem.current_stage f)
        (QueueItem.stage_progress_percent f)
        (QueueItem.overall_progress_percent f)
        (QueueItem.error_message current) (QueueItem.error_type current)
        (QueueItem.message f).

(** Every entry of a map has its percentages in range. *)
Definition map_in_range (m : gmap string QueueItem.t) : Prop :=
  forall k item, m !! k = Some item -> item_in_range item.

(** The URLs of the calls are already what validation returns. *)
Definition urls_normal (env : Env) (calls : list Enqueue) : Prop :=
  forall c, In c calls -> accepts env c = true ->
            http_url env (url c) = Some (url c).

(** ** Examples *)

Definition bare_host : string := "https://youtu.be".

(** A validation that normalises: a URL without a path gets the path
    [/], as [HttpUrl] does. *)
Definition normalising_env : Env :=
  {| http_url := fun url =>
       if String.eqb url "" then None
       else if String.eqb url bare_host then Some (bare_host +:+ "/")
       else Some url;
     utcnow := utcnow plain_env;
     sleep := exact_sleep |}.

Definition two_calls : list Enqueue :=
  [call video 0; call "https://youtu.be/abcdefghijk" 0].

End StatusReport.

(* ================================================================== *)
(** * The batch command of the CLI *)
(* ================================================================== *)

(** Shallow embedding of the callers of the scheduler in
    [src/sage/cli/commands/ingest_youtube.py]: [_parse_tags],
    [_collect_urls], [ingest_youtube_batch] with its inner
    [_enqueue_and_process], and the handler that
    [_progress_handler_factory] builds.

    A Python [str] is a [string]; the characters that [str.strip]
    removes are those a predicate [isspace] holds of, which stays a
    parameter.  A file is given by the lines that
    [read_text().splitlines()] yields. *)
Module Cli.

Import Strings.Ascii RateLimit Scheduler StatusReport.

(** ** Text *)

(** [s.split(sep)] for a separator of one character: one piece more
    than there are separators. *)
Fixpoint split_on (sep : ascii) (s : list ascii) : list (list ascii) :=
  match s with
  | [] => [[]]
  | c :: s' =>
      if Strings.Ascii.eqb c sep then [] :: split_on sep s'
      else match split_on sep s' with
           | piece :: pieces => (c :: piece) :: pieces
           | [] => [[c]]
           end
  end.

(** [sep.join(pieces)] *)
Fixpoint join_with (sep : ascii) (pieces : list (list ascii)) : list ascii :=
  match pieces with
  | [] => []
  | [piece] => piece
  | piece :: rest => piece ++ sep :: join_with sep rest
  end.

Section Text.

Variable isspace : ascii -> bool.

Fixpoint lstrip (s : list ascii) : list ascii :=
  match s with
  | [] => []
  | c :: s' => if isspace c then lstrip s' else s
  end.

Definition rstrip (s : list ascii) : list ascii := rev (lstrip (rev s)).

(** [s.strip()] *)
Definition strip (s : list ascii) : list ascii := rstrip (lstrip s).

Definition str_strip (s : string) : string :=
  String.string_of_list_ascii (strip (String.list_ascii_of_string s)).

Definition str_split (sep : ascii) (s : string) : list string :=
  map String.string_of_list_ascii (split_on sep (String.list_ascii_of_string s)).

Definition str_join (sep : ascii) (pieces : list string) : string :=
  String.string_of_list_ascii (join_with sep (map String.list_ascii_of_string pieces)).

(** Truth value of a [str]: it is not empty. *)
Definition truthy (s : string) : bool := negb (String.eqb s "").

(** [[x.strip() for x in pieces if x.strip()]] *)
Definition stripped_nonblank (pieces : list string) : list string :=
  map str_strip (List.filter (fun x => truthy (str_strip x)) pieces).

(** [_parse_tags] *)
Definition _parse_tags (raw_tags : option string) : list string :=
  match raw_tags with
  | None => []
  | Some raw =>
      if truthy raw then stripped_nonblank (str_split "," raw) else []
  end.

(** [_collect_urls]; [file_path] is [None] or the lines of the file. *)
Definition _collect_urls (file_path : option (list string))
    (inline_urls : option string) : list string :=
  let urls := [] in
  let urls :=
    match file_path with
    | Some lines => urls ++ stripped_nonblank lines
    | None => urls
    end in
  let urls :=
    match inline_urls with
    | Some raw =>
        if truthy raw then urls ++ stripped_nonblank (str_split "," raw)
        else urls
    | None => urls
    end in
  urls.

(** A string that [_parse_tags] can return: not empty, without a comma,
    without white space at either end. *)
Definition clean (s : string) : Prop :=
  s <> ""%string /\
  ~ In ","%char (String.list_ascii_of_string s) /\
  str_strip s = s.

(** Nothing is left of the string when it is stripped. *)
Definition blank (s : string) : Prop := str_strip s = ""%string.

End Text.

(** ** [ingest_youtube_batch] *)

Module IngestExitCode.

Definition INVALID_INPUT : Z := 1.
Definition VIDEO_UNAVAILABLE : Z := 2.
Definition NETWORK_ERROR : Z := 3.
Definition PROCESSING_ERROR : Z := 4.
Definition STORAGE_ERROR : Z := 5.

End IngestExitCode.

(** The options of the command. *)
Module BatchArgs.

Record t : Type := mk {
  file : option (list string);
  urls : option string;
  remove_timestamps : bool;
  summarize : bool;
  tags : option string;
  summary_length : Z;
  force : bool;
  priority : Z;
  quiet : bool
}.

End BatchArgs.

(** How the command ends, up to the status it reads after
    [asyncio.run]. *)
Inductive BatchResult : Type :=
| Exit (code : Z)
| ValidationError (self : QueueService)
| Ran (popped : list Entry) (self : QueueService) (outcome : Outcome)
      (status : Status).


Section Batch.

Variable isspace : ascii -> bool.
Variable env : Env.

(** The call of [add_to_queue] in the loop of [_enqueue_and_process]. *)
Definition enqueue_call (args : BatchArgs.t) (manual_tags : list string)
    (target : string) : Enqueue :=
  {| url := target;
     priority := BatchArgs.priority args;
     manual_tags := manual_tags;
     summarize := BatchArgs.summarize args;
     summary_length := BatchArgs.summary_length args;
     remove_timestamps := BatchArgs.remove_timestamps args;
     force := BatchArgs.force args |}.

(** [for url in targets: await queue_service.add_to_queue(...)]; the
    boolean is false when a call raised, which ends the loop. *)
Fixpoint enqueue_targets (args : BatchArgs.t) (manual_tags : list string)
    (targets : list string) (self : QueueService) : QueueService * bool :=
  match targets with
  | [] => (self, true)
  | target :: rest =>
      match add_to_queue env (enqueue_call args manual_tags target) self with
      | (Some _, self) => enqueue_targets args manual_tags rest self
      | (None, self) => (self, false)
      end
  end.

(** [_enqueue_and_process] on the service that [get_queue_service]
    holds. *)
Definition _enqueue_and_process (fuel : nat) (args : BatchArgs.t)
    (manual_tags targets : list string) (queue_service : QueueService)
    : BatchResult :=
  match enqueue_targets args manual_tags targets queue_service with
  | (queue_service, false) => ValidationError queue_service
  | (queue_service, true) =>
      let '(popped, queue_service, outcome) :=
        process_queue env fuel queue_service in
      Ran popped queue_service outcome (get_queue_status queue_service)
  end.

Definition ingest_youtube_batch (fuel : nat) (args : BatchArgs.t)
    (queue_service : QueueService) : BatchResult :=
  let manual_tags := _parse_tags isspace (BatchArgs.tags args) in
  let targets :=
    _collect_urls isspace (BatchArgs.file args) (BatchArgs.urls args) in
  match targets with
  | [] => Exit IngestExitCode.INVALID_INPUT
  | _ :: _ =>
      _enqueue_and_process fuel args manual_tags targets queue_service
  end.

End Batch.

(** The entry that a call pushes holds the item the constructor built
    from the arguments of the call. *)
Definition built_from (env : Env) (e : Entry) (c : Enqueue) : Prop :=
  exists queued_at,
    QueueItem.new (http_url env) (url c) (priority c) queued_at
      (manual_tags c) (summarize c) (summary_length c)
      (remove_timestamps c) (force c) = Some (entry_item e).

(** ** The progress bar *)

(** The dictionary [stage_ranges] of the command module. *)
Definition stage_ranges (stage : ProcessingStage.t) : option (Z * Z) :=
  match stage with
  | ProcessingStage.VALIDATING => Some (0, 5)
  | ProcessingStage.DOWNLOADING => Some (5, 25)
  | ProcessingStage.TRANSCRIBING => Some (25, 70)
  | ProcessingStage.SUMMARIZING => Some (70, 90)
  | ProcessingStage.STORING => Some (90, 100)
  | ProcessingStage.COMPLETE => Some (100, 100)
  | ProcessingStage.FAILED => Some (0, 0)
  end%Z.

(** The value [completed] that the handler of
    [_progress_handler_factory] passes to [progress.update]. *)
Definition handler_completed
    (stage_ranges : ProcessingStage.t -> option (Z * Z))
    (update : ProgressUpdate.t) : Q :=
  let '(start, end_) :=
    match stage_ranges (ProgressUpdate.stage update) with
    | Some range => range
    | None => (0, 100)%Z
    end in
  let span := Z.max (end_ - start) 1 in
  let overall :=
    (inject_Z start
     + (inject_Z (ProgressUpdate.stage_progress update) / 100)
       * inject_Z span)%Q in
  Qmin overall 100.

(** ** Examples *)

Definition ascii_space (c : ascii) : bool :=
  Strings.Ascii.eqb c " " || Strings.Ascii.eqb c "009" || Strings.Ascii.eqb c "010"
  || Strings.Ascii.eqb c "013".

Definition batch_of_two : BatchArgs.t :=
  {| BatchArgs.file := Some [" " +:+ video; ""]%string;
     BatchArgs.urls := Some "https://youtu.be/abcdefghijk, ,"%string;
     BatchArgs.remove_timestamps := false;
     BatchArgs.summarize := true;
     BatchArgs.tags := Some " talks ,, ai"%string;
     BatchArgs.summary_length := 300;
     BatchArgs.force := false;
     BatchArgs.priority := 0;
     BatchArgs.quiet := true |}.

(** A validation that wants the scheme spelled out. *)
Definition http_only_env : Env :=
  {| http_url := fun url =>
       if String.prefix "http://" url || String.prefix "https://" url
       then Some url else None;
     utcnow := utcnow plain_env;
     sleep := exact_sleep |}.

Definition batch_with_typo : BatchArgs.t :=
  {| BatchArgs.file := Some [" " +:+ video; ""]%string;
     BatchArgs.urls := Some "https://youtu.be/abcdefghijk,htps://youtu.be/x"%string;
     BatchArgs.remove_timestamps := false;
     BatchArgs.summarize := true;
     BatchArgs.tags := None;
     BatchArgs.summary_length := 300;
     BatchArgs.force := false;
     BatchArgs.priority := 0;
     BatchArgs.quiet := true |}.

End Cli.
(* ================================================================== *)
(** * Properties of the token bucket *)
(* ================================================================== *)

Module RateLimitFacts.

Import RateLimit.

Local Open Scope Q_scope.

(** ** Comparisons *)

Lemma Qle_bool_false (x y : Q) : Qle_bool x y = false <-> y < x.
Proof.
  split; intros H.
  - apply Qnot_le_lt. intros Hle. apply Qle_bool_iff in Hle. congruence.
  - destruct (Qle_bool x y) eqn:E; [|reflexivity].
    apply Qle_bool_iff in E. lra.
Qed.

Lemma Qeq_bool_false (x y : Q) : Qeq_bool x y = false <-> ~ x == y.
Proof.
  split; intros H.
  - intros E. apply Qeq_bool_iff in E. congruence.
  - destruct (Qeq_bool x y) eqn:E; [|reflexivity].
    apply Qeq_bool_iff in E. contradiction.
Qed.

Ltac case_Qle :=
  match goal with
  | |- context [Qle_bool ?x ?y] =>
      let E := fresh "Hcmp" in
      destruct (Qle_bool x y) eqn:E;
      [apply Qle_bool_iff in E | apply Qle_bool_false in E]
  end.

Ltac case_Qeq :=
  match goal with
  | |- context [Qeq_bool ?x ?y] =>
      let E := fresh "Hcmp" in
      destruct (Qeq_bool x y) eqn:E;
      [apply Qeq_bool_iff in E | apply Qeq_bool_false in E]
  end.

(** ** Conversion of integers *)

(** An integer of magnitude up to 2^53 is converted without rounding. *)
Lemma float_of_int_exact (n : Z) :
  exact_int n -> float_of_int n = inject_Z n.
Proof.
  unfold exact_int, float_of_int. intros Hn.
  destruct (Z.ltb_spec (Z.abs n) (2 ^ 53)) as [_|Hge]; [reflexivity|].
  assert (Ha : Z.abs n = (2 ^ 53)%Z) by lia.
  rewrite Ha.
  destruct (Z.abs_spec n) as [[_ E]|[_ E]]; rewrite Ha in E.
  - subst n. reflexivity.
  - assert (En : n = (- 2 ^ 53)%Z) by lia. subst n. reflexivity.
Qed.

(** 2^53 + 3 lies between the doubles 2^53 + 2 and 2^53 + 4 and is
    rounded up, away from the integer. *)
Lemma float_of_int_rounds :
  float_of_int (2 ^ 53 + 3) = inject_Z (2 ^ 53 + 4).
Proof. reflexivity. Qed.

Lemma post_init_tokens (rpm brst : Z) (base maxb now : Q) :
  exact_int brst ->
  _tokens (__post_init__ rpm brst base maxb now) = inject_Z brst.
Proof. intros Hb. simpl. apply float_of_int_exact, Hb. Qed.

Lemma post_init_rate (rpm brst : Z) (base maxb now : Q) :
  exact_int rpm ->
  _refill_rate (__post_init__ rpm brst base maxb now) == inject_Z rpm / 60.
Proof.
  intros Hr. unfold __post_init__; simpl.
  destruct (Z.eqb_spec rpm 0) as [->|_]; [reflexivity|].
  rewrite (float_of_int_exact rpm Hr). reflexivity.
Qed.

Lemma inject_Z_pos (z : Z) : (0 < z)%Z -> 0 < inject_Z z.
Proof. intros H. rewrite (Zlt_Qlt 0 z) in H. exact H. Qed.

Lemma post_init_consistent (rpm brst : Z) (base maxb now : Q) :
  (0 <= brst)%Z -> exact_int brst -> exact_int rpm ->
  consistent (__post_init__ rpm brst base maxb now).
Proof.
  intros Hb Eb Er. split; [split|].
  - rewrite post_init_tokens by exact Eb.
    rewrite (Zle_Qle 0 brst) in Hb. exact Hb.
  - rewrite post_init_tokens by exact Eb. apply Qle_refl.
  - intros Hrpm. rewrite post_init_rate by exact Er.
    simpl in Hrpm. apply inject_Z_pos in Hrpm.
    apply Qlt_shift_div_l; lra.
Qed.

(** ** [_refill] *)

Lemma refill_fields (now : Q) (self : RateLimiter) :
  requests_per_minute (_refill now self) = requests_per_minute self /\
  burst (_refill now self) = burst self /\
  backoff_base_seconds (_refill now self) = backoff_base_seconds self /\
  max_backoff_seconds (_refill now self) = max_backoff_seconds self /\
  _refill_rate (_refill now self) = _refill_rate self.
Proof.
  unfold _refill.
  destruct (Qle_bool _ _ || Qeq_bool _ _); repeat split; reflexivity.
Qed.

Lemma refill_in_range (now : Q) (self : RateLimiter) :
  tokens_in_range self -> 0 <= _refill_rate self ->
  tokens_in_range (_refill now self).
Proof.
  intros [Hlo Hhi] Hrate. unfold _refill.
  case_Qle; simpl; [split; assumption|].
  case_Qeq; simpl; [split; assumption|].
  unfold tokens_in_range; simpl. split.
  - apply Q.min_glb; [lra|]. nra.
  - apply Q.le_min_l.
Qed.

(** A refill at a non-negative rate never lowers the level. *)
Lemma refill_grows (now : Q) (self : RateLimiter) :
  tokens_in_range self -> 0 <= _refill_rate self ->
  _tokens self <= _tokens (_refill now self).
Proof.
  intros [Hlo Hhi] Hrate. unfold _refill.
  case_Qle; simpl; [lra|].
  case_Qeq; simpl; [lra|].
  apply Q.min_glb; [lra|]. nra.
Qed.

Lemma refill_consistent (now : Q) (self : RateLimiter) :
  (0 < requests_per_minute self)%Z ->
  consistent self -> consistent (_refill now self).
Proof.
  intros Hrpm [Hin Hrate].
  destruct (refill_fields now self) as (Er & _ & _ & _ & Erate).
  split.
  - apply refill_in_range; [assumption|]. specialize (Hrate Hrpm). lra.
  - rewrite Er, Erate. exact Hrate.
Qed.

(** What [_refill] computes when the clock has not run backwards: the
    formula of the specification, also in the two cases where the code
    returns early. *)
Lemma refill_level (now : Q) (self : RateLimiter) :
  _tokens self <= inject_Z (burst self) ->
  _last_refill self <= now ->
  _tokens (_refill now self) ==
  Qmin (inject_Z (burst self))
       (_tokens self + (now - _last_refill self) * _refill_rate self).
Proof.
  intros Hhi Hclock. unfold _refill.
  case_Qle; simpl.
  - assert (E : now - _last_refill self == 0) by lra.
    rewrite E, Qmult_0_l, Qplus_0_r.
    symmetry. apply Q.min_r. exact Hhi.
  - case_Qeq; simpl; [|reflexivity].
    rewrite Hcmp0, Qmult_0_r, Qplus_0_r.
    symmetry. apply Q.min_r. exact Hhi.
Qed.

Section Acquire.

Variable sleep : Q -> Q -> Q.

(** ** One iteration of the loop *)

Lemma acquire_loop_admit (fuel attempt : nat) (now : Q) (self : RateLimiter) :
  1 <= _tokens (_refill now self) ->
  acquire_loop sleep (S fuel) attempt now self =
  mkAcquired (set_tokens (_refill now self) (_tokens (_refill now self) - 1))
             now [] true false.
Proof.
  intros H. simpl. apply Qle_bool_iff in H. rewrite H. reflexivity.
Qed.

Lemma acquire_loop_wait (fuel attempt : nat) (now : Q) (self : RateLimiter)
    (d : Q) :
  _tokens (_refill now self) < 1 ->
  suspension (_refill now self) attempt = Some d ->
  acquire_loop sleep (S fuel) attempt now self =
  after_sleep d
    (acquire_loop sleep fuel (S attempt) (sleep now d) (_refill now self)).
Proof.
  intros H Hd. simpl. apply Qle_bool_false in H. rewrite H, Hd. reflexivity.
Qed.

(** At attempt 1024 the iteration raises before it sleeps. *)
Lemma acquire_loop_overflow
    (fuel attempt : nat) (now : Q) (self : RateLimiter) :
  _tokens (_refill now self) < 1 ->
  suspension (_refill now self) attempt = None ->
  acquire_loop sleep (S fuel) attempt now self =
  mkAcquired (_refill now self) now [] false true.
Proof.
  intros H Hd. simpl. apply Qle_bool_false in H. rewrite H, Hd. reflexivity.
Qed.

Lemma backoff_below (self : RateLimiter) (attempt : nat) :
  (attempt < 1024)%nat ->
  backoff self attempt =
  Some (Qmin (max_backoff_seconds self)
             (backoff_base_seconds self * inject_Z (2 ^ Z.of_nat attempt))).
Proof.
  intros H. unfold backoff.
  destruct (Z.leb_spec 1024 (Z.of_nat attempt)); [lia | reflexivity].
Qed.

Lemma backoff_from (self : RateLimiter) (attempt : nat) :
  (1024 <= attempt)%nat -> backoff self attempt = None.
Proof.
  intros H. unfold backoff.
  destruct (Z.leb_spec 1024 (Z.of_nat attempt)); [reflexivity | lia].
Qed.

Lemma suspension_cases (self : RateLimiter) (attempt : nat) :
  ((attempt < 1024)%nat /\
   suspension self attempt =
   Some (Qmax (wait_time self)
              (Qmin (max_backoff_seconds self)
                    (backoff_base_seconds self
                     * inject_Z (2 ^ Z.of_nat attempt))))) \/
  ((1024 <= attempt)%nat /\ suspension self attempt = None).
Proof.
  unfold suspension.
  destruct (Nat.lt_ge_cases attempt 1024) as [H|H].
  - left. split; [exact H|]. rewrite backoff_below by exact H. reflexivity.
  - right. split; [exact H|]. rewrite backoff_from by exact H. reflexivity.
Qed.

(** ** The invariant through [acquire] *)

Lemma acquire_loop_fields (fuel attempt : nat) (now : Q) (self : RateLimiter) :
  let r := acquire_loop sleep fuel attempt now self in
  requests_per_minute (limiter r) = requests_per_minute self /\
  burst (limiter r) = burst self /\
  _refill_rate (limiter r) = _refill_rate self.
Proof.
  revert attempt now self.
  induction fuel as [|fuel IH]; intros attempt now self; simpl.
  - repeat split.
  - destruct (refill_fields now self) as (Er & Eb & _ & _ & Erate).
    destruct (Qle_bool 1 _); simpl.
    + rewrite Er, Eb, Erate. repeat split.
    + destruct (suspension (_refill now self) attempt) as [d|]; simpl.
      * destruct (IH (S attempt) (sleep now d) (_refill now self))
          as (E1 & E2 & E3).
        rewrite E1, E2, E3, Er, Eb, Erate. repeat split.
      * rewrite Er, Eb, Erate. repeat split.
Qed.

Lemma acquire_loop_consistent
    (fuel attempt : nat) (now : Q) (self : RateLimiter) :
  (0 < requests_per_minute self)%Z ->
  consistent self ->
  consistent (limiter (acquire_loop sleep fuel attempt now self)).
Proof.
  revert attempt now self.
  induction fuel as [|fuel IH]; intros attempt now self Hrpm Hc; simpl.
  - exact Hc.
  - pose proof (refill_consistent now self Hrpm Hc) as Hc1.
    destruct (refill_fields now self) as (Er & _).
    case_Qle; simpl.
    + destruct Hc1 as [[Hlo Hhi] Hrate].
      split; [split|]; simpl; try lra. exact Hrate.
    + destruct (suspension (_refill now self) attempt) as [d|]; simpl.
      * apply IH; [rewrite Er; exact Hrpm | exact Hc1].
      * exact Hc1.
Qed.

Lemma acquire_consistent (fuel : nat) (now : Q) (self : RateLimiter) :
  consistent self -> consistent (limiter (acquire sleep fuel now self)).
Proof.
  intros Hc. unfold acquire.
  destruct (Z.leb_spec (requests_per_minute self) 0); simpl.
  - exact Hc.
  - apply acquire_loop_consistent; assumption.
Qed.

Lemma acquire_calls_consistent (calls : list (nat * Q)) (self : RateLimiter) :
  consistent self ->
  consistent (snd (acquire_calls sleep calls self)).
Proof.
  revert self.
  induction calls as [|[fuel now] calls IH]; intros self Hc; simpl.
  - exact Hc.
  - destruct (acquire_calls sleep calls (limiter (acquire sleep fuel now self)))
      as [rs self'] eqn:E.
    simpl. specialize (IH _ (acquire_consistent fuel now self Hc)).
    rewrite E in IH. exact IH.
Qed.


(** Without admission nothing is deducted. *)
Lemma acquire_loop_waiting_level
    (fuel attempt : nat) (now : Q) (self : RateLimiter) :
  (0 < requests_per_minute self)%Z ->
  consistent self ->
  admitted (acquire_loop sleep fuel attempt now self) = false ->
  _tokens self <= _tokens (limiter (acquire_loop sleep fuel attempt now self)).
Proof.
  revert attempt now self.
  induction fuel as [|fuel IH]; intros attempt now self Hrpm Hc; simpl.
  - intros _. apply Qle_refl.
  - pose proof (refill_consistent now self Hrpm Hc) as Hc1.
    destruct (refill_fields now self) as (Er & _).
    assert (Hg : _tokens self <= _tokens (_refill now self)).
    { destruct Hc as [Hin Hrate]. apply refill_grows; [exact Hin|].
      specialize (Hrate Hrpm). lra. }
    case_Qle; simpl; [discriminate|].
    destruct (suspension (_refill now self) attempt) as [d|]; simpl.
    + intros Hw. eapply Qle_trans; [exact Hg|].
      apply IH; [rewrite Er; exact Hrpm | exact Hc1 | exact Hw].
    + intros _. exact Hg.
Qed.

(** ** Every suspension follows the formula *)

Lemma suspension_formula (self : RateLimiter) (attempt : nat) :
  0 < _refill_rate self ->
  (attempt < 1024)%nat ->
  suspension self attempt =
  Some (Qmax ((1 - _tokens self) / _refill_rate self)
             (Qmin (max_backoff_seconds self)
                   (backoff_base_seconds self
                    * inject_Z (2 ^ Z.of_nat attempt)))).
Proof.
  intros Hrate Ha. unfold suspension. rewrite backoff_below by exact Ha.
  unfold wait_time. case_Qeq; [lra | reflexivity].
Qed.


(** ** A full bucket admits at once *)

Lemma acquire_at_once (fuel : nat) (now : Q) (self : RateLimiter) :
  consistent self ->
  1 <= _tokens self ->
  let r := acquire sleep (S fuel) now self in
  admitted r = true /\ slept r = [] /\ resumed_at r = now /\
  _tokens self - 1 <= _tokens (limiter r).
Proof.
  intros Hc Hlevel. unfold acquire.
  destruct (Z.leb_spec (requests_per_minute self) 0) as [Hrpm|Hrpm]; simpl.
  - repeat split. lra.
  - assert (Hg : _tokens self <= _tokens (_refill now self)).
    { destruct Hc as [Hin Hrate]. apply refill_grows; [exact Hin|].
      specialize (Hrate Hrpm). lra. }
    case_Qle; simpl; [|lra].
    repeat split. lra.
Qed.

Lemma acquire_calls_at_once (calls : list (nat * Q)) (self : RateLimiter) :
  consistent self ->
  Forall (fun c => (1 <= fst c)%nat) calls ->
  inject_Z (Z.of_nat (length calls)) <= _tokens self ->
  Forall (fun r => admitted r = true /\ slept r = [])
         (fst (acquire_calls sleep calls self)).
Proof.
  revert self.
  induction calls as [|[fuel now] calls IH]; intros self Hc Hfuel Hlevel;
    simpl.
  - constructor.
  - apply Forall_cons_iff in Hfuel. destruct Hfuel as [Hf Hfuel].
    simpl in Hf. destruct fuel as [|fuel]; [lia|].
    assert (Hone : 1 <= _tokens self).
    { simpl length in Hlevel. rewrite Nat2Z.inj_succ in Hlevel.
      unfold Z.succ in Hlevel. rewrite inject_Z_plus in Hlevel.
      pose proof (Nat2Z.is_nonneg (length calls)) as Hnn.
      rewrite (Zle_Qle 0) in Hnn. simpl inject_Z at 2 in Hlevel.
      change (inject_Z 0) with 0 in Hnn. change (inject_Z 1) with 1 in Hlevel.
      lra. }
    destruct (acquire_at_once fuel now self Hc Hone) as (Ha & Hs & _ & Hl).
    pose proof (acquire_consistent (S fuel) now self Hc) as Hc1.
    destruct (acquire_calls sleep calls
                (limiter (acquire sleep (S fuel) now self))) as [rs self']
      eqn:E.
    simpl. constructor; [split; assumption|].
    specialize (IH _ Hc1 Hfuel). rewrite E in IH. apply IH.
    simpl length in Hlevel. rewrite Nat2Z.inj_succ in Hlevel.
    unfold Z.succ in Hlevel. rewrite inject_Z_plus in Hlevel.
    change (inject_Z 1) with 1 in Hlevel. lra.
Qed.

(** ** With a punctual scheduler the second attempt is admitted *)

Lemma refill_last (now : Q) (self : RateLimiter) :
  _last_refill self <= now -> _last_refill (_refill now self) <= now.
Proof.
  intros H. unfold _refill.
  destruct (Qle_bool _ _ || Qeq_bool _ _); simpl; lra.
Qed.

Lemma refill_after_wait (now later : Q) (self : RateLimiter) :
  0 < _refill_rate self ->
  1 <= inject_Z (burst self) ->
  _tokens self < 1 ->
  _last_refill self + (1 - _tokens self) / _refill_rate self <= later ->
  1 <= _tokens (_refill later self).
Proof.
  intros Hrate Hburst Hlevel Hlater.
  assert (Hw : 0 < (1 - _tokens self) / _refill_rate self).
  { apply Qlt_shift_div_l; lra. }
  assert (Hdiv : (1 - _tokens self) / _refill_rate self * _refill_rate self
                 == 1 - _tokens self) by (field; lra).
  unfold _refill.
  case_Qle; simpl; [lra|].
  case_Qeq; simpl; [lra|].
  apply Q.min_glb; [exact Hburst|]. nra.
Qed.

Lemma acquire_loop_punctual
    (fuel attempt : nat) (now : Q) (self : RateLimiter) :
  punctual sleep ->
  (attempt < 1024)%nat ->
  (0 < requests_per_minute self)%Z ->
  consistent self ->
  (1 <= burst self)%Z ->
  _last_refill self <= now ->
  let r := acquire_loop sleep (S (S fuel)) attempt now self in
  admitted r = true /\ now <= resumed_at r /\
  _last_refill (limiter r) <= resumed_at r.
Proof.
  intros Hp Hatt Hrpm Hc Hburst Hlast.
  pose proof (refill_consistent now self Hrpm Hc) as [Hin1 Hrate1].
  destruct (refill_fields now self) as (Er & Eb & _ & _ & Erate).
  pose proof (refill_last now self Hlast) as Hlast1.
  rewrite Er in Hrate1. specialize (Hrate1 Hrpm).
  cbv zeta.
  destruct (Qlt_le_dec (_tokens (_refill now self)) 1) as [Hlow|Hfull].
  - set (self1 := _refill now self) in *.
    pose proof (suspension_formula self1 attempt Hrate1 Hatt) as Hs.
    set (d := Qmax ((1 - _tokens self1) / _refill_rate self1)
                   (Qmin (max_backoff_seconds self1)
                         (backoff_base_seconds self1
                          * inject_Z (2 ^ Z.of_nat attempt)))) in *.
    rewrite (acquire_loop_wait _ _ _ _ d Hlow Hs).
    destruct (Hp now d) as [Hmono Hlate].
    assert (Hd : (1 - _tokens self1) / _refill_rate self1 <= d)
      by apply Q.le_max_l.
    assert (Hready : 1 <= _tokens (_refill (sleep now d) self1)).
    { apply refill_after_wait; try assumption.
      - rewrite Eb. rewrite (Zle_Qle 1) in Hburst. exact Hburst.
      - lra. }
    rewrite acquire_loop_admit by exact Hready. simpl.
    repeat split; try lra.
    apply refill_last. fold self1. lra.
  - rewrite acquire_loop_admit by exact Hfull. simpl.
    repeat split; lra.
Qed.

Lemma acquire_punctual (fuel : nat) (now : Q) (self : RateLimiter) :
  punctual sleep ->
  consistent self ->
  ((0 < requests_per_minute self)%Z -> (1 <= burst self)%Z) ->
  _last_refill self <= now ->
  let r := acquire sleep (S (S fuel)) now self in
  admitted r = true /\ now <= resumed_at r /\
  _last_refill (limiter r) <= resumed_at r.
Proof.
  intros Hp Hc Hburst Hlast. unfold acquire.
  destruct (Z.leb_spec (requests_per_minute self) 0) as [Hrpm|Hrpm].
  - simpl. repeat split; lra.
  - apply acquire_loop_punctual; auto. lia.
Qed.


(** ** The claims about the limiter *)


(** C6, as amended.  For a limiter constructed with a burst from 0 to
    2^53 and a requests_per_minute of magnitude up to 2^53 (integers
    that a double holds exactly) the level starts equal to burst, the
    refill rate is requests_per_minute / 60, and after any sequence of
    [acquire] calls the level is within [0, burst]; a refill at a clock
    reading not before the last one sets the level to
    min(burst, tokens + elapsed * refill_rate); an iteration deducts one
    token exactly when it finds a level of at least 1, and a call that
    is not admitted deducts nothing. *)
Theorem token_level_in_range (rpm brst : Z) (base maxb now0 : Q) :
  (0 <= brst)%Z -> exact_int brst -> exact_int rpm ->
  let fresh := __post_init__ rpm brst base maxb now0 in
  _tokens fresh = inject_Z brst /\
  _refill_rate fresh == inject_Z rpm / 60 /\
  forall calls : list (nat * Q),
    let self := snd (acquire_calls sleep calls fresh) in
    tokens_in_range self /\
    (forall now,
       _last_refill self <= now ->
       _tokens (_refill now self) ==
       Qmin (inject_Z (burst self))
            (_tokens self + (now - _last_refill self) * _refill_rate self)) /\
    (forall fuel attempt now,
       1 <= _tokens (_refill now self) ->
       acquire_loop sleep (S fuel) attempt now self =
       mkAcquired
         (set_tokens (_refill now self) (_tokens (_refill now self) - 1))
         now [] true false) /\
    (forall fuel now,
       admitted (acquire sleep fuel now self) = false ->
       _tokens self <= _tokens (limiter (acquire sleep fuel now self))).
Proof.
  intros Hb Eb Er fresh.
  split; [apply post_init_tokens, Eb|].
  split; [apply post_init_rate, Er|].
  intros calls self.
  assert (Hc : consistent self).
  { apply acquire_calls_consistent, post_init_consistent; assumption. }
  split; [exact (proj1 Hc)|]. split; [|split].
  - intros now Hclock. apply refill_level; [exact (proj2 (proj1 Hc))|exact Hclock].
  - intros fuel attempt now. apply acquire_loop_admit.
  - intros fuel now. unfold acquire.
    destruct (Z.leb_spec (requests_per_minute self) 0); simpl.
    + discriminate.
    + apply acquire_loop_waiting_level; assumption.
Qed.

(** C7.  A limiter whose requests_per_minute is <= 0 admits every call of
    [acquire] at once: no sleep, the clock and the limiter (so the token
    level) as they were; this for any fuel, and for any sequence of
    calls. *)
Theorem acquire_disabled (self : RateLimiter) :
  (requests_per_minute self <= 0)%Z ->
  (forall fuel now,
     acquire sleep fuel now self = mkAcquired self now [] true false) /\
  (forall calls,
     snd (acquire_calls sleep calls self) = self /\
     Forall (fun r => admitted r = true /\ slept r = [] /\ limiter r = self)
            (fst (acquire_calls sleep calls self))).
Proof.
  intros Hrpm.
  assert (Hone : forall fuel now,
            acquire sleep fuel now self = mkAcquired self now [] true false).
  { intros fuel now. unfold acquire.
    destruct (Z.leb_spec (requests_per_minute self) 0); [reflexivity|lia]. }
  split; [exact Hone|].
  induction calls as [|[fuel now] calls [IHs IHr]]; simpl.
  - split; [reflexivity|constructor].
  - rewrite Hone. simpl.
    destruct (acquire_calls sleep calls self) as [rs self'] eqn:E.
    simpl in *. split; [exact IHs|].
    constructor; [repeat split|exact IHr].
Qed.

End Acquire.

Lemma exact_sleep_punctual : punctual exact_sleep.
Proof.
  intros now d. unfold exact_sleep.
  pose proof (Q.le_max_l 0 d). pose proof (Q.le_max_r 0 d).
  split; lra.
Qed.

Lemma exact_int_small (n : Z) : (Z.abs n <= 1000)%Z -> exact_int n.
Proof.
  unfold exact_int. intros H. eapply Z.le_trans; [exact H|].
  vm_compute. discriminate.
Qed.

(** ** Concrete limiters *)

(** The second of two calls at time 0 sleeps for max(1/1, min(5, 0.5)). *)
Example second_call_sleeps_one_second :
  let first := acquire exact_sleep 3 0 one_per_second in
  let second := acquire exact_sleep 3 0 (limiter first) in
  slept first = [] /\ admitted first = true /\
  Forall2 Qeq (slept second) [1] /\ admitted second = true /\
  resumed_at second == 1.
Proof.
  cbv zeta. repeat split; try (vm_compute; reflexivity).
  constructor; [vm_compute; reflexivity | constructor].
Qed.



Lemma token_level_in_range_witness :
  (0 <= 2)%Z /\ exact_int 2 /\ exact_int 60 /\
  tokens_in_range
    (snd (acquire_calls exact_sleep [(2%nat, 0); (2%nat, 0); (2%nat, 1 # 3)]
            (__post_init__ 60 2 (1 # 2) 5 0))).
Proof.
  assert (H : (0 <= 2)%Z) by lia.
  assert (H2 : exact_int 2) by (apply exact_int_small; simpl; lia).
  assert (H60 : exact_int 60) by (apply exact_int_small; simpl; lia).
  split; [exact H|]. split; [exact H2|]. split; [exact H60|].
  exact (proj1 (proj2 (proj2
           (token_level_in_range exact_sleep 60 2 (1 # 2) 5 0 H H2 H60))
           [(2%nat, 0); (2%nat, 0); (2%nat, 1 # 3)])).
Defined.

(** C6 as stated fails: a limiter with a negative burst starts below
    zero and stays there. *)
Lemma token_level_negative_burst :
  ~ tokens_in_range
      (snd (acquire_calls exact_sleep [(2%nat, 1)]
              (__post_init__ 60 (-1) (1 # 2) 5 0))).
Proof. intros [Hlo _]. vm_compute in Hlo. apply Hlo. reflexivity. Qed.

(** Nor does it hold for every burst that is not negative: 2^53 + 3 is
    converted to the double 2^53 + 4, above the burst. *)
Lemma token_level_above_rounded_burst :
  ~ tokens_in_range (__post_init__ 60 (2 ^ 53 + 3) (1 # 2) 5 0).
Proof. intros [_ Hhi]. vm_compute in Hhi. apply Hhi. reflexivity. Qed.

Lemma acquire_disabled_witness :
  (requests_per_minute (__post_init__ 0 5 (1 # 2) 5 0) <= 0)%Z /\
  forall fuel now,
    acquire exact_sleep fuel now (__post_init__ 0 5 (1 # 2) 5 0) =
    mkAcquired (__post_init__ 0 5 (1 # 2) 5 0) now [] true false.
Proof.
  assert (H : (requests_per_minute (__post_init__ 0 5 (1 # 2) 5 0) <= 0)%Z)
    by (simpl; lia).
  split; [exact H|].
  exact (proj1 (acquire_disabled exact_sleep _ H)).
Defined.

End RateLimitFacts.

(* ================================================================== *)
(** * Properties of the scheduler *)
(* ================================================================== *)

Module SchedulerFacts.

Import RateLimit RateLimitFacts Scheduler.

(** ** The priority queue *)

Lemma entry_ltb_spec (a b : Entry) :
  entry_ltb a b = true <->
  (fst (entry_key a) < fst (entry_key b))%Z \/
  (fst (entry_key a) = fst (entry_key b) /\
   (entry_sequence a < entry_sequence b)%Z).
Proof.
  destruct a as [[ka sa] ia], b as [[kb sb] ib].
  unfold entry_ltb, entry_key, entry_sequence; simpl.
  rewrite orb_true_iff, andb_true_iff, !Z.ltb_lt, Z.eqb_eq. reflexivity.
Qed.

Lemma entry_le_spec (a b : Entry) :
  entry_le a b <->
  (fst (entry_key a) < fst (entry_key b))%Z \/
  (fst (entry_key a) = fst (entry_key b) /\
   (entry_sequence a <= entry_sequence b)%Z).
Proof.
  unfold entry_le. rewrite <- not_true_iff_false, entry_ltb_spec. lia.
Qed.

Lemma entry_le_trans (a b c : Entry) :
  entry_le a b -> entry_le b c -> entry_le a c.
Proof. rewrite !entry_le_spec. lia. Qed.

Lemma entry_ltb_le (a b : Entry) : entry_ltb a b = true -> entry_le a b.
Proof. rewrite entry_le_spec, entry_ltb_spec. lia. Qed.

Lemma pq_lowest_perm (e : Entry) (q : list Entry) :
  Permutation (e :: q) (fst (pq_lowest e q) :: snd (pq_lowest e q)).
Proof.
  revert e. induction q as [|x q IH]; intros e; simpl.
  - reflexivity.
  - specialize (IH x). destruct (pq_lowest x q) as [m rest]; simpl in *.
    destruct (entry_ltb m e); simpl.
    + rewrite IH. apply perm_swap.
    + reflexivity.
Qed.

Lemma pq_lowest_least (e : Entry) (q : list Entry) :
  Forall (entry_le (fst (pq_lowest e q))) (e :: q).
Proof.
  revert e. induction q as [|x q IH]; intros e; simpl.
  - constructor; [|constructor]. apply entry_le_spec. lia.
  - specialize (IH x). destruct (pq_lowest x q) as [m rest]; simpl in *.
    destruct (entry_ltb m e) eqn:E; simpl.
    + constructor; [apply entry_ltb_le, E | exact IH].
    + constructor; [apply entry_le_spec; lia|].
      eapply Forall_impl; [exact IH|].
      intros y Hy. eapply entry_le_trans; [exact E | exact Hy].
Qed.

Lemma pq_get_perm (q rest : list Entry) (e : Entry) :
  pq_get q = Some (e, rest) -> Permutation q (e :: rest).
Proof.
  destruct q as [|x q]; simpl; [discriminate|].
  intros [= H]. pose proof (pq_lowest_perm x q) as P.
  rewrite H in P. exact P.
Qed.

Lemma pq_get_least (q rest : list Entry) (e : Entry) :
  pq_get q = Some (e, rest) -> Forall (entry_le e) q.
Proof.
  destruct q as [|x q]; simpl; [discriminate|].
  intros [= H]. pose proof (pq_lowest_least x q) as P.
  rewrite H in P. exact P.
Qed.

Lemma pq_get_length (q rest : list Entry) (e : Entry) :
  pq_get q = Some (e, rest) -> length q = S (length rest).
Proof. intros H. apply pq_get_perm, Permutation_length in H. exact H. Qed.

Lemma pq_get_none (q : list Entry) : pq_get q = None -> q = [].
Proof. destruct q; [reflexivity|discriminate]. Qed.

Lemma pq_drain_incl (n : nat) (q : list Entry) (x : Entry) :
  In x (pq_drain n q) -> In x q.
Proof.
  revert q. induction n as [|n IH]; intros q; simpl; [tauto|].
  destruct (pq_get q) as [[e rest]|] eqn:E; simpl; [|tauto].
  pose proof (pq_get_perm _ _ _ E) as P.
  intros [<-|Hx].
  - eapply Permutation_in; [symmetry; exact P | left; reflexivity].
  - eapply Permutation_in; [symmetry; exact P | right; apply IH, Hx].
Qed.

Lemma pq_drain_perm (n : nat) (q : list Entry) :
  (length q <= n)%nat -> Permutation (pq_drain n q) q.
Proof.
  revert q. induction n as [|n IH]; intros q Hn; simpl.
  - destruct q; [reflexivity|simpl in Hn; lia].
  - destruct (pq_get q) as [[e rest]|] eqn:E.
    + pose proof (pq_get_perm _ _ _ E) as P.
      pose proof (pq_get_length _ _ _ E) as L.
      rewrite P. constructor. apply IH. lia.
    + apply pq_get_none in E. subst q. reflexivity.
Qed.

Lemma pq_drain_sorted (n : nat) (q : list Entry) :
  StronglySorted entry_le (pq_drain n q).
Proof.
  revert q. induction n as [|n IH]; intros q; simpl; [constructor|].
  destruct (pq_get q) as [[e rest]|] eqn:E; [|constructor].
  constructor; [apply IH|].
  pose proof (pq_get_perm _ _ _ E) as P.
  pose proof (pq_get_least _ _ _ E) as L.
  apply List.Forall_forall. intros x Hx. apply pq_drain_incl in Hx.
  rewrite List.Forall_forall in L. apply L.
  eapply Permutation_in; [symmetry; exact P | right; exact Hx].
Qed.

Lemma pq_drain_prefix (k : nat) (q : list Entry) :
  pq_drain k q = firstn k (pq_drain (length q) q).
Proof.
  revert q. induction k as [|k IH]; intros q; [reflexivity|].
  destruct q as [|x q]; [reflexivity|].
  change (length (x :: q)) with (S (length q)).
  simpl pq_drain. destruct (pq_lowest x q) as [e rest] eqn:E.
  assert (L : length (x :: q) = S (length rest)).
  { apply (pq_get_length _ _ e). simpl. rewrite E. reflexivity. }
  simpl in L. simpl firstn. f_equal.
  rewrite IH. replace (length q) with (length rest) by lia. reflexivity.
Qed.

Lemma pq_drain_enough (n : nat) (q : list Entry) :
  (length q <= n)%nat -> pq_drain n q = pq_drain (length q) q.
Proof.
  revert q. induction n as [|n IH]; intros q Hn.
  - destruct q; [reflexivity|simpl in Hn; lia].
  - destruct q as [|x q]; [reflexivity|].
    change (length (x :: q)) with (S (length q)).
    simpl pq_drain. destruct (pq_lowest x q) as [e rest] eqn:E.
    assert (L : length (x :: q) = S (length rest)).
    { apply (pq_get_length _ _ e). simpl. rewrite E. reflexivity. }
    simpl in L, Hn. f_equal.
    rewrite IH by lia. replace (length q) with (length rest) by lia.
    reflexivity.
Qed.

(** Sorted by key, with distinct sequence numbers and keys that negate
    the priority: served in priority order, then in sequence order. *)
Lemma sorted_runs_before (l : list Entry) :
  StronglySorted entry_le l ->
  NoDup (map entry_sequence l) ->
  Forall (fun e => fst (entry_key e)
                   = (- QueueItem.priority (entry_item e))%Z) l ->
  StronglySorted runs_before l.
Proof.
  induction 1 as [|a l Hs IH Ha]; intros Hnd Hk; [constructor|].
  simpl in Hnd. apply NoDup_cons in Hnd. destruct Hnd as [Hnotin Hnd].
  apply Forall_cons_iff in Hk. destruct Hk as [Hka Hk].
  constructor; [apply IH; assumption|].
  rewrite List.Forall_forall in Ha, Hk. apply List.Forall_forall.
  intros b Hb. specialize (Ha b Hb). specialize (Hk b Hb).
  apply entry_le_spec in Ha.
  assert (entry_sequence a <> entry_sequence b).
  { intros E. apply Hnotin. rewrite E. apply list_elem_of_In, in_map, Hb. }
  unfold runs_before. lia.
Qed.

Section WithEnv.

Variable env : Env.

(** ** What each step leaves alone *)

Lemma untouched_refl (a : QueueService) : untouched a a.
Proof. repeat split. Qed.

Lemma untouched_trans (a b c : QueueService) :
  untouched a b -> untouched b c -> untouched a c.
Proof.
  intros (H1 & H2 & H3) (K1 & K2 & K3).
  repeat split; congruence.
Qed.

Lemma apply_rate_limit_frame (fuel : nat) (name : string)
    (self : QueueService) :
  let self' := fst (apply_rate_limit env fuel name self) in
  untouched self self' /\ _items self' = _items self /\
  utc_reads self' = utc_reads self /\ _console self' = _console self.
Proof.
  unfold apply_rate_limit.
  destruct (_rate_limiters self !! name); simpl; repeat split.
Qed.

Lemma throttle_frame (fuel : nat) (services : list string)
    (self : QueueService) :
  let self' := fst (throttle env fuel services self) in
  untouched self self' /\ _items self' = _items self /\
  utc_reads self' = utc_reads self /\ _console self' = _console self.
Proof.
  revert self. induction services as [|name services IH]; intros self; simpl.
  - repeat split.
  - pose proof (apply_rate_limit_frame fuel name self) as (U & I & T & C).
    destruct (apply_rate_limit env fuel name self) as [self1 out]; simpl in *.
    destruct out as [| |exc]; simpl;
      [|split; [exact U|]; repeat split; assumption ..].
    destruct (IH self1) as (U' & I' & T' & C').
    split; [eapply untouched_trans; eassumption|].
    repeat split; congruence.
Qed.

Lemma progress_callback_frame (u : string) (self : QueueService)
    (update : ProgressUpdate.t) :
  let self' := _progress_callback_for u self update in
  untouched self self' /\
  _rate_limiters self' = _rate_limiters self /\
  loop_time self' = loop_time self /\
  utc_reads self' = utc_reads self /\
  _console self' = _console self /\
  (forall k, k <> u -> _items self' !! k = _items self !! k).
Proof.
  unfold _progress_callback_for.
  destruct (_items self !! u); simpl; repeat split.
  intros k Hk. apply lookup_insert_ne. congruence.
Qed.

Lemma run_reports_frame (u : string) (run : HandlerRun)
    (self : QueueService) :
  let self' := run_reports u run self in
  untouched self self' /\
  _rate_limiters self' = _rate_limiters self /\
  loop_time self' = loop_time self /\
  utc_reads self' = utc_reads self /\
  _console self' = _console self /\
  (forall k, k <> u -> _items self' !! k = _items self !! k).
Proof.
  unfold run_reports. generalize (reports run) as updates.
  intros updates. revert self.
  induction updates as [|update updates IH]; intros self; simpl.
  - repeat split.
  - destruct (IH (_progress_callback_for u self update))
      as (U' & L' & T' & R' & C' & I').
    destruct (progress_callback_frame u self update)
      as (U & L & T & R & C & I).
    split; [eapply untouched_trans; eassumption|].
    repeat split; try congruence.
    intros k Hk. rewrite I' by exact Hk. apply I, Hk.
Qed.

Lemma begin_item_frame (fuel : nat) (item : QueueItem.t)
    (self : QueueService) :
  let self' := snd (fst (begin_item env fuel item self)) in
  untouched self self' /\
  utc_reads self' = S (utc_reads self) /\
  _console self' = _console self /\
  fst (fst (begin_item env fuel item self))
    = in_progress_copy item (utcnow env (utc_reads self)) /\
  _items self'
    = <[QueueItem.video_url item :=
          in_progress_copy item (utcnow env (utc_reads self))]>
        (_items self).
Proof.
  unfold begin_item, datetime_now.
  match goal with
  | |- context [throttle env fuel ?svcs ?s] =>
      pose proof (throttle_frame fuel svcs s) as (U & I & T & C);
      destruct (throttle env fuel svcs s) as [self1 ok]
  end.
  simpl in *. destruct U as (U1 & U2 & U3).
  repeat split; assumption.
Qed.

Lemma except_frame (item in_progress : QueueItem.t) (exc : BaseException)
    (self : QueueService) :
  let self' := fst (except_Exception env item in_progress exc self) in
  untouched self self' /\
  _rate_limiters self' = _rate_limiters self /\
  loop_time self' = loop_time self /\
  (forall k, k <> QueueItem.video_url item ->
             _items self' !! k = _items self !! k).
Proof.
  unfold except_Exception, datetime_now.
  destruct (isinstance_Exception exc);
    simpl; repeat split; try (intros k Hk; apply lookup_insert_ne; congruence).
Qed.

Lemma finish_item_frame (item in_progress : QueueItem.t) (run : HandlerRun)
    (self : QueueService) :
  let self' := fst (finish_item env item in_progress run self) in
  untouched self self' /\
  _rate_limiters self' = _rate_limiters self /\
  loop_time self' = loop_time self /\
  (forall k, k <> QueueItem.video_url item ->
             _items self' !! k = _items self !! k).
Proof.
  unfold finish_item.
  destruct (raised run) as [exc|]; [apply except_frame|].
  unfold datetime_now.
  simpl; repeat split; try (intros k Hk; apply lookup_insert_ne; congruence).
Qed.

Lemma process_item_frame (fuel : nat) (item : QueueItem.t)
    (self : QueueService) :
  let self' := fst (_process_item env fuel item self) in
  untouched self self' /\
  (forall k, k <> QueueItem.video_url item ->
             _items self' !! k = _items self !! k).
Proof.
  unfold _process_item.
  pose proof (begin_item_frame fuel item self) as (U & _ & _ & _ & I).
  destruct (begin_item env fuel item self) as [[in_progress self1] out].
  simpl in U, I. destruct out as [| |exc]; simpl.
  - set (run := _ingestion_handler self1 in_progress).
    pose proof (run_reports_frame (QueueItem.video_url item) run self1)
      as (U1 & _ & _ & _ & _ & I1).
    pose proof (finish_item_frame item in_progress run
                  (run_reports (QueueItem.video_url item) run self1))
      as (U2 & _ & _ & I2).
    split.
    + eapply untouched_trans; [exact U|].
      eapply untouched_trans; eassumption.
    + intros k Hk. rewrite I2, I1, I by exact Hk.
      apply lookup_insert_ne. congruence.
  - split; [exact U|]. intros k Hk. rewrite I.
    apply lookup_insert_ne. congruence.
  - pose proof (except_frame item in_progress exc self1) as (U2 & _ & _ & I2).
    split; [eapply untouched_trans; eassumption|].
    intros k Hk. rewrite I2, I by exact Hk.
    apply lookup_insert_ne. congruence.
Qed.

(** ** Readiness of the limiters *)

Lemma acquire_fields (fuel : nat) (now : Q) (lim : RateLimiter) :
  requests_per_minute (limiter (acquire (sleep env) fuel now lim))
    = requests_per_minute lim /\
  burst (limiter (acquire (sleep env) fuel now lim)) = burst lim.
Proof.
  unfold acquire.
  destruct (requests_per_minute lim <=? 0)%Z; simpl; [split; reflexivity|].
  destruct (acquire_loop_fields (sleep env) fuel 0 now lim) as (E1 & E2 & _).
  split; assumption.
Qed.

Lemma limiter_ready_later (now later : Q) (lim : RateLimiter) :
  (now <= later)%Q -> limiter_ready now lim -> limiter_ready later lim.
Proof.
  intros Hle (Hc & Hb & Hl). repeat split; try assumption.
  - apply Hc.
  - apply Hc.
  - apply Hc.
  - eapply Qle_trans; eassumption.
Qed.

Lemma apply_rate_limit_ready (fuel : nat) (name : string)
    (self : QueueService) :
  punctual (sleep env) -> limiters_ready self ->
  let r := apply_rate_limit env (S (S fuel)) name self in
  snd r = Returned /\ limiters_ready (fst r) /\
  (loop_time self <= loop_time (fst r))%Q.
Proof.
  intros Hp Hr. unfold apply_rate_limit.
  destruct (_rate_limiters self !! name) as [lim|] eqn:E; simpl.
  - destruct (Hr name lim E) as (Hc & Hb & Hl).
    destruct (acquire_punctual (sleep env) fuel (loop_time self) lim
                Hp Hc Hb Hl) as (Ha & Hmono & Hlast).
    destruct (acquire_fields (S (S fuel)) (loop_time self) lim) as [Er Eb].
    split; [unfold acquire_outcome; rewrite Ha; reflexivity|].
    split; [|exact Hmono].
    intros name' lim'. simpl.
    destruct (decide (name = name')) as [<-|Hne].
    + rewrite lookup_insert_eq. intros [= <-].
      split; [apply acquire_consistent, Hc|].
      split; [rewrite Er, Eb; exact Hb | exact Hlast].
    + rewrite lookup_insert_ne by exact Hne. intros Hl'.
      eapply limiter_ready_later; [exact Hmono|]. eapply Hr, Hl'.
  - split; [reflexivity|]. split; [exact Hr | apply Qle_refl].
Qed.

Lemma throttle_ready (fuel : nat) (services : list string)
    (self : QueueService) :
  punctual (sleep env) -> limiters_ready self ->
  let r := throttle env (S (S fuel)) services self in
  snd r = Returned /\ limiters_ready (fst r).
Proof.
  intros Hp. revert self.
  induction services as [|name services IH]; intros self Hr.
  - split; [reflexivity | exact Hr].
  - cbv zeta. simpl throttle.
    destruct (apply_rate_limit_ready fuel name self Hp Hr) as (Ha & Hr1 & _).
    destruct (apply_rate_limit env (S (S fuel)) name self) as [self1 ok].
    simpl in Ha, Hr1. subst ok. apply IH, Hr1.
Qed.

Lemma limiters_ready_same (a b : QueueService) :
  _rate_limiters b = _rate_limiters a -> loop_time b = loop_time a ->
  limiters_ready a -> limiters_ready b.
Proof.
  intros El Et Hr name lim Hl. rewrite El in Hl. rewrite Et.
  apply (Hr name lim Hl).
Qed.

Lemma ready_admits (fuel : nat) (item : QueueItem.t) (self : QueueService) :
  punctual (sleep env) -> limiters_ready self -> (2 <= fuel)%nat ->
  admits env fuel item self /\
  limiters_ready (snd (fst (begin_item env fuel item self))).
Proof.
  intros Hp Hr Hfuel. unfold admits, begin_item, datetime_now.
  destruct fuel as [|[|fuel]]; try lia.
  match goal with
  | |- context [throttle env _ ?svcs ?s] =>
      assert (Hr0 : limiters_ready s)
        by (eapply limiters_ready_same; [| |exact Hr]; reflexivity);
      pose proof (throttle_ready fuel svcs s Hp Hr0) as (Ha & Hr1);
      destruct (throttle env (S (S fuel)) svcs s) as [self1 ok]
  end.
  simpl in *. split; assumption.
Qed.

(** ** [_process_item] once the handler is reached *)

Lemma process_item_admitted (fuel : nat) (item : QueueItem.t)
    (self : QueueService) :
  admits env fuel item self ->
  let in_progress := in_progress_copy item (utcnow env (utc_reads self)) in
  let self1 := snd (fst (begin_item env fuel item self)) in
  let run := _ingestion_handler self in_progress in
  _process_item env fuel item self =
  finish_item env item in_progress run
    (run_reports (QueueItem.video_url item) run self1).
Proof.
  unfold admits, _process_item. intros Ha.
  pose proof (begin_item_frame fuel item self) as ((Uh & _) & _ & _ & Ei & _).
  destruct (begin_item env fuel item self) as [[in_progress self1] ok].
  simpl in *. subst ok in_progress. rewrite Uh. reflexivity.
Qed.

Lemma process_item_waiting (fuel : nat) (item : QueueItem.t)
    (self : QueueService) :
  snd (begin_item env fuel item self) = Waiting ->
  _process_item env fuel item self
  = (snd (fst (begin_item env fuel item self)), Waiting).
Proof.
  unfold _process_item. intros Ha.
  destruct (begin_item env fuel item self) as [[in_progress self1] out].
  simpl in *. subst out. reflexivity.
Qed.

(** An [acquire] that raises ends in the [except] clause. *)
Lemma process_item_raised (fuel : nat) (item : QueueItem.t)
    (self : QueueService) (exc : BaseException) :
  snd (begin_item env fuel item self) = Raised exc ->
  _process_item env fuel item self
  = except_Exception env item
      (in_progress_copy item (utcnow env (utc_reads self))) exc
      (snd (fst (begin_item env fuel item self))).
Proof.
  unfold _process_item. intros Ha.
  pose proof (begin_item_frame fuel item self) as (_ & _ & _ & Ei & _).
  destruct (begin_item env fuel item self) as [[in_progress self1] out].
  simpl in *. subst out in_progress. reflexivity.
Qed.

(** The only exception [acquire] raises is the OverflowError. *)
Lemma throttle_raises (fuel : nat) (services : list string)
    (self : QueueService) (exc : BaseException) :
  snd (throttle env fuel services self) = Raised exc -> exc = overflow_error.
Proof.
  revert self. induction services as [|name services IH]; intros self; simpl.
  - discriminate.
  - unfold apply_rate_limit at 1.
    destruct (_rate_limiters self !! name) as [lim|]; simpl.
    + unfold acquire_outcome.
      destruct (admitted _); [apply IH|].
      destruct (overflowed _); simpl; [intros [= <-]; reflexivity|discriminate].
    + apply IH.
Qed.

Lemma begin_item_raises (fuel : nat) (item : QueueItem.t)
    (self : QueueService) (exc : BaseException) :
  snd (begin_item env fuel item self) = Raised exc -> exc = overflow_error.
Proof.
  unfold begin_item, datetime_now.
  match goal with
  | |- context [throttle env fuel ?svcs ?s] =>
      pose proof (throttle_raises fuel svcs s exc) as H;
      destruct (throttle env fuel svcs s) as [self1 out]
  end.
  exact H.
Qed.

Lemma run_reports_utc (u : string) (run : HandlerRun) (fuel : nat)
    (item : QueueItem.t) (self : QueueService) :
  utc_reads (run_reports u run (snd (fst (begin_item env fuel item self))))
  = S (utc_reads self).
Proof.
  destruct (run_reports_frame u run
              (snd (fst (begin_item env fuel item self))))
    as (_ & _ & _ & T & _).
  destruct (begin_item_frame fuel item self) as (_ & T0 & _).
  cbv zeta in *. congruence.
Qed.

(** ** The copies *)

Lemma in_progress_copy_fields (item : QueueItem.t) (started : Z) :
  let p := in_progress_copy item started in
  QueueItem.video_url p = QueueItem.video_url item /\
  QueueItem.status p = QueueStatus.PROCESSING /\
  QueueItem.started_at p = Some started /\
  QueueItem.current_stage p = Some ProcessingStage.VALIDATING /\
  QueueItem.stage_progress_percent p = 0%Z /\
  QueueItem.overall_progress_percent p
    = QueueItem.overall_progress_percent item /\
  QueueItem.message p = QueueItem.message item /\
  QueueItem.summarize p = QueueItem.summarize item.
Proof. repeat split. Qed.

Lemma new_item_fields (http : string -> option string) (u : string)
    (prio queued : Z) (tags : list string) (summ : bool) (len : Z)
    (rm frc : bool) (item : QueueItem.t) :
  QueueItem.new http u prio queued tags summ len rm frc = Some item ->
  http u = Some (QueueItem.video_url item) /\
  QueueItem.priority item = prio /\
  QueueItem.status item = QueueStatus.QUEUED /\
  QueueItem.stage_progress_percent item = 0%Z /\
  QueueItem.overall_progress_percent item = 0%Z /\
  QueueItem.message item = None.
Proof.
  unfold QueueItem.new. destruct (http u) as [v|]; [|discriminate].
  destruct (1 <=? len)%Z; [|discriminate].
  intros [= <-]. repeat split.
Qed.

(** The callback stores max(existing, reported). *)
Lemma progress_callback_overall (u : string) (self : QueueService)
    (update : ProgressUpdate.t) (current : QueueItem.t) :
  _items self !! u = Some current ->
  exists stored,
    _items (_progress_callback_for u self update) !! u = Some stored /\
    QueueItem.overall_progress_percent stored
    = Z.max (QueueItem.overall_progress_percent current)
            (ProgressUpdate.overall_progress update) /\
    QueueItem.current_stage stored = Some (ProgressUpdate.stage update) /\
    QueueItem.stage_progress_percent stored
    = ProgressUpdate.stage_progress update /\
    QueueItem.message stored = Some (ProgressUpdate.message update).
Proof.
  intros H. unfold _progress_callback_for. rewrite H. simpl.
  eexists. rewrite lookup_insert_eq. split; [reflexivity|]. repeat split.
Qed.

(** ** The terminal transitions *)

Lemma finish_item_returned (item in_progress : QueueItem.t)
    (run : HandlerRun) (self : QueueService) :
  raised run = None ->
  exists self',
    finish_item env item in_progress run self = (self', Returned) /\
    _items self' !! QueueItem.video_url item
    = Some (completed_copy in_progress (utcnow env (utc_reads self))).
Proof.
  intros H. unfold finish_item, datetime_now. rewrite H. simpl.
  eexists. split; [reflexivity|]. simpl. apply lookup_insert_eq.
Qed.

Lemma finish_item_failed (item in_progress : QueueItem.t)
    (run : HandlerRun) (self : QueueService) (exc : BaseException) :
  raised run = Some exc -> isinstance_Exception exc = true ->
  exists self',
    finish_item env item in_progress run self = (self', Returned) /\
    _items self' !! QueueItem.video_url item
    = Some (failed_copy in_progress (utcnow env (utc_reads self)) exc).
Proof.
  intros H He. unfold finish_item, except_Exception, datetime_now.
  rewrite H, He. simpl.
  eexists. split; [reflexivity|]. simpl. apply lookup_insert_eq.
Qed.

(** C4.  When the handler returns for an item, [_process_item] returns
    and the map holds, under the item's URL, an item with status
    COMPLETED, [completed_at] set, stage COMPLETE and both percentages
    100.  The handler is reached whenever the rate limits admit the
    item, which they do within two iterations per limiter when the
    limiters are ready and sleeps are punctual. *)
Theorem completed_on_success (item : QueueItem.t) (self : QueueService) :
  raised (_ingestion_handler self
            (in_progress_copy item (utcnow env (utc_reads self)))) = None ->
  (forall fuel,
     admits env fuel item self ->
     exists self' stored finished,
       _process_item env fuel item self = (self', Returned) /\
       _items self' !! QueueItem.video_url item = Some stored /\
       QueueItem.status stored = QueueStatus.COMPLETED /\
       QueueItem.completed_at stored = Some finished /\
       QueueItem.current_stage stored = Some ProcessingStage.COMPLETE /\
       QueueItem.stage_progress_percent stored = 100%Z /\
       QueueItem.overall_progress_percent stored = 100%Z) /\
  (punctual (sleep env) -> limiters_ready self ->
   forall fuel, (2 <= fuel)%nat -> admits env fuel item self).
Proof.
  intros Hrun. split.
  - intros fuel Ha. rewrite (process_item_admitted fuel item self Ha).
    cbv zeta.
    match goal with
    | |- context [finish_item env item ?p ?r ?s] =>
        destruct (finish_item_returned item p r s Hrun) as (self' & E & L)
    end.
    exists self'. eexists. eexists. split; [exact E|].
    split; [exact L|]. repeat split.
  - intros Hp Hr fuel Hfuel. apply ready_admits; assumption.
Qed.

(** C10.  The terminal transition copies the snapshot taken at the
    PROCESSING transition, whatever the progress callback stored in
    between: the stored item is [completed_copy] or [failed_copy] of
    that snapshot.  Its message is the item's message from before
    processing, and on FAILED the overall percentage is the item's and
    the stage percentage is the 0 of the snapshot; an item built by
    [add_to_queue] starts with 0, 0 and no message. *)
Theorem terminal_copy_of_snapshot (fuel : nat) (item : QueueItem.t)
    (self : QueueService) :
  admits env fuel item self ->
  let in_progress := in_progress_copy item (utcnow env (utc_reads self)) in
  let run := _ingestion_handler self in_progress in
  let finished := utcnow env (S (utc_reads self)) in
  let self' := fst (_process_item env fuel item self) in
  (raised run = None ->
   _items self' !! QueueItem.video_url item
   = Some (completed_copy in_progress finished) /\
   QueueItem.message (completed_copy in_progress finished)
   = QueueItem.message item) /\
  (forall exc,
     raised run = Some exc -> isinstance_Exception exc = true ->
     _items self' !! QueueItem.video_url item
     = Some (failed_copy in_progress finished exc) /\
     QueueItem.message (failed_copy in_progress finished exc)
     = QueueItem.message item /\
     QueueItem.overall_progress_percent (failed_copy in_progress finished exc)
     = QueueItem.overall_progress_percent item /\
     QueueItem.stage_progress_percent (failed_copy in_progress finished exc)
     = 0%Z) /\
  (forall u prio queued tags summ len rm frc,
     QueueItem.new (http_url env) u prio queued tags summ len rm frc
     = Some item ->
     QueueItem.message item = None /\
     QueueItem.overall_progress_percent item = 0%Z /\
     QueueItem.stage_progress_percent item = 0%Z).
Proof.
  intros Ha. cbv zeta.
  rewrite (process_item_admitted fuel item self Ha). cbv zeta.
  split; [|split].
  - intros Hrun.
    match goal with
    | |- context [finish_item env item ?p ?r ?s] =>
        destruct (finish_item_returned item p r s Hrun) as (self' & E & L)
    end.
    rewrite E. simpl. rewrite L, run_reports_utc. split; reflexivity.
  - intros exc Hrun He.
    match goal with
    | |- context [finish_item env item ?p ?r ?s] =>
        destruct (finish_item_failed item p r s exc Hrun He)
          as (self' & E & L)
    end.
    rewrite E. simpl. rewrite L, run_reports_utc. repeat split.
  - intros u prio queued tags summ len rm frc Hnew.
    apply new_item_fields in Hnew. tauto.
Qed.

(** ** [add_to_queue] *)

Lemma accepts_new (c : Enqueue) (queued : Z) :
  accepts env c = true ->
  exists item,
    QueueItem.new (http_url env) (url c) (priority c) queued (manual_tags c)
      (summarize c) (summary_length c) (remove_timestamps c) (force c)
    = Some item.
Proof.
  unfold accepts, QueueItem.new.
  destruct (http_url env (url c)); [|discriminate].
  intros ->. eexists. reflexivity.
Qed.

Lemma rejects_new (c : Enqueue) (queued : Z) :
  accepts env c = false ->
  QueueItem.new (http_url env) (url c) (priority c) queued (manual_tags c)
    (summarize c) (summary_length c) (remove_timestamps c) (force c)
  = None.
Proof.
  unfold accepts, QueueItem.new.
  destruct (http_url env (url c)); [|reflexivity].
  intros ->. reflexivity.
Qed.

Lemma add_to_queue_accepted (c : Enqueue) (self : QueueService) :
  accepts env c = true ->
  exists item,
    QueueItem.new (http_url env) (url c) (priority c)
      (utcnow env (utc_reads self)) (manual_tags c) (summarize c)
      (summary_length c) (remove_timestamps c) (force c) = Some item /\
    fst (add_to_queue env c self) = Some item /\
    _priority_queue (snd (add_to_queue env c self))
    = ((- priority c)%Z, (_sequence self + 1)%Z, item)
        :: _priority_queue self /\
    _sequence (snd (add_to_queue env c self)) = (_sequence self + 1)%Z /\
    _items (snd (add_to_queue env c self))
    = <[url c := item]> (_items self).
Proof.
  intros Ha.
  destruct (accepts_new c (utcnow env (utc_reads self)) Ha) as [item Hnew].
  exists item. split; [exact Hnew|].
  unfold add_to_queue, datetime_now. rewrite Hnew. simpl. repeat split.
Qed.

Lemma add_to_queue_rejected (c : Enqueue) (self : QueueService) :
  accepts env c = false ->
  add_to_queue env c self
  = (None, set_utc_reads self (S (utc_reads self))).
Proof.
  intros Ha. unfold add_to_queue, datetime_now.
  rewrite (rejects_new c _ Ha). reflexivity.
Qed.

Lemma add_to_queue_consistent (c : Enqueue) (self : QueueService) :
  queue_consistent self -> queue_consistent (snd (add_to_queue env c self)).
Proof.
  intros [Hall Hnd].
  destruct (accepts env c) eqn:Ha.
  - destruct (add_to_queue_accepted c self Ha)
      as (item & Hnew & _ & Eq & Es & _).
    apply new_item_fields in Hnew. destruct Hnew as (_ & Hp & _).
    unfold queue_consistent. rewrite Eq, Es. split.
    + constructor.
      * unfold entry_key, entry_item, entry_sequence; simpl.
        split; [rewrite Hp; reflexivity | lia].
      * eapply Forall_impl; [exact Hall|].
        intros e [Hk Hs]. split; [exact Hk | lia].
    + simpl. apply NoDup_cons. split; [|exact Hnd].
      intros Hin. apply list_elem_of_In, in_map_iff in Hin.
      destruct Hin as (e & He & Hin).
      rewrite List.Forall_forall in Hall. destruct (Hall e Hin) as [_ Hle].
      unfold entry_sequence in He at 2. simpl in He. lia.
  - rewrite (add_to_queue_rejected c self Ha). simpl.
    split; assumption.
Qed.

Lemma add_all_consistent (calls : list Enqueue) (self : QueueService) :
  queue_consistent self -> queue_consistent (add_all env calls self).
Proof.
  unfold add_all. revert self.
  induction calls as [|c calls IH]; intros self Hc; simpl; [exact Hc|].
  apply IH, add_to_queue_consistent, Hc.
Qed.

(** What a sequence of calls pushes: one entry per accepted call, in
    call order, with the keys [pushed_keys] lists; the newest entry is at
    the head of the list that models the queue. *)
Lemma add_all_pushed (calls : list Enqueue) (self : QueueService) :
  exists pushed : list Entry,
    _priority_queue (add_all env calls self)
    = rev pushed ++ _priority_queue self /\
    map entry_key pushed
    = pushed_keys (_sequence self) (List.filter (accepts env) calls) /\
    Forall2 (fun e c =>
               QueueItem.priority (entry_item e) = priority c /\
               http_url env (url c)
               = Some (QueueItem.video_url (entry_item e)))
            pushed (List.filter (accepts env) calls) /\
    _sequence (add_all env calls self)
    = (_sequence self
       + Z.of_nat (length (List.filter (accepts env) calls)))%Z.
Proof.
  unfold add_all. revert self.
  induction calls as [|c calls IH]; intros self; simpl.
  - exists []. simpl. repeat split; [constructor | lia].
  - destruct (IH (snd (add_to_queue env c self)))
      as (pushed & Eq & Ek & Ef & Es).
    destruct (accepts env c) eqn:Ha.
    + destruct (add_to_queue_accepted c self Ha)
        as (item & Hnew & _ & Eq1 & Es1 & _).
      apply new_item_fields in Hnew. destruct Hnew as (Hu & Hp & _).
      exists (((- priority c)%Z, (_sequence self + 1)%Z, item) :: pushed).
      rewrite Eq, Eq1, Es, Es1 in *. simpl. repeat split.
      * rewrite <- app_assoc. reflexivity.
      * rewrite Ek. reflexivity.
      * constructor; [split; assumption | exact Ef].
      * lia.
    + rewrite (add_to_queue_rejected c self Ha) in *. simpl in *.
      exists pushed. repeat split; assumption.
Qed.

Lemma add_to_queue_frame (c : Enqueue) (self : QueueService) :
  _rate_limiters (snd (add_to_queue env c self)) = _rate_limiters self /\
  loop_time (snd (add_to_queue env c self)) = loop_time self /\
  _ingestion_handler (snd (add_to_queue env c self))
  = _ingestion_handler self.
Proof.
  unfold add_to_queue, datetime_now.
  destruct (QueueItem.new _ _ _ _ _ _ _ _ _); simpl; repeat split.
Qed.

Lemma add_all_frame (calls : list Enqueue) (self : QueueService) :
  _rate_limiters (add_all env calls self) = _rate_limiters self /\
  loop_time (add_all env calls self) = loop_time self /\
  _ingestion_handler (add_all env calls self) = _ingestion_handler self.
Proof.
  unfold add_all. revert self.
  induction calls as [|c calls IH]; intros self; simpl; [repeat split|].
  destruct (IH (snd (add_to_queue env c self))) as (E1 & E2 & E3).
  destruct (add_to_queue_frame c self) as (F1 & F2 & F3).
  repeat split; congruence.
Qed.

Lemma add_all_ready (calls : list Enqueue) (self : QueueService) :
  limiters_ready self -> limiters_ready (add_all env calls self).
Proof.
  destruct (add_all_frame calls self) as (E1 & E2 & _).
  apply limiters_ready_same; assumption.
Qed.

(** ** The loop of [process_queue] *)

Lemma process_item_ready (fuel : nat) (item : QueueItem.t)
    (self : QueueService) :
  punctual (sleep env) -> raises_only_errors (_ingestion_handler self) ->
  limiters_ready self -> (2 <= fuel)%nat ->
  snd (_process_item env fuel item self) = Returned /\
  limiters_ready (fst (_process_item env fuel item self)).
Proof.
  intros Hp Herr Hr Hfuel.
  destruct (ready_admits fuel item self Hp Hr Hfuel) as [Ha Hr1].
  rewrite (process_item_admitted fuel item self Ha). cbv zeta.
  set (in_progress := in_progress_copy item (utcnow env (utc_reads self))).
  set (run := _ingestion_handler self in_progress).
  set (self1 := snd (fst (begin_item env fuel item self))) in *.
  set (self2 := run_reports (QueueItem.video_url item) run self1).
  pose proof (run_reports_frame (QueueItem.video_url item) run self1)
    as (_ & L1 & T1 & _).
  pose proof (finish_item_frame item in_progress run self2)
    as (_ & L2 & T2 & _).
  fold self2 in L1, T1. cbv zeta in L2, T2.
  assert (Hr2 : limiters_ready
                  (fst (finish_item env item in_progress run self2))).
  { eapply limiters_ready_same; [| |exact Hr1]; congruence. }
  split; [|exact Hr2].
  unfold finish_item, except_Exception.
  destruct (raised run) as [exc|] eqn:Hrun.
  - rewrite (Herr in_progress exc Hrun). reflexivity.
  - reflexivity.
Qed.

Lemma loop_popped (n fuel : nat) (self : QueueService) :
  let r := process_queue_loop env n fuel self in
  fst (fst r) = pq_drain (length (fst (fst r))) (_priority_queue self) /\
  (snd r = Returned ->
   fst (fst r)
   = pq_drain (length (_priority_queue self)) (_priority_queue self) /\
   _priority_queue (snd (fst r)) = []).
Proof.
  revert self. induction n as [|n IH]; intros self; simpl.
  - destruct (pq_get (_priority_queue self)) as [[entry rest]|] eqn:E; simpl.
    + split; [reflexivity | discriminate].
    + apply pq_get_none in E. rewrite E. repeat split.
  - destruct (pq_get (_priority_queue self)) as [[entry rest]|] eqn:E; simpl.
    + pose proof (process_item_frame fuel (entry_item entry)
                    (set_priority_queue self rest)) as ((_ & Uq & _) & _).
      destruct (_process_item env fuel (entry_item entry)
                  (set_priority_queue self rest)) as [self1 out].
      simpl in Uq.
      destruct out; simpl;
        try (split; [rewrite E; reflexivity | discriminate]).
      specialize (IH self1). rewrite Uq in IH.
      destruct (process_queue_loop env n fuel self1) as [[popped self2] out2].
      simpl in *. destruct IH as [IH1 IH2]. split.
      * rewrite E. f_equal. exact IH1.
      * intros Hout. destruct (IH2 Hout) as [IH3 IH4].
        split; [|exact IH4].
        rewrite (pq_get_length _ _ _ E). simpl. rewrite E.
        f_equal. exact IH3.
    + apply pq_get_none in E. rewrite E. repeat split.
Qed.

Lemma loop_returns (n fuel : nat) (self : QueueService) :
  punctual (sleep env) -> raises_only_errors (_ingestion_handler self) ->
  limiters_ready self -> (2 <= fuel)%nat ->
  (length (_priority_queue self) <= n)%nat ->
  snd (process_queue_loop env n fuel self) = Returned.
Proof.
  intros Hp. revert self.
  induction n as [|n IH]; intros self Herr Hr Hfuel Hn; simpl.
  - destruct (_priority_queue self); [reflexivity|simpl in Hn; lia].
  - destruct (pq_get (_priority_queue self)) as [[entry rest]|] eqn:E;
      [|reflexivity].
    pose proof (pq_get_length _ _ _ E) as L.
    pose proof (process_item_frame fuel (entry_item entry)
                  (set_priority_queue self rest)) as ((Uh & Uq & _) & _).
    destruct (process_item_ready fuel (entry_item entry)
                (set_priority_queue self rest) Hp Herr Hr Hfuel)
      as [Hout Hr1].
    destruct (_process_item env fuel (entry_item entry)
                (set_priority_queue self rest)) as [self1 out].
    simpl in *. subst out.
    assert (Hret : snd (process_queue_loop env n fuel self1) = Returned).
    { apply IH; try assumption.
      - rewrite Uh. exact Herr.
      - rewrite Uq. lia. }
    destruct (process_queue_loop env n fuel self1) as [[popped self2] out2].
    exact Hret.
Qed.

(** What is taken and what is left make up the queue. *)
Lemma loop_queue_perm (n fuel : nat) (self : QueueService) :
  let r := process_queue_loop env n fuel self in
  Permutation (_priority_queue self)
              (fst (fst r) ++ _priority_queue (snd (fst r))) /\
  _sequence (snd (fst r)) = _sequence self.
Proof.
  revert self. induction n as [|n IH]; intros self; simpl.
  - destruct (pq_get (_priority_queue self)) as [[entry rest]|]; simpl;
      split; reflexivity.
  - destruct (pq_get (_priority_queue self)) as [[entry rest]|] eqn:E; simpl;
      [|split; reflexivity].
    pose proof (pq_get_perm _ _ _ E) as P.
    pose proof (process_item_frame fuel (entry_item entry)
                  (set_priority_queue self rest)) as ((_ & Uq & Us) & _).
    destruct (_process_item env fuel (entry_item entry)
                (set_priority_queue self rest)) as [self1 out].
    simpl in Uq, Us.
    destruct out; simpl; try (rewrite Uq; split; [exact P | exact Us]).
    specialize (IH self1).
    destruct (process_queue_loop env n fuel self1) as [[popped self2] out2].
    simpl in *. destruct IH as [IHp IHs]. split; [|congruence].
    rewrite P. constructor. rewrite <- IHp, Uq. reflexivity.
Qed.

Lemma process_queue_consistent (fuel : nat) (self : QueueService) :
  queue_consistent self ->
  queue_consistent (snd (fst (process_queue env fuel self))).
Proof.
  intros [Hall Hnd]. unfold process_queue.
  destruct (loop_queue_perm (length (_priority_queue self)) fuel self)
    as [P Es].
  cbv zeta in *. unfold queue_consistent. rewrite Es.
  set (left := _priority_queue
                 (snd (fst (process_queue_loop env
                              (length (_priority_queue self)) fuel self))))
    in *.
  split.
  - rewrite P in Hall. apply Forall_app in Hall. apply Hall.
  - apply (Permutation_map entry_sequence) in P. rewrite P in Hnd.
    rewrite map_app in Hnd. apply NoDup_app in Hnd. apply Hnd.
Qed.

(** The bound on the number of items taken is no restriction: any
    bound at least the length of the queue gives the same run. *)
Lemma loop_bound_irrelevant (n m fuel : nat) (self : QueueService) :
  (length (_priority_queue self) <= n)%nat ->
  (length (_priority_queue self) <= m)%nat ->
  process_queue_loop env n fuel self = process_queue_loop env m fuel self.
Proof.
  revert m self. induction n as [|n IH]; intros m self Hn Hm.
  - destruct (_priority_queue self) as [|e q] eqn:E; [|simpl in Hn; lia].
    destruct m; simpl; rewrite E; reflexivity.
  - destruct m as [|m].
    + destruct (_priority_queue self) as [|e q] eqn:E; [|simpl in Hm; lia].
      simpl; rewrite E; reflexivity.
    + simpl.
      destruct (pq_get (_priority_queue self)) as [[entry rest]|] eqn:E;
        [|reflexivity].
      pose proof (pq_get_length _ _ _ E) as L.
      pose proof (process_item_frame fuel (entry_item entry)
                    (set_priority_queue self rest)) as ((_ & Uq & _) & _).
      destruct (_process_item env fuel (entry_item entry)
                  (set_priority_queue self rest)) as [self1 out].
      simpl in Uq. destruct out; try reflexivity.
      rewrite (IH m self1); [reflexivity | rewrite Uq; lia | rewrite Uq; lia].
Qed.

(** C2.  After any sequence of [add_to_queue] calls on a scheduler with
    a consistent queue, the accepted calls have pushed, in call order,
    the keys (-priority, s+1), (-priority, s+2), ... above every older
    sequence number, and [process_queue] takes the entries in ascending
    key order: each one taken has higher priority than every later one,
    or the same priority and a smaller sequence number.  The entries
    taken are a prefix of that order, all of the queue when the call
    returns; it returns when the limiters are ready, sleeps are
    punctual and the handler raises errors only.  The queue is
    consistent again after the calls and after the drain, so all of
    this holds at any point of the scheduler's life. *)
Theorem drain_in_priority_then_fifo_order
    (calls : list Enqueue) (fuel : nat) (self : QueueService) :
  queue_consistent self ->
  let loaded := add_all env calls self in
  let result := process_queue env fuel loaded in
  let popped := fst (fst result) in
  (exists pushed : list Entry,
     _priority_queue loaded = rev pushed ++ _priority_queue self /\
     map entry_key pushed
     = pushed_keys (_sequence self) (List.filter (accepts env) calls) /\
     Forall2 (fun e c =>
                QueueItem.priority (entry_item e) = priority c /\
                http_url env (url c)
                = Some (QueueItem.video_url (entry_item e)))
             pushed (List.filter (accepts env) calls) /\
     Forall (fun e => (entry_sequence e <= _sequence self)%Z)
            (_priority_queue self)) /\
  StronglySorted runs_before popped /\
  popped = pq_drain (length popped) (_priority_queue loaded) /\
  (snd result = Returned ->
   Permutation popped (_priority_queue loaded) /\
   _priority_queue (snd (fst result)) = []) /\
  (punctual (sleep env) -> limiters_ready loaded ->
   raises_only_errors (_ingestion_handler loaded) -> (2 <= fuel)%nat ->
   snd result = Returned) /\
  queue_consistent loaded /\ queue_consistent (snd (fst result)).
Proof.
  intros Hc loaded result popped.
  assert (Hcl : queue_consistent loaded) by apply add_all_consistent, Hc.
  assert (Hcr : queue_consistent (snd (fst result)))
    by apply process_queue_consistent, Hcl.
  pose proof (add_all_consistent calls self Hc) as [Hall Hnd].
  fold loaded in Hall, Hnd.
  destruct (loop_popped (length (_priority_queue loaded)) fuel loaded)
    as [Hpre Hfull].
  fold (process_queue env fuel loaded) in Hpre, Hfull.
  fold result in Hpre, Hfull. fold popped in Hpre, Hfull.
  split; [|split; [|split; [exact Hpre|split; [|split; [|split; assumption]]]]].
  - destruct (add_all_pushed calls self) as (pushed & Eq & Ek & Ef & _).
    exists pushed. repeat split; try assumption.
    eapply Forall_impl; [exact (proj1 Hc)|]. intros e [_ He]. exact He.
  - assert (Hin : forall e, In e popped -> In e (_priority_queue loaded)).
    { intros e He. rewrite Hpre in He. apply pq_drain_incl in He. exact He. }
    assert (Hpnd : NoDup popped).
    { rewrite Hpre. clear Hpre Hfull Hin.
      generalize (length popped) as k.
      assert (Hq : NoDup (_priority_queue loaded)).
      { apply (NoDup_fmap_1 entry_sequence). exact Hnd. }
      revert Hq. generalize (_priority_queue loaded) as q. clear.
      intros q Hq k. revert q Hq.
      induction k as [|k IH]; intros q Hq; simpl; [constructor|].
      destruct (pq_get q) as [[e rest]|] eqn:E; [|constructor].
      pose proof (pq_get_perm _ _ _ E) as P. rewrite P in Hq.
      apply NoDup_cons in Hq. destruct Hq as [Hnotin Hq].
      apply NoDup_cons. split; [|apply IH, Hq].
      intros Hin. apply Hnotin. apply list_elem_of_In.
      apply list_elem_of_In in Hin. apply pq_drain_incl in Hin. exact Hin. }
    apply sorted_runs_before.
    + rewrite Hpre. apply pq_drain_sorted.
    + apply NoDup_fmap_2_strong; [|exact Hpnd].
      intros a b Ha Hb Hab.
      apply list_elem_of_In, Hin in Ha. apply list_elem_of_In, Hin in Hb.
      clear - Ha Hb Hab Hnd.
      revert Ha Hb Hnd. generalize (_priority_queue loaded) as q. clear - Hab.
      induction q as [|x q IH]; simpl; [tauto|].
      intros Ha Hb Hnd. apply NoDup_cons in Hnd. destruct Hnd as [Hx Hnd].
      destruct Ha as [->|Ha], Hb as [->|Hb]; try reflexivity.
      * exfalso. apply Hx. rewrite Hab. apply list_elem_of_In, in_map, Hb.
      * exfalso. apply Hx. rewrite <- Hab. apply list_elem_of_In, in_map, Ha.
      * apply IH; assumption.
    + apply List.Forall_forall. intros e He. apply Hin in He.
      rewrite List.Forall_forall in Hall. apply (Hall e He).
  - intros Hout. destruct (Hfull Hout) as [Hp Hq]. split; [|exact Hq].
    rewrite Hp. apply pq_drain_perm. lia.
  - intros Hp Hr Herr Hfuel. apply loop_returns; try assumption. lia.
Qed.

(** ** Two schedulers that differ for one URL only *)

Lemma apply_rate_limit_same (fuel : nat) (name : string)
    (a b : QueueService) :
  _rate_limiters a = _rate_limiters b -> loop_time a = loop_time b ->
  snd (apply_rate_limit env fuel name a)
  = snd (apply_rate_limit env fuel name b) /\
  _rate_limiters (fst (apply_rate_limit env fuel name a))
  = _rate_limiters (fst (apply_rate_limit env fuel name b)) /\
  loop_time (fst (apply_rate_limit env fuel name a))
  = loop_time (fst (apply_rate_limit env fuel name b)).
Proof.
  intros El Et. unfold apply_rate_limit. rewrite El, Et.
  destruct (_rate_limiters b !! name); simpl; repeat split; assumption.
Qed.

Lemma throttle_same (fuel : nat) (services : list string)
    (a b : QueueService) :
  _rate_limiters a = _rate_limiters b -> loop_time a = loop_time b ->
  snd (throttle env fuel services a) = snd (throttle env fuel services b) /\
  _rate_limiters (fst (throttle env fuel services a))
  = _rate_limiters (fst (throttle env fuel services b)) /\
  loop_time (fst (throttle env fuel services a))
  = loop_time (fst (throttle env fuel services b)).
Proof.
  revert a b. induction services as [|name services IH]; intros a b El Et.
  - simpl. repeat split; assumption.
  - simpl. destruct (apply_rate_limit_same fuel name a b El Et)
      as (Eok & El1 & Et1).
    destruct (apply_rate_limit env fuel name a) as [a1 oka].
    destruct (apply_rate_limit env fuel name b) as [b1 okb].
    simpl in *. subst okb.
    destruct oka; simpl; [|repeat split; assumption ..].
    apply IH; assumption.
Qed.

Lemma insert_same_except {A : Type} (u key : string) (x y : A)
    (m1 m2 : gmap string A) :
  (forall k, k <> u -> m1 !! k = m2 !! k) ->
  (key <> u -> x = y) ->
  forall k, k <> u -> <[key := x]> m1 !! k = <[key := y]> m2 !! k.
Proof.
  intros Hm Hxy k Hk. destruct (decide (key = k)) as [->|Hne].
  - rewrite !lookup_insert_eq. f_equal. apply Hxy, Hk.
  - rewrite !lookup_insert_ne by exact Hne. apply Hm, Hk.
Qed.

Lemma begin_item_same_except (u : string) (fuel : nat) (item : QueueItem.t)
    (a b : QueueService) :
  same_except u a b ->
  snd (begin_item env fuel item a) = snd (begin_item env fuel item b) /\
  same_except u (snd (fst (begin_item env fuel item a)))
                (snd (fst (begin_item env fuel item b))).
Proof.
  intros (Eq & Es & El & Et & Er & Ei & Eh).
  pose proof (begin_item_frame fuel item a) as ((Ah & Aq & As) & Ar & _ & _ & Ai).
  pose proof (begin_item_frame fuel item b) as ((Bh & Bq & Bs) & Br & _ & _ & Bi).
  cbv zeta in *.
  assert (Hthr :
    snd (begin_item env fuel item a) = snd (begin_item env fuel item b) /\
    _rate_limiters (snd (fst (begin_item env fuel item a)))
    = _rate_limiters (snd (fst (begin_item env fuel item b))) /\
    loop_time (snd (fst (begin_item env fuel item a)))
    = loop_time (snd (fst (begin_item env fuel item b)))).
  { unfold begin_item, datetime_now. rewrite Er.
    match goal with
    | |- context [throttle env fuel ?svcs ?sa] =>
        match goal with
        | |- context [throttle env fuel svcs ?sb] =>
            lazymatch sa with
            | sb => fail
            | _ =>
                pose proof (throttle_same fuel svcs sa sb El Et)
                  as (T1 & T2 & T3);
                destruct (throttle env fuel svcs sa) as [a1 oka];
                destruct (throttle env fuel svcs sb) as [b1 okb]
            end
        end
    end.
    simpl in *. repeat split; assumption. }
  destruct Hthr as (Hok & Hl & Ht).
  split; [exact Hok|].
  unfold same_except. rewrite Aq, Bq, As, Bs, Ar, Br, Ai, Bi, Ah, Bh, Er.
  repeat split; try assumption; try congruence.
  apply insert_same_except; [exact Ei | reflexivity].
Qed.

Lemma run_reports_same (u key : string) (run : HandlerRun)
    (a b : QueueService) :
  key <> u ->
  (forall k, k <> u -> _items a !! k = _items b !! k) ->
  forall k, k <> u ->
    _items (run_reports key run a) !! k = _items (run_reports key run b) !! k.
Proof.
  intros Hkey. unfold run_reports. generalize (reports run) as updates.
  intros updates. revert a b.
  induction updates as [|update updates IH]; intros a b Hi; simpl.
  - exact Hi.
  - apply IH. unfold _progress_callback_for.
    rewrite (Hi key Hkey).
    destruct (_items b !! key) as [current|]; simpl; [|exact Hi].
    apply insert_same_except; [exact Hi | reflexivity].
Qed.

(** The end of [_process_item] when the run ends with a return or an
    error: one more clock reading, one map entry written. *)
Lemma finish_item_shape (item in_progress : QueueItem.t) (run : HandlerRun)
    (self : QueueService) :
  (forall exc, raised run = Some exc -> isinstance_Exception exc = true) ->
  let r := finish_item env item in_progress run self in
  snd r = Returned /\
  untouched self (fst r) /\
  _rate_limiters (fst r) = _rate_limiters self /\
  loop_time (fst r) = loop_time self /\
  utc_reads (fst r) = S (utc_reads self) /\
  _items (fst r)
  = <[QueueItem.video_url item :=
        match raised run with
        | None => completed_copy in_progress (utcnow env (utc_reads self))
        | Some exc =>
            failed_copy in_progress (utcnow env (utc_reads self)) exc
        end]> (_items self).
Proof.
  intros Herr. unfold finish_item, except_Exception, datetime_now.
  destruct (raised run) as [exc|] eqn:Hrun.
  - rewrite (Herr exc eq_refl). simpl. repeat split.
  - simpl. repeat split.
Qed.

Lemma except_shape (item in_progress : QueueItem.t) (exc : BaseException)
    (self : QueueService) :
  isinstance_Exception exc = true ->
  let r := except_Exception env item in_progress exc self in
  snd r = Returned /\
  untouched self (fst r) /\
  _rate_limiters (fst r) = _rate_limiters self /\
  loop_time (fst r) = loop_time self /\
  utc_reads (fst r) = S (utc_reads self) /\
  _items (fst r)
  = <[QueueItem.video_url item :=
        failed_copy in_progress (utcnow env (utc_reads self)) exc]>
      (_items self).
Proof.
  intros He. unfold except_Exception, datetime_now. rewrite He. simpl.
  repeat split.
Qed.

Lemma process_item_same_except (u : string) (fuel : nat)
    (item : QueueItem.t) (a b : QueueService) :
  same_except u a b ->
  raises_only_errors (_ingestion_handler a) ->
  raises_only_errors (_ingestion_handler b) ->
  snd (_process_item env fuel item a) = snd (_process_item env fuel item b) /\
  same_except u (fst (_process_item env fuel item a))
                (fst (_process_item env fuel item b)).
Proof.
  intros Hab Ha Hb.
  destruct (begin_item_same_except u fuel item a b Hab) as [Hok H1].
  destruct (snd (begin_item env fuel item a)) eqn:Oka.
  - assert (Aa : admits env fuel item a) by exact Oka.
    assert (Ab : admits env fuel item b) by (unfold admits; congruence).
    rewrite (process_item_admitted fuel item a Aa).
    rewrite (process_item_admitted fuel item b Ab). cbv zeta.
    destruct Hab as (_ & _ & _ & _ & Er & _ & Eh). rewrite <- Er.
    set (ip := in_progress_copy item (utcnow env (utc_reads a))).
    set (ra := _ingestion_handler a ip). set (rb := _ingestion_handler b ip).
    set (a1 := snd (fst (begin_item env fuel item a))) in *.
    set (b1 := snd (fst (begin_item env fuel item b))) in *.
    pose (key := QueueItem.video_url item).
    assert (Ekey : key = QueueItem.video_url item) by reflexivity.
    clearbody key. rewrite <- Ekey in *.
    pose proof (run_reports_frame key ra a1) as (Ua & La & Ta & Ra & _ & Ia).
    pose proof (run_reports_frame key rb b1) as (Ub & Lb & Tb & Rb & _ & Ib).
    pose proof (finish_item_shape item ip ra (run_reports key ra a1)
                  (Ha ip)) as (Oa & Ua' & La' & Ta' & Ra' & Ia').
    pose proof (finish_item_shape item ip rb (run_reports key rb b1)
                  (Hb ip)) as (Ob & Ub' & Lb' & Tb' & Rb' & Ib').
    cbv zeta in *. split; [congruence|].
    destruct H1 as (Eq1 & Es1 & El1 & Et1 & Er1 & Ei1 & Eh1).
    destruct Ua as (Uah & Uaq & Uas), Ub as (Ubh & Ubq & Ubs).
    destruct Ua' as (Uah' & Uaq' & Uas'), Ub' as (Ubh' & Ubq' & Ubs').
    unfold same_except.
    rewrite Uaq', Ubq', Uas', Ubs', La', Lb', Ta', Tb', Ra', Rb', Ia', Ib'.
    rewrite Uah', Ubh', Uaq, Ubq, Uas, Ubs, La, Lb, Ta, Tb, Ra, Rb, Uah, Ubh.
    repeat split; try assumption; try congruence.
    destruct (decide (key = u)) as [Heq|Hne].
    + intros k Hk. rewrite !lookup_insert_ne by congruence.
      rewrite Ia, Ib by congruence. apply Ei1, Hk.
    + assert (Hrun : ra = rb).
      { unfold ra, rb. apply Eh.
        change (QueueItem.video_url item <> u). rewrite <- Ekey. exact Hne. }
      rewrite Hrun, Er1.
      apply insert_same_except; [|reflexivity].
      intros k Hk. exact (run_reports_same u key rb a1 b1 Hne Ei1 k Hk).
  - assert (Okb : snd (begin_item env fuel item b) = Waiting) by congruence.
    rewrite (process_item_waiting fuel item a Oka).
    rewrite (process_item_waiting fuel item b Okb).
    split; [reflexivity | exact H1].
  - assert (Okb : snd (begin_item env fuel item b) = Raised exc)
      by congruence.
    pose proof (begin_item_raises fuel item a exc Oka) as Eexc.
    rewrite (process_item_raised fuel item a exc Oka).
    rewrite (process_item_raised fuel item b exc Okb).
    pose proof Hab as (_ & _ & _ & _ & Er & _). rewrite <- Er.
    set (ip := in_progress_copy item (utcnow env (utc_reads a))).
    set (a1 := snd (fst (begin_item env fuel item a))) in *.
    set (b1 := snd (fst (begin_item env fuel item b))) in *.
    assert (He : isinstance_Exception exc = true) by (subst exc; reflexivity).
    pose proof (except_shape item ip exc a1 He)
      as (Oa & Ua' & La' & Ta' & Ra' & Ia').
    pose proof (except_shape item ip exc b1 He)
      as (Ob & Ub' & Lb' & Tb' & Rb' & Ib').
    cbv zeta in *. split; [congruence|].
    destruct H1 as (Eq1 & Es1 & El1 & Et1 & Er1 & Ei1 & Eh1).
    destruct Ua' as (Uah' & Uaq' & Uas'), Ub' as (Ubh' & Ubq' & Ubs').
    unfold same_except.
    rewrite Uaq', Ubq', Uas', Ubs', La', Lb', Ta', Tb', Ra', Rb', Ia', Ib'.
    rewrite Uah', Ubh', Er1.
    repeat split; try assumption; try congruence.
    apply insert_same_except; [exact Ei1 | reflexivity].
Qed.

Lemma loop_same_except (u : string) (n fuel : nat) (a b : QueueService) :
  same_except u a b ->
  raises_only_errors (_ingestion_handler a) ->
  raises_only_errors (_ingestion_handler b) ->
  fst (fst (process_queue_loop env n fuel a))
  = fst (fst (process_queue_loop env n fuel b)) /\
  snd (process_queue_loop env n fuel a)
  = snd (process_queue_loop env n fuel b) /\
  same_except u (snd (fst (process_queue_loop env n fuel a)))
                (snd (fst (process_queue_loop env n fuel b))).
Proof.
  revert a b. induction n as [|n IH]; intros a b Hab Ha Hb.
  - simpl. destruct Hab as (Eq & Es & El & Et & Er & Ei & Eh). rewrite Eq.
    destruct (pq_get (_priority_queue b)) as [[entry rest]|]; simpl;
      unfold same_except; simpl; rewrite ?Et; repeat split; assumption.
  - simpl. pose proof Hab as (Eq & Es & El & Et & Er & Ei & Eh). rewrite Eq.
    destruct (pq_get (_priority_queue b)) as [[entry rest]|]; simpl.
    + assert (Hab' : same_except u (set_priority_queue a rest)
                                   (set_priority_queue b rest)).
      { unfold same_except; simpl. repeat split; assumption. }
      destruct (process_item_same_except u fuel (entry_item entry)
                  _ _ Hab' Ha Hb) as [Hout H1].
      pose proof (process_item_frame fuel (entry_item entry)
                    (set_priority_queue a rest)) as ((Uah & _) & _).
      pose proof (process_item_frame fuel (entry_item entry)
                    (set_priority_queue b rest)) as ((Ubh & _) & _).
      destruct (_process_item env fuel (entry_item entry)
                  (set_priority_queue a rest)) as [a1 outa].
      destruct (_process_item env fuel (entry_item entry)
                  (set_priority_queue b rest)) as [b1 outb].
      simpl in *. subst outb.
      destruct outa; simpl;
        try (split; [reflexivity|]; split; [reflexivity|exact H1]).
      assert (Ha1 : raises_only_errors (_ingestion_handler a1))
        by (rewrite Uah; exact Ha).
      assert (Hb1 : raises_only_errors (_ingestion_handler b1))
        by (rewrite Ubh; exact Hb).
      destruct (IH a1 b1 H1 Ha1 Hb1) as (Ep & Eo & Hs).
      destruct (process_queue_loop env n fuel a1) as [[pa a2] oa].
      destruct (process_queue_loop env n fuel b1) as [[pb b2] ob].
      simpl in *. subst. split; [reflexivity|]. split; [reflexivity|exact Hs].
    + unfold same_except; simpl; rewrite ?Et; repeat split; assumption.
Qed.

(** ** Limiters from the configuration *)

Lemma or_default_positive (value : option Z) (default : Z) :
  match value with Some v => (0 <? v)%Z | None => true end = true ->
  (0 < default)%Z -> (0 < or_default value default)%Z.
Proof.
  unfold or_default. destruct value as [v|]; [|tauto].
  intros Hv Hd. apply Z.ltb_lt in Hv.
  destruct (Z.eqb_spec v 0); lia.
Qed.

Lemma or_default_exact (value : option Z) (default : Z) :
  match value with Some v => exact_int v | None => True end ->
  exact_int default -> exact_int (or_default value default).
Proof.
  unfold or_default. destruct value as [v|]; [|tauto].
  intros Hv Hd. destruct (Z.eqb_spec v 0); assumption.
Qed.

Lemma exact_int_60 : exact_int 60.
Proof. apply exact_int_small. simpl. lia. Qed.

Lemma create_limiter_ready (now : Q) (name : string)
    (config : ServiceRateLimit.t) :
  ServiceRateLimit.validated config = true ->
  in_double_range config ->
  limiter_ready now (fst (_create_limiter now name config)).
Proof.
  unfold ServiceRateLimit.validated. intros Hv [Xr Xb].
  apply andb_true_iff in Hv. destruct Hv as [Hr Hb].
  pose proof (or_default_positive _ 60 Hr ltac:(lia)) as Hrpm.
  pose proof (or_default_positive _ _ Hb Hrpm) as Hburst.
  pose proof (or_default_exact _ 60 Xr exact_int_60) as Er.
  pose proof (or_default_exact _ _ Xb Er) as Eb.
  unfold _create_limiter. cbn [fst]. split; [|split].
  - apply post_init_consistent; [lia | exact Eb | exact Er].
  - intros _. simpl. lia.
  - apply Qle_refl.
Qed.

Lemma load_rate_limits_cons (now : Q) (service : string)
    (config : ServiceRateLimit.t)
    (services : list (string * ServiceRateLimit.t))
    (limiters : gmap string RateLimiter) (console : list string) :
  load_rate_limits now ((service, config) :: services) limiters console
  = load_rate_limits now services
      (<[service := fst (_create_limiter now service config)]> limiters)
      (console ++ snd (_create_limiter now service config)).
Proof. reflexivity. Qed.

Lemma load_rate_limits_ready (now : Q)
    (services : list (string * ServiceRateLimit.t))
    (limiters : gmap string RateLimiter) (console : list string) :
  Forall (fun sc => ServiceRateLimit.validated (snd sc) = true) services ->
  Forall (fun sc => in_double_range (snd sc)) services ->
  (forall name lim, limiters !! name = Some lim -> limiter_ready now lim) ->
  forall name lim,
    fst (load_rate_limits now services limiters console) !! name = Some lim ->
    limiter_ready now lim.
Proof.
  revert limiters console.
  induction services as [|[service config] services IH];
    intros limiters console Hv Hx Hl; [exact Hl|].
  apply Forall_cons_iff in Hv. destruct Hv as [Hc Hv]. simpl in Hc.
  apply Forall_cons_iff in Hx. destruct Hx as [Hxc Hx]. simpl in Hxc.
  pose proof (create_limiter_ready now service config Hc Hxc) as Hr.
  rewrite load_rate_limits_cons. apply IH; [exact Hv|exact Hx|].
  intros name lim. destruct (decide (service = name)) as [<-|Hne].
  - rewrite lookup_insert_eq. intros [= <-]. exact Hr.
  - rewrite lookup_insert_ne by exact Hne. apply Hl.
Qed.

(** A scheduler built from a validated configuration of integers that
    doubles hold starts with ready limiters and a consistent, empty
    queue. *)
Lemma init_ready (handler : IngestionHandler)
    (rate_limits : list (string * ServiceRateLimit.t)) (now : Q) :
  Forall (fun sc => ServiceRateLimit.validated (snd sc) = true) rate_limits ->
  Forall (fun sc => in_double_range (snd sc)) rate_limits ->
  limiters_ready (__init__ handler rate_limits now) /\
  queue_consistent (__init__ handler rate_limits now).
Proof.
  intros Hv Hx. unfold __init__.
  pose proof (load_rate_limits_ready now rate_limits ∅ [] Hv Hx) as Hr.
  destruct (load_rate_limits now rate_limits ∅ []) as [limiters console].
  simpl in Hr. split.
  - intros name lim Hl. simpl in *. apply (Hr ltac:(intros ? ? H; rewrite lookup_empty in H; discriminate) name lim Hl).
  - split; simpl; constructor.
Qed.

(** C8, as amended.  [_create_limiter] keeps a requests_per_minute and a
    burst that are set (and not 0), takes 60 for a requests_per_minute
    that is unset and the resulting requests_per_minute for a burst that
    is unset.  The limiter starts with the level float(burst), which is
    the burst itself when a double holds it exactly, as it does every
    burst up to 2^53.  For such a burst and requests_per_minute, of any
    sequence of calls no longer than the burst each is admitted in its
    first iteration without sleeping, whatever the clock readings. *)
Theorem limiter_from_configuration (now : Q) (name : string)
    (config : ServiceRateLimit.t) :
  let lim := fst (_create_limiter now name config) in
  (forall v, ServiceRateLimit.requests_per_minute config = Some v ->
             v <> 0%Z -> requests_per_minute lim = v) /\
  (ServiceRateLimit.requests_per_minute config = None \/
   ServiceRateLimit.requests_per_minute config = Some 0%Z ->
   requests_per_minute lim = 60%Z) /\
  (forall b, ServiceRateLimit.burst config = Some b ->
             b <> 0%Z -> burst lim = b) /\
  (ServiceRateLimit.burst config = None \/
   ServiceRateLimit.burst config = Some 0%Z ->
   burst lim = requests_per_minute lim) /\
  _tokens lim = float_of_int (burst lim) /\
  (exact_int (burst lim) -> _tokens lim = inject_Z (burst lim)) /\
  (exact_int (burst lim) -> exact_int (requests_per_minute lim) ->
   forall calls : list (nat * Q),
     Forall (fun c => (1 <= fst c)%nat) calls ->
     (Z.of_nat (length calls) <= burst lim)%Z ->
     Forall (fun r => admitted r = true /\ slept r = [])
            (fst (acquire_calls (sleep env) calls lim))).
Proof.
  unfold _create_limiter. cbn [fst].
  set (rpm := or_default (ServiceRateLimit.requests_per_minute config) 60).
  set (brst := or_default (ServiceRateLimit.burst config) rpm).
  change (requests_per_minute (__post_init__ rpm brst _ _ now)) with rpm.
  change (burst (__post_init__ rpm brst _ _ now)) with brst.
  split; [|split; [|split; [|split; [|split; [|split]]]]].
  - intros v Ev Hv. unfold rpm, or_default. rewrite Ev.
    destruct (Z.eqb_spec v 0); [contradiction | reflexivity].
  - intros [Ev|Ev]; unfold rpm, or_default; rewrite Ev; reflexivity.
  - intros b Eb Hb. unfold brst, or_default. rewrite Eb.
    destruct (Z.eqb_spec b 0); [contradiction | reflexivity].
  - intros [Eb|Eb]; unfold brst, or_default; rewrite Eb; reflexivity.
  - reflexivity.
  - intros Xb. apply post_init_tokens, Xb.
  - intros Xb Xr calls Hfuel Hlen.
    apply acquire_calls_at_once.
    + apply post_init_consistent; [lia | exact Xb | exact Xr].
    + exact Hfuel.
    + rewrite post_init_tokens by exact Xb. rewrite <- Zle_Qle. exact Hlen.
Qed.

(** ** Enqueueing a URL twice *)

Lemma entries_for_app (v : string) (q1 q2 : list Entry) :
  entries_for v (q1 ++ q2) = entries_for v q1 ++ entries_for v q2.
Proof. apply List.filter_app. Qed.

Lemma entries_for_none (v : string) (q : list Entry) :
  Forall (fun e => QueueItem.video_url (entry_item e) <> v) q ->
  entries_for v q = [].
Proof.
  induction 1 as [|e q He _ IH]; simpl; [reflexivity|].
  apply String.eqb_neq in He. rewrite He. exact IH.
Qed.

(** C9.  Two accepted calls of [add_to_queue] with the same URL, with
    any calls in between: after the second the map holds the second
    item under that URL, and the queue still holds the entry of the
    first call next to the entry of the second, under two different
    sequence numbers.  If the queue held no entry for that URL before
    and no call in between was for it, these two are exactly its
    entries for that URL. *)
Theorem duplicate_enqueue
    (first second : Enqueue) (between : list Enqueue)
    (self : QueueService) :
  url first = url second ->
  accepts env first = true -> accepts env second = true ->
  let s1 := snd (add_to_queue env first self) in
  let s2 := add_all env between s1 in
  let s3 := snd (add_to_queue env second s2) in
  exists (item1 item2 : QueueItem.t) (v : string),
    fst (add_to_queue env first self) = Some item1 /\
    fst (add_to_queue env second s2) = Some item2 /\
    http_url env (url first) = Some v /\
    QueueItem.video_url item1 = v /\ QueueItem.video_url item2 = v /\
    _items s1 !! url first = Some item1 /\
    _items s3 !! url first = Some item2 /\
    In ((- priority first)%Z, (_sequence self + 1)%Z, item1)
       (_priority_queue s3) /\
    In ((- priority second)%Z, (_sequence s2 + 1)%Z, item2)
       (_priority_queue s3) /\
    (_sequence self + 1 < _sequence s2 + 1)%Z /\
    (entries_for v (_priority_queue self) = [] ->
     Forall (fun c => http_url env (url c) <> Some v) between ->
     entries_for v (_priority_queue s3)
     = [((- priority second)%Z, (_sequence s2 + 1)%Z, item2);
        ((- priority first)%Z, (_sequence self + 1)%Z, item1)]).
Proof.
  intros Hurl Ha1 Ha2 s1 s2 s3.
  destruct (add_to_queue_accepted first self Ha1)
    as (item1 & Hnew1 & R1 & Q1 & S1 & I1).
  destruct (add_to_queue_accepted second s2 Ha2)
    as (item2 & Hnew2 & R2 & Q2 & S2 & I2).
  destruct (add_all_pushed between s1) as (pushed & Qb & Kb & Fb & Sb).
  fold s1 in Q1, S1, I1. fold s2 in Qb, Sb. fold s3 in Q2, S2, I2.
  apply new_item_fields in Hnew1, Hnew2.
  destruct Hnew1 as (U1 & _), Hnew2 as (U2 & _).
  exists item1, item2, (QueueItem.video_url item1).
  split; [exact R1|]. split; [exact R2|]. split; [exact U1|].
  split; [reflexivity|].
  assert (Ev : QueueItem.video_url item2 = QueueItem.video_url item1).
  { rewrite <- Hurl in U2. congruence. }
  split; [exact Ev|].
  split; [rewrite I1; apply lookup_insert_eq|].
  split; [rewrite I2, Hurl; apply lookup_insert_eq|].
  rewrite Q2, Qb, Q1.
  split; [right; apply in_or_app; right; left; reflexivity|].
  split; [left; reflexivity|].
  split; [rewrite Sb, S1; lia|].
  intros Hold Hbetween.
  change (?e :: rev pushed ++ ?q) with ([e] ++ rev pushed ++ q).
  rewrite entries_for_app, entries_for_app.
  change (?e :: _priority_queue self) with ([e] ++ _priority_queue self).
  rewrite entries_for_app, Hold.
  assert (Hp : entries_for (QueueItem.video_url item1) (rev pushed) = []).
  { apply entries_for_none. apply List.Forall_forall. intros e He.
    apply in_rev in He.
    assert (Hacc : Forall (fun c => http_url env (url c)
                                    <> Some (QueueItem.video_url item1))
                          (List.filter (accepts env) between)).
    { apply List.Forall_forall. intros c Hc.
      apply List.filter_In in Hc. destruct Hc as [Hc _].
      rewrite List.Forall_forall in Hbetween. apply Hbetween, Hc. }
    clear - Fb Hacc He. induction Fb as [|e' c' pushed' cs' [_ Hu] _ IH].
    - destruct He.
    - apply Forall_cons_iff in Hacc. destruct Hacc as [Hc' Hacc].
      destruct He as [->|He]; [|apply IH; assumption].
      intros E. apply Hc'. rewrite Hu, E. reflexivity. }
  rewrite Hp. unfold entries_for; simpl.
  unfold entry_item; simpl. rewrite Ev, String.eqb_refl. reflexivity.
Qed.

End WithEnv.

(** ** Concrete runs *)

(** The scenario of the specification: priorities 1, 5, 5 enqueued in
    that order are served second, third, first. *)
Example drain_order_1_5_5 :
  let loaded :=
    add_all plain_env [call "a" 1; call "b" 5; call "c" 5]
      (__init__ quiet_handler tight_limits 0) in
  let result := process_queue plain_env 2 loaded in
  map (fun e => QueueItem.video_url (entry_item e)) (fst (fst result))
  = ["b"; "c"; "a"]%string /\
  snd result = Returned /\
  map (fun u => QueueItem.status <$> _items (snd (fst result)) !! u)
      ["a"; "b"; "c"]%string
  = [Some QueueStatus.COMPLETED; Some QueueStatus.COMPLETED;
     Some QueueStatus.COMPLETED].
Proof. vm_compute. repeat split. Qed.

(** C1 at a failing input.  One item is enqueued; its handler reports
    an overall progress of 50 and then raises [RuntimeError].  The map
    holds 0 when the item is queued and when it is PROCESSING, 50 after
    the report, and 0 again once the item is FAILED. *)
Theorem overall_progress_drops_on_failure :
  let queued :=
    snd (add_to_queue plain_env (call video 0)
           (__init__ failing_handler [] 0)) in
  exists entry : Entry,
    pq_get (_priority_queue queued) = Some (entry, []) /\
    let item := entry_item entry in
    let taken := set_priority_queue queued [] in
    let began := begin_item plain_env 2 item taken in
    let started := snd (fst began) in
    let reported :=
      run_reports (QueueItem.video_url item)
        (_ingestion_handler started (fst (fst began))) started in
    let final := fst (_process_item plain_env 2 item taken) in
    ProgressUpdate.validated halfway = true /\
    QueueItem.overall_progress_percent <$> _items queued !! video
    = Some 0%Z /\
    QueueItem.overall_progress_percent <$> _items started !! video
    = Some 0%Z /\
    QueueItem.overall_progress_percent <$> _items reported !! video
    = Some 50%Z /\
    QueueItem.overall_progress_percent <$> _items final !! video
    = Some 0%Z /\
    QueueItem.status <$> _items final !! video = Some QueueStatus.FAILED /\
    snd (fst (process_queue plain_env 2 queued))
    = set_loop_time final (sleep plain_env (loop_time final) (1 # 20)).
Proof.
  cbv zeta. eexists. split; [vm_compute; reflexivity|].
  vm_compute. repeat split.
Qed.

(** ** Instances *)

Lemma tight_limits_validated :
  Forall (fun sc => ServiceRateLimit.validated (snd sc) = true) tight_limits.
Proof. repeat constructor. Qed.

Lemma tight_limits_exact :
  Forall (fun sc => in_double_range (snd sc)) tight_limits.
Proof.
  repeat constructor; simpl; apply exact_int_small; simpl; lia.
Qed.

Lemma picky_handler_errors : raises_only_errors picky_handler.
Proof.
  intros item exc. unfold picky_handler.
  destruct (String.eqb _ _); simpl; [|discriminate].
  intros [= <-]. reflexivity.
Qed.

Lemma two_videos_ready :
  limiters_ready two_videos /\ queue_consistent two_videos.
Proof.
  destruct (init_ready picky_handler tight_limits 0 tight_limits_validated
              tight_limits_exact)
    as [Hr Hc].
  split.
  - apply add_all_ready, Hr.
  - apply add_all_consistent, Hc.
Qed.

Lemma drain_in_priority_then_fifo_order_witness :
  let self := __init__ picky_handler tight_limits 0 in
  let calls := [call "a" 1; call video 5; call "c" 5] in
  let result := process_queue plain_env 2 (add_all plain_env calls self) in
  queue_consistent self /\
  StronglySorted runs_before (fst (fst result)) /\
  snd result = Returned.
Proof.
  intros self calls result.
  destruct (init_ready picky_handler tight_limits 0 tight_limits_validated
              tight_limits_exact)
    as [Hr Hc].
  destruct (drain_in_priority_then_fifo_order plain_env calls 2 self Hc)
    as (_ & Hsorted & _ & _ & Hreturns & _).
  split; [exact Hc|]. split; [exact Hsorted|].
  apply Hreturns.
  - exact exact_sleep_punctual.
  - apply add_all_ready, Hr.
  - destruct (add_all_frame plain_env calls self) as (_ & _ & ->).
    exact picky_handler_errors.
  - lia.
Defined.

Lemma completed_on_success_witness :
  let self := __init__ quiet_handler tight_limits 0 in
  exists (item : QueueItem.t) (self' : QueueService),
    fst (add_to_queue plain_env (call video 0) self) = Some item /\
    _process_item plain_env 2 item self = (self', Returned) /\
    QueueItem.status <$> _items self' !! video
    = Some QueueStatus.COMPLETED /\
    QueueItem.overall_progress_percent <$> _items self' !! video
    = Some 100%Z.
Proof.
  intros self.
  let v := eval vm_compute in (fst (add_to_queue plain_env (call video 0)
                                      (__init__ quiet_handler tight_limits 0)))
  in match v with Some ?i => pose (item := i) end.
  assert (Hrun : raised (_ingestion_handler self
                           (in_progress_copy item
                              (utcnow plain_env (utc_reads self)))) = None)
    by reflexivity.
  destruct (completed_on_success plain_env item self Hrun) as [Hdone Hadm].
  destruct (init_ready quiet_handler tight_limits 0 tight_limits_validated
              tight_limits_exact)
    as [Hr _].
  assert (Ha : admits plain_env 2 item self).
  { apply Hadm; [exact exact_sleep_punctual | exact Hr | lia]. }
  destruct (Hdone 2%nat Ha)
    as (self' & stored & finished & Hp & Hl & Hs & _ & _ & _ & Ho).
  exists item, self'.
  split; [vm_compute; reflexivity|]. split; [exact Hp|].
  change (QueueItem.video_url item) with video in Hl.
  rewrite Hl. simpl. rewrite Hs, Ho. split; reflexivity.
Defined.

Lemma terminal_copy_of_snapshot_witness :
  exists (entry : Entry) (rest : list Entry),
    pq_get (_priority_queue two_videos) = Some (entry, rest) /\
    let taken := set_priority_queue two_videos rest in
    admits plain_env 2 (entry_item entry) taken /\
    QueueItem.message
      <$> _items (fst (_process_item plain_env 2 (entry_item entry) taken))
            !! video
    = Some None.
Proof.
  let v := eval vm_compute in (pq_get (_priority_queue two_videos)) in
  match v with
  | Some (?e, ?r) => pose (entry := e); pose (rest := r)
  end.
  exists entry, rest.
  split; [vm_compute; reflexivity|]. intros taken.
  assert (Ha : admits plain_env 2 (entry_item entry) taken)
    by (vm_compute; reflexivity).
  split; [exact Ha|].
  destruct (terminal_copy_of_snapshot plain_env 2 (entry_item entry) taken Ha)
    as (_ & Hfailed & _).
  destruct (Hfailed network_down) as (Hl & Hm & _);
    [vm_compute; reflexivity | reflexivity |].
  change (QueueItem.video_url (entry_item entry)) with video in Hl.
  rewrite Hl. cbn [fmap option_fmap option_map]. rewrite Hm. reflexivity.
Defined.

Lemma limiter_from_configuration_witness :
  let lim :=
    fst (_create_limiter 0 "youtube_api"
           (ServiceRateLimit.mk (Some 30%Z) None)) in
  requests_per_minute lim = 30%Z /\
  burst lim = 30%Z /\
  _tokens lim = 30%Q /\
  Forall (fun r => admitted r = true /\ slept r = [])
         (fst (acquire_calls exact_sleep (repeat (1%nat, 0%Q) 30) lim)).
Proof.
  intros lim.
  assert (Xb : exact_int (burst lim))
    by (apply exact_int_small; vm_compute; discriminate).
  assert (Xr : exact_int (requests_per_minute lim))
    by (apply exact_int_small; vm_compute; discriminate).
  destruct (limiter_from_configuration plain_env 0 "youtube_api"
              (ServiceRateLimit.mk (Some 30%Z) None))
    as (Hrpm & _ & _ & Hburst & _ & Hlevel & Hcalls).
  fold lim in Hrpm, Hburst, Hlevel, Hcalls.
  assert (Er : requests_per_minute lim = 30%Z)
    by (apply Hrpm; [reflexivity | discriminate]).
  assert (Eb : burst lim = 30%Z)
    by (rewrite Hburst; [exact Er | left; reflexivity]).
  split; [exact Er|]. split; [exact Eb|].
  split; [rewrite (Hlevel Xb), Eb; reflexivity|].
  apply (Hcalls Xb Xr).
  - apply Forall_forall. intros c Hc. apply list_elem_of_In, repeat_spec in Hc.
    subst c.
    simpl. lia.
  - rewrite repeat_length, Eb. lia.
Defined.

(** C8, counterexample.  A burst of 2^53 + 3 is not a double: the
    limiter starts with the level 2^53 + 4, above its burst. *)
Lemma initial_level_above_burst :
  let lim :=
    fst (_create_limiter 0 "youtube_api"
           (ServiceRateLimit.mk None (Some (2 ^ 53 + 3)%Z))) in
  requests_per_minute lim = 60%Z /\
  burst lim = (2 ^ 53 + 3)%Z /\
  _tokens lim = inject_Z (2 ^ 53 + 4) /\
  ~ (_tokens lim == inject_Z (burst lim))%Q /\
  (inject_Z (burst lim) < _tokens lim)%Q.
Proof.
  intros lim.
  split; [reflexivity|]. split; [reflexivity|].
  split; [vm_compute; reflexivity|].
  split.
  - intros H. vm_compute in H. discriminate H.
  - vm_compute. reflexivity.
Qed.

Lemma duplicate_enqueue_witness :
  let self := __init__ quiet_handler [] 0 in
  let s3 :=
    add_all plain_env [call video 0; call "b" 3; call video 7] self in
  length (entries_for video (_priority_queue s3)) = 2%nat /\
  QueueItem.priority <$> _items s3 !! video = Some 7%Z.
Proof.
  intros self s3.
  assert (Hu : url (call video 0) = url (call video 7)) by reflexivity.
  assert (H1 : accepts plain_env (call video 0) = true) by reflexivity.
  assert (H2 : accepts plain_env (call video 7) = true) by reflexivity.
  destruct (duplicate_enqueue plain_env (call video 0) (call video 7)
              [call "b" 3] self Hu H1 H2)
    as (item1 & item2 & v & R1 & R2 & Hv & _ & _ & _ & Hmap & _ & _ & _ & Hq).
  assert (Ev : v = video).
  { change (http_url plain_env (url (call video 0))) with (Some video) in Hv.
    congruence. }
  subst v.
  split.
  - change s3 with
      (snd (add_to_queue plain_env (call video 7)
              (add_all plain_env [call "b" 3]
                 (snd (add_to_queue plain_env (call video 0) self))))).
    rewrite Hq; [reflexivity | reflexivity |].
    constructor; [vm_compute; discriminate | constructor].
  - change s3 with
      (snd (add_to_queue plain_env (call video 7)
              (add_all plain_env [call "b" 3]
                 (snd (add_to_queue plain_env (call video 0) self))))).
    change (url (call video 0)) with video in Hmap.
    rewrite Hmap. simpl. f_equal.
    vm_compute in R2. injection R2 as <-. reflexivity.
Defined.

End SchedulerFacts.
(* ================================================================== *)
(** * Further properties of the token bucket *)
(* ================================================================== *)

Module RateLimitMore.

Import RateLimit RateLimitFacts.

Local Open Scope Q_scope.

Lemma refill_last_grows (now : Q) (self : RateLimiter) :
  _last_refill self <= _last_refill (_refill now self).
Proof.
  unfold _refill. case_Qle; simpl; [lra|]. case_Qeq; simpl; lra.
Qed.

Lemma refill_capped (now : Q) (self : RateLimiter) :
  _tokens self <= inject_Z (burst self) ->
  _tokens (_refill now self) <= inject_Z (burst self).
Proof.
  intros H. unfold _refill.
  case_Qle; simpl; [exact H|]. case_Qeq; simpl; [exact H|].
  apply Q.le_min_l.
Qed.

Section Acquire.

Variable sleep : Q -> Q -> Q.

(** ** A bucket that cannot hold a token *)

Lemma acquire_loop_starved (fuel attempt : nat) (now : Q)
    (self : RateLimiter) :
  _tokens self <= inject_Z (burst self) -> (burst self <= 0)%Z ->
  let r := acquire_loop sleep fuel attempt now self in
  admitted r = false /\
  length (slept r) = Nat.min fuel (1024 - attempt) /\
  overflowed r = (1024 - attempt <? fuel)%nat /\
  _tokens (limiter r) <= inject_Z (burst self).
Proof.
  revert attempt now self.
  induction fuel as [|fuel IH]; intros attempt now self Hcap Hb.
  - simpl. repeat split. exact Hcap.
  - pose proof (refill_capped now self Hcap) as Hcap1.
    destruct (refill_fields now self) as (_ & Eb & _).
    assert (Hlow : _tokens (_refill now self) < 1).
    { rewrite (Zle_Qle (burst self) 0) in Hb.
      change (inject_Z 0) with 0 in Hb. lra. }
    destruct (suspension_cases (_refill now self) attempt)
      as [[Hlt Es]|[Hge Es]].
    + rewrite (acquire_loop_wait sleep fuel attempt now self _ Hlow Es).
      rewrite <- Eb in Hcap1.
      match goal with
      | |- context [acquire_loop sleep fuel (S attempt) ?t ?s] =>
          destruct (IH (S attempt) t s Hcap1 ltac:(rewrite Eb; exact Hb))
            as (Ha & Hl & Ho & Hc)
      end.
      cbv zeta. unfold after_sleep. cbn [admitted slept overflowed limiter].
      rewrite Eb in Hc.
      split; [exact Ha|]. split; [cbn [length]; rewrite Hl; lia|].
      split; [|exact Hc].
      rewrite Ho.
      destruct (Nat.ltb_spec (1024 - S attempt) fuel);
        destruct (Nat.ltb_spec (1024 - attempt) (S fuel)); try reflexivity; lia.
    + rewrite (acquire_loop_overflow sleep fuel attempt now self Hlow Es).
      cbv zeta. cbn [admitted slept overflowed limiter].
      split; [reflexivity|]. split; [cbn [length]; lia|].
      split; [|exact Hcap1].
      destruct (Nat.ltb_spec (1024 - attempt) (S fuel)); [reflexivity | lia].
Qed.

(** X2.  A limiter with positive requests_per_minute whose burst is zero
    or negative never admits.  A call of [acquire] that is given [fuel]
    iterations sleeps once in each of the first 1024 and is not
    admitted; the call that reaches the next iteration ends there with
    the OverflowError of [2**attempt], after exactly 1024 sleeps.  This
    holds whatever the clock does and for every call made on the
    limiter, also after a call that raised. *)
Theorem starved_limiter_never_admits (rpm brst : Z) (base maxb t0 : Q)
    (calls : list (nat * Q)) :
  (0 < rpm)%Z -> (brst <= 0)%Z -> exact_int brst ->
  Forall2 (fun c r => admitted r = false /\
                      length (slept r) = Nat.min (fst c) 1024 /\
                      overflowed r = (1024 <? fst c)%nat)
          calls
          (fst (acquire_calls sleep calls
                  (__post_init__ rpm brst base maxb t0))).
Proof.
  intros Hrpm Hb Hx.
  assert (H : forall self,
             requests_per_minute self = rpm -> burst self = brst ->
             _tokens self <= inject_Z (burst self) ->
             Forall2 (fun c r => admitted r = false /\
                                 length (slept r) = Nat.min (fst c) 1024 /\
                                 overflowed r = (1024 <? fst c)%nat)
                     calls (fst (acquire_calls sleep calls self))).
  { induction calls as [|[fuel now] calls IH]; intros self Er Eb Hcap; simpl.
    - constructor.
    - assert (Ea : acquire sleep fuel now self
                   = acquire_loop sleep fuel 0 now self).
      { unfold acquire. rewrite Er.
        destruct (Z.leb_spec rpm 0); [lia|reflexivity]. }
      destruct (acquire_loop_starved fuel 0 now self Hcap
                  ltac:(rewrite Eb; exact Hb)) as (Ha & Hl & Ho & Hc).
      destruct (acquire_loop_fields sleep fuel 0 now self) as (Fr & Fb & _).
      rewrite <- Ea in Ha, Hl, Ho, Hc, Fr, Fb.
      specialize (IH (limiter (acquire sleep fuel now self))).
      destruct (acquire_calls sleep calls
                  (limiter (acquire sleep fuel now self))) as [rs self'].
      simpl in *. constructor; [repeat split; assumption|].
      apply IH; [congruence | congruence | rewrite Fb; exact Hc]. }
  apply H; try reflexivity.
  rewrite post_init_tokens by exact Hx. simpl. apply Qle_refl.
Qed.

(** ** How long a call sleeps *)

Lemma two_pow_ge_1 (k : nat) : 1 <= inject_Z (2 ^ Z.of_nat k).
Proof.
  change 1 with (inject_Z 1). rewrite <- Zle_Qle.
  pose proof (Z.pow_pos_nonneg 2 (Z.of_nat k)). lia.
Qed.

Lemma backoff_bounds (self : RateLimiter) (attempt : nat) (b : Q) :
  0 <= backoff_base_seconds self ->
  backoff self attempt = Some b ->
  Qmin (max_backoff_seconds self) (backoff_base_seconds self) <= b /\
  b <= max_backoff_seconds self.
Proof.
  intros Hbase. unfold backoff.
  destruct (1024 <=? Z.of_nat attempt)%Z; [discriminate|].
  intros [= <-]. split; [|apply Q.le_min_l].
  apply Q.min_le_compat_l.
  pose proof (two_pow_ge_1 attempt). nra.
Qed.

Lemma acquire_loop_sleeps_bounded (fuel attempt : nat) (now : Q)
    (self : RateLimiter) :
  0 <= backoff_base_seconds self ->
  0 < _refill_rate self -> tokens_in_range self ->
  Forall (fun d =>
            Qmin (max_backoff_seconds self) (backoff_base_seconds self) <= d
            /\ d <= Qmax (1 / _refill_rate self) (max_backoff_seconds self))
         (slept (acquire_loop sleep fuel attempt now self)).
Proof.
  revert attempt now self.
  induction fuel as [|fuel IH]; intros attempt now self Hbase Hrate Hlo;
    [simpl; constructor|].
  destruct (refill_fields now self) as (_ & _ & Eb & Em & Erate).
  assert (Hin1 : tokens_in_range (_refill now self))
    by (apply refill_in_range; [exact Hlo | lra]).
  pose proof (proj1 Hin1) as Hlo1.
  destruct (Qlt_le_dec (_tokens (_refill now self)) 1) as [Hlow|Hfull];
    [|rewrite acquire_loop_admit by exact Hfull; constructor].
  destruct (suspension_cases (_refill now self) attempt)
    as [[Hlt Es]|[Hge Es]];
    [|rewrite (acquire_loop_overflow sleep fuel attempt now self Hlow Es);
      constructor].
  rewrite (acquire_loop_wait sleep fuel attempt now self _ Hlow Es).
  unfold after_sleep. cbn [slept].
  constructor.
  - destruct (backoff_bounds (_refill now self) attempt _
                ltac:(rewrite Eb; exact Hbase)
                (backoff_below (_refill now self) attempt Hlt))
      as [Hb1 Hb2].
    rewrite Eb, Em in Hb1. rewrite Em in Hb2.
    unfold wait_time. rewrite Erate.
    destruct (Qeq_bool (_refill_rate self) 0) eqn:Ez;
      [apply Qeq_bool_iff in Ez; lra|].
    rewrite Eb, Em in *.
    split.
    + eapply Qle_trans; [exact Hb1 | apply Q.le_max_r].
    + apply Q.max_lub.
      * eapply Qle_trans; [|apply Q.le_max_l].
        unfold Qdiv. apply Qmult_le_compat_r; [lra|].
        apply Qinv_le_0_compat. lra.
      * eapply Qle_trans; [exact Hb2 | apply Q.le_max_r].
  - match goal with
    | |- context [acquire_loop sleep fuel (S attempt) ?t ?s] =>
        specialize (IH (S attempt) t s)
    end.
    rewrite ?Eb, ?Em in IH. rewrite ?Eb, ?Em. rewrite Erate in IH.
    apply IH; assumption.
Qed.

(** X3.  A call of [acquire] on a consistent limiter with a positive
    rate and a base backoff that is not negative never sleeps for less
    than min(max_backoff, base) (no busy polling) nor for more than
    max(1 / refill_rate, max_backoff). *)
Theorem sleeps_bounded (fuel : nat) (now : Q) (self : RateLimiter) :
  consistent self ->
  0 <= backoff_base_seconds self ->
  0 < _refill_rate self ->
  Forall (fun d =>
            Qmin (max_backoff_seconds self) (backoff_base_seconds self) <= d
            /\ d <= Qmax (1 / _refill_rate self) (max_backoff_seconds self))
         (slept (acquire sleep fuel now self)).
Proof.
  intros [Hlo _] Hbase Hrate. unfold acquire.
  destruct (requests_per_minute self <=? 0)%Z; simpl; [constructor|].
  apply acquire_loop_sleeps_bounded; assumption.
Qed.

End Acquire.

(** X5.  Refilling twice at the same clock reading is refilling once,
    and a refill never moves the time of the last refill backwards. *)
Theorem refill_idempotent (now : Q) (self : RateLimiter) :
  _refill now (_refill now self) = _refill now self /\
  _last_refill self <= _last_refill (_refill now self).
Proof.
  split; [|apply refill_last_grows].
  unfold _refill at 2 3.
  destruct (Qle_bool (now - _last_refill self) 0
            || Qeq_bool (_refill_rate self) 0) eqn:E.
  - unfold _refill. rewrite E. reflexivity.
  - unfold _refill. simpl.
    assert (H : Qle_bool (now - now) 0 = true)
      by (apply Qle_bool_iff; lra).
    rewrite H. reflexivity.
Qed.

Lemma starved_limiter_never_admits_witness :
  ((0 < 60)%Z /\ (0 <= 0)%Z) /\
  Forall2 (fun c r => admitted r = false /\
                      length (slept r) = Nat.min (fst c) 1024 /\
                      overflowed r = (1024 <? fst c)%nat)
          [(3%nat, 0); (1030%nat, 10)]
          (fst (acquire_calls exact_sleep [(3%nat, 0); (1030%nat, 10)]
                  (__post_init__ 60 0 (1 # 2) 5 0))).
Proof.
  assert (H1 : (0 < 60)%Z) by lia. assert (H2 : (0 <= 0)%Z) by lia.
  assert (H3 : exact_int 0) by (apply exact_int_small; simpl; lia).
  split; [split; assumption|].
  exact (starved_limiter_never_admits exact_sleep 60 0 (1 # 2) 5 0
           [(3%nat, 0); (1030%nat, 10)] H1 H2 H3).
Defined.

Lemma one_per_second_consistent : consistent one_per_second.
Proof.
  apply post_init_consistent;
    [lia | apply exact_int_small; simpl; lia
         | apply exact_int_small; simpl; lia].
Qed.

Lemma sleeps_bounded_witness :
  Forall (fun d => Qmin 5 (1 # 2) <= d /\ d <= Qmax (1 / (60 / 60)) 5)
         (slept (acquire exact_sleep 4 0
                   (limiter (acquire exact_sleep 4 0 one_per_second)))).
Proof.
  assert (Hc : consistent (limiter (acquire exact_sleep 4 0 one_per_second)))
    by apply acquire_consistent, one_per_second_consistent.
  assert (Hb : 0 <= backoff_base_seconds
                      (limiter (acquire exact_sleep 4 0 one_per_second)))
    by (vm_compute; discriminate).
  assert (Hr : 0 < _refill_rate
                     (limiter (acquire exact_sleep 4 0 one_per_second)))
    by (vm_compute; reflexivity).
  exact (sleeps_bounded exact_sleep 4 0 _ Hc Hb Hr).
Defined.

End RateLimitMore.

(* ================================================================== *)
(** * Further properties of the scheduler *)
(* ================================================================== *)

Module SchedulerMore.

Import RateLimit RateLimitFacts Scheduler SchedulerFacts StatusReport.

(** ** [get_queue_status] *)

Lemma count_item_comm (c : Counts) (x y : QueueItem.t) :
  count_item (count_item c x) y = count_item (count_item c y) x.
Proof.
  unfold count_item.
  destruct (QueueItem.status x), (QueueItem.status y); simpl; reflexivity.
Qed.

Lemma with_status_insert_new (s : QueueStatus.t) (k : string)
    (x : QueueItem.t) (m : gmap string QueueItem.t) :
  m !! k = None ->
  size (with_status s (<[k := x]> m))
  = (if decide (QueueItem.status x = s) then S (size (with_status s m))
     else size (with_status s m)).
Proof.
  intros Hk. unfold with_status. rewrite map_filter_insert. simpl.
  destruct (decide (QueueItem.status x = s)).
  - rewrite map_size_insert_None; [reflexivity|].
    apply map_lookup_filter_None. left. exact Hk.
  - rewrite delete_id by exact Hk. reflexivity.
Qed.

Lemma counts_are_sizes (m : gmap string QueueItem.t) :
  let counts :=
    map_fold (fun _ item counts => count_item counts item)
      (mkCounts 0 0 0 0) m in
  n_queued counts = Z.of_nat (size (with_status QueueStatus.QUEUED m)) /\
  n_processing counts
  = Z.of_nat (size (with_status QueueStatus.PROCESSING m)) /\
  n_completed counts
  = Z.of_nat (size (with_status QueueStatus.COMPLETED m)) /\
  n_failed counts = Z.of_nat (size (with_status QueueStatus.FAILED m)) /\
  (n_queued counts + n_processing counts + n_completed counts
   + n_failed counts)%Z = Z.of_nat (size m).
Proof.
  cbv zeta.
  apply (map_fold_weak_ind
           (fun counts m =>
              n_queued counts
              = Z.of_nat (size (with_status QueueStatus.QUEUED m)) /\
              n_processing counts
              = Z.of_nat (size (with_status QueueStatus.PROCESSING m)) /\
              n_completed counts
              = Z.of_nat (size (with_status QueueStatus.COMPLETED m)) /\
              n_failed counts
              = Z.of_nat (size (with_status QueueStatus.FAILED m)) /\
              (n_queued counts + n_processing counts + n_completed counts
               + n_failed counts)%Z = Z.of_nat (size m))).
  - unfold with_status. rewrite !map_filter_empty, !map_size_empty.
    repeat split.
  - intros k x m' counts Hk (Hq & Hp & Hc & Hf & Ht).
    rewrite !with_status_insert_new by exact Hk.
    rewrite map_size_insert_None by exact Hk.
    unfold count_item.
    destruct (QueueItem.status x); simpl;
      repeat (destruct (decide _) as [?|?]; try congruence);
      repeat split; lia.
Qed.

Lemma status_sizes (self : QueueService) :
  let st := get_queue_status self in
  queued st = Z.of_nat (size (with_status QueueStatus.QUEUED (_items self))) /\
  processing st
  = Z.of_nat (size (with_status QueueStatus.PROCESSING (_items self))) /\
  completed st
  = Z.of_nat (size (with_status QueueStatus.COMPLETED (_items self))) /\
  failed st = Z.of_nat (size (with_status QueueStatus.FAILED (_items self))) /\
  total st = Z.of_nat (size (_items self)).
Proof.
  destruct (counts_are_sizes (_items self)) as (Hq & Hp & Hc & Hf & Ht).
  unfold get_queue_status. simpl.
  rewrite Hq, Hp, Hc, Hf in *.
  repeat split; lia.
Qed.

(** X6.  [get_queue_status] counts, for each of the four states, the
    entries of the map in that state; the four counts are not negative
    and [total] is their sum and the number of entries of the map. *)
Theorem queue_status_counts (self : QueueService) :
  let st := get_queue_status self in
  queued st = Z.of_nat (size (with_status QueueStatus.QUEUED (_items self))) /\
  processing st
  = Z.of_nat (size (with_status QueueStatus.PROCESSING (_items self))) /\
  completed st
  = Z.of_nat (size (with_status QueueStatus.COMPLETED (_items self))) /\
  failed st = Z.of_nat (size (with_status QueueStatus.FAILED (_items self))) /\
  total st = Z.of_nat (size (_items self)) /\
  total st = (queued st + processing st + completed st + failed st)%Z /\
  (0 <= queued st)%Z /\ (0 <= processing st)%Z /\
  (0 <= completed st)%Z /\ (0 <= failed st)%Z.
Proof.
  destruct (counts_are_sizes (_items self)) as (Hq & Hp & Hc & Hf & Ht).
  unfold get_queue_status. simpl.
  rewrite Hq, Hp, Hc, Hf in *.
  repeat split; lia.
Qed.

Lemma with_status_all (s : QueueStatus.t) (m : gmap string QueueItem.t) :
  (forall k item, m !! k = Some item -> QueueItem.status item = s) ->
  with_status s m = m.
Proof.
  intros H. unfold with_status. apply map_filter_id.
  intros k item Hk. simpl. eapply H, Hk.
Qed.

Lemma with_status_none (s : QueueStatus.t) (m : gmap string QueueItem.t) :
  (forall k item, m !! k = Some item -> QueueItem.status item <> s) ->
  with_status s m = ∅.
Proof.
  intros H. unfold with_status. apply map_empty_filter.
  intros k item Hk. simpl. eapply H, Hk.
Qed.

Section WithEnv.

Variable env : Env.

(** ** What [add_to_queue] does to the map *)

Lemma add_all_items (calls : list Enqueue) (self : QueueService) :
  dom (_items (add_all env calls self))
  = dom (_items self)
    ∪ (list_to_set (map url (List.filter (accepts env) calls)) : gset string)
  /\
  (forall k item,
     _items (add_all env calls self) !! k = Some item ->
     _items self !! k = Some item \/
     QueueItem.status item = QueueStatus.QUEUED).
Proof.
  unfold add_all. revert self.
  induction calls as [|c calls IH]; intros self; simpl.
  - split; [rewrite union_empty_r_L; reflexivity | tauto].
  - destruct (IH (snd (add_to_queue env c self))) as [IHd IHs].
    destruct (accepts env c) eqn:Ha.
    + destruct (add_to_queue_accepted env c self Ha)
        as (item & Hnew & _ & _ & _ & Ei).
      apply new_item_fields in Hnew. destruct Hnew as (_ & _ & Hst & _).
      split.
      * rewrite IHd, Ei, dom_insert_L. simpl map.
        rewrite list_to_set_cons, (comm_L (∪) {[url c]} (dom (_items self))).
        rewrite (assoc_L (∪)). reflexivity.
      * intros k it Hk. destruct (IHs k it Hk) as [Hold|Hq]; [|tauto].
        rewrite Ei in Hold.
        destruct (decide (url c = k)) as [<-|Hne].
        -- rewrite lookup_insert_eq in Hold. injection Hold as <-. tauto.
        -- rewrite lookup_insert_ne in Hold by exact Hne. tauto.
    + rewrite (add_to_queue_rejected env c self Ha) in *. simpl in *.
      split; [exact IHd | exact IHs].
Qed.

(** X7.  On a scheduler just constructed, after any sequence of
    [add_to_queue] calls the map has one entry per distinct URL of an
    accepted call, all QUEUED: [get_queue_status] reports that number as
    [queued] and as [total], and zero for the other states. *)
Theorem status_after_enqueues
    (handler : IngestionHandler)
    (rate_limits : list (string * ServiceRateLimit.t)) (now : Q)
    (calls : list Enqueue) :
  let loaded := add_all env calls (__init__ handler rate_limits now) in
  let distinct :=
    size (list_to_set (map url (List.filter (accepts env) calls))
            : gset string) in
  dom (_items loaded)
  = (list_to_set (map url (List.filter (accepts env) calls)) : gset string) /\
  get_queue_status loaded
  = {| queued := Z.of_nat distinct;
       processing := 0;
       completed := 0;
       failed := 0;
       total := Z.of_nat distinct |}.
Proof.
  intros loaded distinct.
  destruct (add_all_items calls (__init__ handler rate_limits now))
    as [Hd Hs].
  fold loaded in Hd, Hs.
  assert (E0 : _items (__init__ handler rate_limits now) = ∅).
  { unfold __init__. destruct (load_rate_limits _ _ _ _). reflexivity. }
  rewrite E0, dom_empty_L in Hd.
  assert (Hdom : dom (_items loaded)
                 = (list_to_set (map url (List.filter (accepts env) calls))
                    : gset string))
    by (rewrite Hd, union_empty_l_L; reflexivity).
  split; [exact Hdom|].
  assert (Hall : forall k item,
             _items loaded !! k = Some item ->
             QueueItem.status item = QueueStatus.QUEUED).
  { intros k item Hk. destruct (Hs k item Hk) as [Hold|Hq]; [|exact Hq].
    rewrite E0, lookup_empty in Hold. discriminate. }
  assert (Hsize : size (_items loaded) = distinct).
  { unfold distinct. rewrite <- Hdom. symmetry. apply size_dom. }
  destruct (status_sizes loaded) as (Hq & Hp & Hc & Hf & Ht).
  cbv zeta in *.
  rewrite (with_status_all _ _ Hall) in Hq.
  rewrite with_status_none in Hp
    by (intros k item Hk; rewrite (Hall k item Hk); discriminate).
  rewrite with_status_none in Hc
    by (intros k item Hk; rewrite (Hall k item Hk); discriminate).
  rewrite with_status_none in Hf
    by (intros k item Hk; rewrite (Hall k item Hk); discriminate).
  rewrite map_size_empty in Hp, Hc, Hf. rewrite Hsize in Hq, Ht.
  destruct (get_queue_status loaded) as [q p c f t]. simpl in *.
  rewrite Hq, Hp, Hc, Hf, Ht. reflexivity.
Qed.

(** X8.  [add_to_queue] accepts a call exactly when the URL validates
    and summary_length is at least 1.  A rejected call returns no item
    and leaves the queue, the map, the sequence counter, the limiters
    and the console as they were; it has only read the wall clock. *)
Theorem rejected_enqueue_changes_nothing (c : Enqueue) (self : QueueService) :
  (accepts env c = true <->
   is_Some (http_url env (url c)) /\ (1 <= summary_length c)%Z) /\
  (is_Some (fst (add_to_queue env c self)) <-> accepts env c = true) /\
  (accepts env c = false ->
   let self' := snd (add_to_queue env c self) in
   _priority_queue self' = _priority_queue self /\
   _items self' = _items self /\
   _sequence self' = _sequence self /\
   _rate_limiters self' = _rate_limiters self /\
   _console self' = _console self /\
   loop_time self' = loop_time self /\
   utc_reads self' = S (utc_reads self)).
Proof.
  split; [|split].
  - unfold accepts. destruct (http_url env (url c)) as [v|]; simpl.
    + rewrite Z.leb_le. split; [intros H; split; [eexists; reflexivity|exact H]
                                |intros [_ H]; exact H].
    + split; [discriminate | intros [[v Hv] _]; discriminate].
  - destruct (accepts env c) eqn:Ha.
    + destruct (add_to_queue_accepted env c self Ha) as (item & _ & -> & _).
      split; [reflexivity | intros _; eexists; reflexivity].
    + rewrite (add_to_queue_rejected env c self Ha). simpl.
      split; [intros [x Hx]; discriminate | discriminate].
  - intros Ha. rewrite (add_to_queue_rejected env c self Ha). simpl.
    repeat split.
Qed.

(** ** The progress callback over a run of reports *)

Lemma fold_max_ge (l : list Z) (a : Z) : (a <= fold_left Z.max l a)%Z.
Proof.
  revert a. induction l as [|x l IH]; intros a; simpl; [lia|].
  specialize (IH (Z.max a x)). lia.
Qed.

Lemma run_reports_lookup (u : string) (updates : list ProgressUpdate.t)
    (ending : option BaseException) (self : QueueService)
    (current : QueueItem.t) :
  _items self !! u = Some current ->
  exists f,
    _items (run_reports u (mkHandlerRun updates ending) self) !! u = Some f /\
    QueueItem.overall_progress_percent f
    = fold_left Z.max (map ProgressUpdate.overall_progress updates)
        (QueueItem.overall_progress_percent current) /\
    callback_touched current f /\
    match last updates with
    | None => f = current
    | Some r =>
        QueueItem.current_stage f = Some (ProgressUpdate.stage r) /\
        QueueItem.stage_progress_percent f = ProgressUpdate.stage_progress r /\
        QueueItem.message f = Some (ProgressUpdate.message r)
    end.
Proof.
  unfold run_reports; simpl. revert self current.
  induction updates as [|r updates IH]; intros self current Hk; simpl.
  - exists current. split; [exact Hk|]. split; [reflexivity|].
    split; [destruct current; reflexivity | reflexivity].
  - destruct (progress_callback_overall u self r current Hk)
      as (stored & Hs & Ho & Hst & Hsp & Hm).
    assert (Ht : callback_touched current stored).
    { revert Hs. unfold _progress_callback_for. rewrite Hk. simpl.
      rewrite lookup_insert_eq. intros [= <-].
      destruct current; reflexivity. }
    destruct (IH _ stored Hs) as (f & Hf & Hfo & Hft & Hlast).
    exists f. split; [exact Hf|]. split; [rewrite Hfo, Ho; reflexivity|].
    split.
    + unfold callback_touched in *. rewrite Hft at 1. rewrite Ht.
      destruct current; reflexivity.
    + rewrite last_cons. destruct (last updates) as [y|];
        [exact Hlast | subst f; repeat split; assumption].
Qed.

(** X9.  While the handler of an item reports, the stored overall
    percentage never goes down: after any prefix of the reports it is
    the maximum of the value before and the values reported so far, so
    it is at most the value after the whole run.  The callback changes
    nothing but stage, the two percentages and the message, which are
    those of the latest report; a URL that is not in the map makes it a
    no-op. *)
Theorem reports_keep_overall_monotone
    (u : string) (before after : list ProgressUpdate.t)
    (ending : option BaseException) (self : QueueService)
    (current : QueueItem.t) :
  _items self !! u = Some current ->
  exists (mid final : QueueItem.t),
    _items (run_reports u (mkHandlerRun before ending) self) !! u
    = Some mid /\
    _items (run_reports u (mkHandlerRun (before ++ after) ending) self) !! u
    = Some final /\
    (QueueItem.overall_progress_percent current
     <= QueueItem.overall_progress_percent mid)%Z /\
    (QueueItem.overall_progress_percent mid
     <= QueueItem.overall_progress_percent final)%Z /\
    QueueItem.overall_progress_percent final
    = fold_left Z.max
        (map ProgressUpdate.overall_progress (before ++ after))
        (QueueItem.overall_progress_percent current) /\
    callback_touched current final /\
    (forall r, last (before ++ after) = Some r ->
               QueueItem.current_stage final = Some (ProgressUpdate.stage r) /\
               QueueItem.stage_progress_percent final
               = ProgressUpdate.stage_progress r /\
               QueueItem.message final = Some (ProgressUpdate.message r)).
Proof.
  intros Hk.
  destruct (run_reports_lookup u before ending self current Hk)
    as (mid & Hm & Hmo & _ & _).
  destruct (run_reports_lookup u (before ++ after) ending self current Hk)
    as (final & Hf & Hfo & Hft & Hlast).
  exists mid, final. split; [exact Hm|]. split; [exact Hf|].
  split; [rewrite Hmo; apply fold_max_ge|].
  split; [rewrite Hfo, Hmo, map_app, fold_left_app; apply fold_max_ge|].
  split; [exact Hfo|]. split; [exact Hft|].
  intros r Hr. rewrite Hr in Hlast. exact Hlast.
Qed.

Lemma run_reports_missing (u : string) (run : HandlerRun)
    (self : QueueService) :
  _items self !! u = None -> run_reports u run self = self.
Proof.
  intros Hk. unfold run_reports. induction (reports run) as [|r l IH]; simpl;
    [reflexivity|].
  unfold _progress_callback_for at 2. rewrite Hk. exact IH.
Qed.

(** ** Percentages stay percentages *)

Lemma insert_in_range (k : string) (x : QueueItem.t)
    (m : gmap string QueueItem.t) :
  item_in_range x -> map_in_range m -> map_in_range (<[k := x]> m).
Proof.
  intros Hx Hm j y. destruct (decide (k = j)) as [<-|Hne].
  - rewrite lookup_insert_eq. intros [= <-]. exact Hx.
  - rewrite lookup_insert_ne by exact Hne. apply Hm.
Qed.

Lemma validated_in_range (r : ProgressUpdate.t) :
  ProgressUpdate.validated r = true ->
  percent (ProgressUpdate.stage_progress r) /\
  percent (ProgressUpdate.overall_progress r).
Proof.
  unfold ProgressUpdate.validated, percent. rewrite !andb_true_iff.
  rewrite !Z.leb_le. tauto.
Qed.

Lemma run_reports_in_range (u : string) (run : HandlerRun)
    (self : QueueService) :
  Forall (fun r => ProgressUpdate.validated r = true) (reports run) ->
  map_in_range (_items self) ->
  map_in_range (_items (run_reports u run self)).
Proof.
  unfold run_reports. generalize (reports run) as updates.
  intros updates Hv. revert self.
  induction Hv as [|r updates Hr _ IH]; intros self Hm; simpl; [exact Hm|].
  apply IH. unfold _progress_callback_for.
  destruct (_items self !! u) as [current|] eqn:Hk; simpl; [|exact Hm].
  apply insert_in_range; [|exact Hm].
  destruct (validated_in_range r Hr) as [Hs Ho].
  destruct (Hm u current Hk) as [_ Hc].
  unfold item_in_range, percent in *. simpl. lia.
Qed.

Lemma process_item_in_range (fuel : nat) (item : QueueItem.t)
    (self : QueueService) :
  reports_validated (_ingestion_handler self) ->
  item_in_range item ->
  map_in_range (_items self) ->
  map_in_range (_items (fst (_process_item env fuel item self))).
Proof.
  intros Hv Hitem Hm.
  pose proof (begin_item_frame env fuel item self) as (_ & _ & _ & _ & Ei).
  cbv zeta in Ei.
  set (ip := in_progress_copy item (utcnow env (utc_reads self))) in *.
  assert (Hip : item_in_range ip).
  { destruct Hitem as [_ Ho]. unfold item_in_range, percent in *.
    simpl. lia. }
  assert (Hm1 : map_in_range
                  (_items (snd (fst (begin_item env fuel item self))))).
  { rewrite Ei. apply insert_in_range; assumption. }
  destruct (snd (begin_item env fuel item self)) eqn:Hok.
  - rewrite (process_item_admitted env fuel item self Hok). cbv zeta.
    fold ip.
    set (run := _ingestion_handler self ip).
    pose proof (run_reports_in_range (QueueItem.video_url item) run _
                  (Hv ip) Hm1) as Hm2.
    unfold finish_item, except_Exception, datetime_now.
    destruct (raised run) as [exc|];
      [destruct (isinstance_Exception exc)|]; simpl.
    + apply insert_in_range; [|exact Hm2]. exact Hip.
    + exact Hm2.
    + apply insert_in_range; [|exact Hm2].
      unfold item_in_range, percent. simpl. lia.
  - rewrite (process_item_waiting env fuel item self Hok). exact Hm1.
  - rewrite (process_item_raised env fuel item self exc Hok). fold ip.
    unfold except_Exception, datetime_now.
    destruct (isinstance_Exception exc); simpl; [|exact Hm1].
    apply insert_in_range; [exact Hip | exact Hm1].
Qed.

Lemma loop_in_range (n fuel : nat) (self : QueueService) :
  reports_validated (_ingestion_handler self) ->
  percentages_in_range self ->
  percentages_in_range (snd (fst (process_queue_loop env n fuel self))).
Proof.
  revert self. induction n as [|n IH]; intros self Hv [Hm Hq]; simpl.
  - destruct (pq_get (_priority_queue self)) as [[entry rest]|]; simpl;
      split; assumption.
  - destruct (pq_get (_priority_queue self)) as [[entry rest]|] eqn:E; simpl;
      [|split; assumption].
    pose proof (pq_get_perm _ _ _ E) as P. rewrite P in Hq.
    apply Forall_cons_iff in Hq. destruct Hq as [He Hrest].
    pose proof (process_item_in_range fuel (entry_item entry)
                  (set_priority_queue self rest) Hv He Hm) as Hm1.
    pose proof (process_item_frame env fuel (entry_item entry)
                  (set_priority_queue self rest)) as ((Uh & Uq & _) & _).
    destruct (_process_item env fuel (entry_item entry)
                (set_priority_queue self rest)) as [self1 out].
    simpl in *.
    assert (H1 : percentages_in_range self1)
      by (split; [exact Hm1 | rewrite Uq; exact Hrest]).
    destruct out; simpl; try exact H1.
    specialize (IH self1). rewrite Uh in IH. specialize (IH Hv H1).
    destruct (process_queue_loop env n fuel self1) as [[popped self2] out2].
    exact IH.
Qed.

(** X10.  [model_copy] does not validate, yet the percentages stay
    percentages: if every item held in the map and in the queue has both
    percentages within 0..100 and the handler reports validated updates,
    the same holds after any [add_to_queue] calls and after
    [process_queue], however it ends. *)
Theorem percentages_stay_in_range
    (calls : list Enqueue) (fuel : nat) (self : QueueService) :
  percentages_in_range self ->
  reports_validated (_ingestion_handler self) ->
  percentages_in_range (add_all env calls self) /\
  percentages_in_range
    (snd (fst (process_queue env fuel (add_all env calls self)))).
Proof.
  intros Hr Hv.
  assert (Hadd : percentages_in_range (add_all env calls self)).
  { clear Hv. unfold add_all. revert self Hr.
    induction calls as [|c calls IH]; intros self Hr; simpl; [exact Hr|].
    apply IH. destruct Hr as [Hm Hq].
    destruct (accepts env c) eqn:Ha.
    - destruct (add_to_queue_accepted env c self Ha)
        as (item & Hnew & _ & Eq & _ & Ei).
      apply new_item_fields in Hnew.
      destruct Hnew as (_ & _ & _ & Hs & Ho & _).
      assert (Hi : item_in_range item)
        by (unfold item_in_range, percent; rewrite Hs, Ho; lia).
      split.
      + rewrite Ei. apply insert_in_range; assumption.
      + rewrite Eq. constructor; assumption.
    - rewrite (add_to_queue_rejected env c self Ha). simpl.
      split; assumption. }
  split; [exact Hadd|].
  apply loop_in_range; [|exact Hadd].
  destruct (add_all_frame env calls self) as (_ & _ & ->). exact Hv.
Qed.

(** ** What a drain leaves in the map *)

Lemma process_item_returned (fuel : nat) (item : QueueItem.t)
    (self : QueueService) :
  snd (_process_item env fuel item self) = Returned ->
  exists stored,
    _items (fst (_process_item env fuel item self)) !! QueueItem.video_url item
    = Some stored /\
    terminal (QueueItem.status stored).
Proof.
  destruct (snd (begin_item env fuel item self)) eqn:Hok.
  - rewrite (process_item_admitted env fuel item self Hok). cbv zeta.
    unfold finish_item, except_Exception, datetime_now.
    destruct (raised _) as [exc|];
      [destruct (isinstance_Exception exc)|]; simpl; try discriminate;
      intros _; eexists; (split; [apply lookup_insert_eq|]).
    + right. reflexivity.
    + left. reflexivity.
  - rewrite (process_item_waiting env fuel item self Hok). discriminate.
  - rewrite (process_item_raised env fuel item self exc Hok).
    unfold except_Exception, datetime_now.
    destruct (isinstance_Exception exc); simpl; try discriminate.
    intros _. eexists. split; [apply lookup_insert_eq|].
    right. reflexivity.
Qed.

Lemma loop_map_frame (n fuel : nat) (self : QueueService) (k : string) :
  (forall e, In e (_priority_queue self) ->
             QueueItem.video_url (entry_item e) <> k) ->
  _items (snd (fst (process_queue_loop env n fuel self))) !! k
  = _items self !! k.
Proof.
  revert self. induction n as [|n IH]; intros self Hq; simpl.
  - destruct (pq_get (_priority_queue self)) as [[entry rest]|]; reflexivity.
  - destruct (pq_get (_priority_queue self)) as [[entry rest]|] eqn:E; simpl;
      [|reflexivity].
    pose proof (pq_get_perm _ _ _ E) as P.
    pose proof (process_item_frame env fuel (entry_item entry)
                  (set_priority_queue self rest)) as ((_ & Uq & _) & Ui).
    assert (He : QueueItem.video_url (entry_item entry) <> k).
    { apply Hq. eapply Permutation_in; [symmetry; exact P|]. left.
      reflexivity. }
    specialize (Ui k ltac:(congruence)).
    destruct (_process_item env fuel (entry_item entry)
                (set_priority_queue self rest)) as [self1 out].
    simpl in *.
    destruct out; simpl; try exact Ui.
    specialize (IH self1). rewrite Uq in IH.
    assert (Hrest : forall e, In e rest ->
                              QueueItem.video_url (entry_item e) <> k).
    { intros e Hin. apply Hq.
      eapply Permutation_in; [symmetry; exact P|]. right. exact Hin. }
    specialize (IH Hrest).
    destruct (process_queue_loop env n fuel self1) as [[popped self2] out2].
    simpl in *. congruence.
Qed.

Lemma loop_terminal (n fuel : nat) (self : QueueService) :
  none_processing self ->
  snd (process_queue_loop env n fuel self) = Returned ->
  none_processing (snd (fst (process_queue_loop env n fuel self))) /\
  forall e,
    In e (fst (fst (process_queue_loop env n fuel self))) ->
    exists stored,
      _items (snd (fst (process_queue_loop env n fuel self)))
        !! QueueItem.video_url (entry_item e) = Some stored /\
      terminal (QueueItem.status stored).
Proof.
  revert self. induction n as [|n IH]; intros self Hn; simpl.
  - destruct (pq_get (_priority_queue self)) as [[entry rest]|]; simpl;
      [discriminate|]. intros _. split; [exact Hn | intros e []].
  - destruct (pq_get (_priority_queue self)) as [[entry rest]|] eqn:E; simpl;
      [|intros _; split; [exact Hn | intros e []]].
    pose proof (process_item_frame env fuel (entry_item entry)
                  (set_priority_queue self rest)) as ((_ & Uq & _) & Ui).
    pose proof (process_item_returned fuel (entry_item entry)
                  (set_priority_queue self rest)) as Hret.
    destruct (_process_item env fuel (entry_item entry)
                (set_priority_queue self rest)) as [self1 out].
    simpl in *.
    destruct out; try discriminate.
    destruct (Hret eq_refl) as (stored & Hs & Ht).
    assert (Hn1 : none_processing self1).
    { intros k item Hk.
      destruct (decide (k = QueueItem.video_url (entry_item entry)))
        as [->|Hne].
      - rewrite Hs in Hk. injection Hk as <-.
        destruct Ht as [-> | ->]; discriminate.
      - rewrite (Ui k Hne) in Hk. apply (Hn k item Hk). }
    specialize (IH self1 Hn1).
    pose proof (loop_map_frame n fuel self1
                  (QueueItem.video_url (entry_item entry))) as Hframe.
    pose proof (loop_popped env n fuel self1) as [_ Hfull].
    rewrite Uq in Hframe, Hfull.
    destruct (process_queue_loop env n fuel self1) as [[popped self2] out2].
    simpl in *. intros Hout. destruct (IH Hout) as [IHn IHt].
    destruct (Hfull Hout) as [Hpop _].
    assert (P : Permutation popped rest)
      by (rewrite Hpop; apply pq_drain_perm; lia).
    split; [exact IHn|].
    intros e [<-|Hin]; [|apply IHt, Hin].
    destruct (in_dec String.string_dec (QueueItem.video_url (entry_item entry))
                (map (fun e => QueueItem.video_url (entry_item e)) rest))
      as [Hlater|Hnot].
    + apply in_map_iff in Hlater. destruct Hlater as (e' & Eu & Hin').
      destruct (IHt e') as (st & Hst & Htm).
      { eapply Permutation_in; [symmetry; exact P | exact Hin']. }
      exists st. rewrite <- Eu. split; assumption.
    + exists stored. split; [|exact Ht].
      rewrite Hframe; [exact Hs|].
      intros e' Hin' Eu. apply Hnot. apply in_map_iff.
      exists e'. split; assumption.
Qed.

Lemma drain_terminal (fuel : nat) (self : QueueService) :
  none_processing self ->
  snd (process_queue env fuel self) = Returned ->
  none_processing (snd (fst (process_queue env fuel self))) /\
  forall e,
    In e (_priority_queue self) ->
    exists stored,
      _items (snd (fst (process_queue env fuel self)))
        !! QueueItem.video_url (entry_item e) = Some stored /\
      terminal (QueueItem.status stored).
Proof.
  intros Hn Hout. unfold process_queue in *.
  destruct (loop_terminal _ fuel self Hn Hout) as [H1 H2].
  split; [exact H1|]. intros e He. apply H2.
  destruct (loop_popped env (length (_priority_queue self)) fuel self)
    as [_ Hfull].
  destruct (Hfull Hout) as [-> _].
  eapply Permutation_in; [symmetry; apply pq_drain_perm; lia | exact He].
Qed.

(** X11.  When [process_queue] returns on a scheduler in which no item
    is PROCESSING, no item is PROCESSING afterwards, and under the URL of
    every entry it took the map holds an item that is COMPLETED or
    FAILED. *)
Theorem drain_leaves_taken_items_terminal
    (fuel : nat) (self : QueueService) :
  none_processing self ->
  snd (process_queue env fuel self) = Returned ->
  none_processing (snd (fst (process_queue env fuel self))) /\
  forall e,
    In e (_priority_queue self) ->
    exists stored,
      _items (snd (fst (process_queue env fuel self)))
        !! QueueItem.video_url (entry_item e) = Some stored /\
      terminal (QueueItem.status stored).
Proof. exact (drain_terminal fuel self). Qed.

(** X12.  [process_queue] writes map entries only under the validated
    URLs of the entries in the queue: every other entry is left as it
    was, however the drain ends.  In particular [add_to_queue] stores the
    item under the URL as passed; when validation turns that URL into a
    different string and no queued entry has the passed string as its
    validated URL, the stored entry is never updated and is still QUEUED
    after the drain. *)
Theorem drain_writes_only_validated_urls
    (fuel : nat) (self : QueueService) :
  (forall k,
     (forall e, In e (_priority_queue self) ->
                QueueItem.video_url (entry_item e) <> k) ->
     _items (snd (fst (process_queue env fuel self))) !! k
     = _items self !! k) /\
  (forall c : Enqueue,
     accepts env c = true ->
     let loaded := snd (add_to_queue env c self) in
     (forall e, In e (_priority_queue loaded) ->
                QueueItem.video_url (entry_item e) <> url c) ->
     exists item,
       fst (add_to_queue env c self) = Some item /\
       http_url env (url c) = Some (QueueItem.video_url item) /\
       QueueItem.video_url item <> url c /\
       QueueItem.status item = QueueStatus.QUEUED /\
       _items (snd (fst (process_queue env fuel loaded))) !! url c
       = Some item).
Proof.
  split.
  - intros k Hk. apply loop_map_frame, Hk.
  - intros c Ha loaded Hq.
    destruct (add_to_queue_accepted env c self Ha)
      as (item & Hnew & Hr & Eq & _ & Ei).
    fold loaded in Eq, Ei.
    apply new_item_fields in Hnew. destruct Hnew as (Hu & _ & Hst & _).
    exists item. split; [exact Hr|]. split; [exact Hu|].
    split; [|split; [exact Hst|]].
    + apply (Hq ((- priority c)%Z, (_sequence self + 1)%Z, item)).
      rewrite Eq. left. reflexivity.
    + unfold process_queue. rewrite loop_map_frame by exact Hq.
      rewrite Ei. apply lookup_insert_eq.
Qed.

(** ** The registry of limiters *)

Lemma load_rate_limits_lookup (now : Q)
    (services : list (string * ServiceRateLimit.t))
    (limiters : gmap string RateLimiter) (console : list string)
    (name : string) :
  NoDup (map fst services) ->
  fst (load_rate_limits now services limiters console) !! name
  = match list_find (fun sc => fst sc = name) services with
    | Some (_, (_, config)) => Some (fst (_create_limiter now name config))
    | None => limiters !! name
    end.
Proof.
  revert limiters console.
  induction services as [|[service config] services IH];
    intros limiters console Hnd; [reflexivity|].
  rewrite load_rate_limits_cons. simpl in Hnd.
  apply NoDup_cons in Hnd. destruct Hnd as [Hnotin Hnd].
  rewrite IH by exact Hnd. simpl list_find.
  destruct (decide (service = name)) as [->|Hne]; simpl.
  - destruct (list_find (fun sc => fst sc = name) services)
      as [[i [n c]]|] eqn:Ef.
    + exfalso. apply list_find_Some in Ef. destruct Ef as (Hl & Hn & _).
      simpl in Hn. subst n. apply Hnotin.
      apply list_elem_of_fmap. exists (name, c). split; [reflexivity|].
      eapply list_elem_of_lookup_2, Hl.
    + apply lookup_insert_eq.
  - destruct (list_find (fun sc => fst sc = name) services)
      as [[i [n c]]|]; simpl; [reflexivity|].
    apply lookup_insert_ne. exact Hne.
Qed.

Lemma load_rate_limits_quiet (now : Q)
    (services : list (string * ServiceRateLimit.t))
    (limiters : gmap string RateLimiter) (console : list string) :
  Forall (fun sc => ServiceRateLimit.validated (snd sc) = true) services ->
  snd (load_rate_limits now services limiters console) = console.
Proof.
  revert limiters console.
  induction services as [|[service config] services IH];
    intros limiters console Hv; [reflexivity|].
  apply Forall_cons_iff in Hv. destruct Hv as [Hc Hv]. simpl in Hc.
  rewrite load_rate_limits_cons, IH by exact Hv.
  unfold ServiceRateLimit.validated in Hc.
  apply andb_true_iff in Hc. destruct Hc as [Hr _].
  pose proof (or_default_positive _ 60 Hr ltac:(lia)) as Hrpm.
  unfold _create_limiter. simpl.
  destruct (Z.leb_spec
              (or_default (ServiceRateLimit.requests_per_minute config) 60) 0);
    [lia|]. apply app_nil_r.
Qed.

(** X13.  The registry built by [__init__] holds, for each configured
    service, the limiter [_create_limiter] builds from its entry, and
    nothing for any other name; [apply_rate_limit] for a name without a
    limiter returns at once and changes nothing.  A validated
    configuration logs no warning. *)
Theorem registry_of_configuration
    (handler : IngestionHandler)
    (rate_limits : list (string * ServiceRateLimit.t)) (now : Q) :
  NoDup (map fst rate_limits) ->
  let self := __init__ handler rate_limits now in
  (forall name config,
     In (name, config) rate_limits ->
     _rate_limiters self !! name
     = Some (fst (_create_limiter now name config))) /\
  (forall name,
     ~ In name (map fst rate_limits) ->
     _rate_limiters self !! name = None /\
     forall fuel other,
       _rate_limiters other = _rate_limiters self ->
       apply_rate_limit env fuel name other = (other, Returned)) /\
  (Forall (fun sc => ServiceRateLimit.validated (snd sc) = true) rate_limits ->
   _console self = []).
Proof.
  intros Hnd self.
  assert (El : forall name,
             _rate_limiters self !! name
             = match list_find (fun sc => fst sc = name) rate_limits with
               | Some (_, (_, config)) =>
                   Some (fst (_create_limiter now name config))
               | None => None
               end).
  { intros name. subst self. unfold __init__.
    pose proof (load_rate_limits_lookup now rate_limits ∅ [] name Hnd) as H.
    destruct (load_rate_limits now rate_limits ∅ []) as [limiters console].
    simpl in *. rewrite H, lookup_empty. reflexivity. }
  split; [|split].
  - intros name config Hin. rewrite El.
    destruct (list_find (fun sc => fst sc = name) rate_limits)
      as [[i [n c]]|] eqn:Ef.
    + apply list_find_Some in Ef. destruct Ef as (Hl & Hn & _).
      simpl in Hn. subst n. f_equal. f_equal. f_equal.
      apply list_elem_of_lookup_2 in Hl. apply list_elem_of_In in Hl.
      clear - Hnd Hin Hl. induction rate_limits as [|[n' c'] l IH];
        [destruct Hin|].
      simpl in Hnd. apply NoDup_cons in Hnd. destruct Hnd as [Hn' Hnd].
      destruct Hin as [[= -> ->]|Hin], Hl as [[= ->]|Hl]; try reflexivity.
      * exfalso. apply Hn'. apply list_elem_of_In.
        apply (in_map fst _ _ Hl).
      * exfalso. apply Hn'. apply list_elem_of_In.
        apply (in_map fst _ _ Hin).
      * apply IH; assumption.
    + exfalso. apply list_find_None in Ef.
      rewrite List.Forall_forall in Ef. apply (Ef (name, config) Hin).
      reflexivity.
  - intros name Hnot.
    assert (Hnone : _rate_limiters self !! name = None).
    { rewrite El.
      destruct (list_find (fun sc => fst sc = name) rate_limits)
        as [[i [n c]]|] eqn:Ef; [|reflexivity].
      exfalso. apply list_find_Some in Ef. destruct Ef as (Hl & Hn & _).
      simpl in Hn. subst n. apply Hnot.
      apply list_elem_of_lookup_2, list_elem_of_In in Hl.
      apply (in_map fst _ _ Hl). }
    split; [exact Hnone|].
    intros fuel other Eo. unfold apply_rate_limit. rewrite Eo, Hnone.
    reflexivity.
  - intros Hv. subst self. unfold __init__.
    pose proof (load_rate_limits_quiet now rate_limits ∅ [] Hv) as H.
    destruct (load_rate_limits now rate_limits ∅ []) as [limiters console].
    exact H.
Qed.

(** ** Which limiters an item touches *)

Lemma apply_rate_limit_other (fuel : nat) (name other : string)
    (self : QueueService) :
  other <> name ->
  _rate_limiters (fst (apply_rate_limit env fuel name self)) !! other
  = _rate_limiters self !! other.
Proof.
  intros Hne. unfold apply_rate_limit.
  destruct (_rate_limiters self !! name); simpl; [|reflexivity].
  apply lookup_insert_ne. congruence.
Qed.

Lemma throttle_other (fuel : nat) (services : list string) (other : string)
    (self : QueueService) :
  ~ In other services ->
  _rate_limiters (fst (throttle env fuel services self)) !! other
  = _rate_limiters self !! other.
Proof.
  revert self. induction services as [|name services IH]; intros self Hnot;
    simpl; [reflexivity|].
  pose proof (apply_rate_limit_other fuel name other self
                ltac:(intros ->; apply Hnot; left; reflexivity)) as H1.
  destruct (apply_rate_limit env fuel name self) as [self1 ok].
  simpl in *. destruct ok; simpl; [|exact H1|exact H1].
  rewrite IH; [exact H1|]. intros Hin. apply Hnot. right. exact Hin.
Qed.

Lemma throttle_unconfigured (fuel : nat) (services : list string)
    (self : QueueService) :
  (forall name, In name services -> _rate_limiters self !! name = None) ->
  throttle env fuel services self = (self, Returned).
Proof.
  induction services as [|name services IH]; intros Hnone; simpl;
    [reflexivity|].
  unfold apply_rate_limit. rewrite (Hnone name) by (left; reflexivity).
  apply IH. intros n Hn. apply Hnone. right. exact Hn.
Qed.

Lemma process_item_limiters (fuel : nat) (item : QueueItem.t)
    (self : QueueService) :
  _rate_limiters (fst (_process_item env fuel item self))
  = _rate_limiters (snd (fst (begin_item env fuel item self))) /\
  loop_time (fst (_process_item env fuel item self))
  = loop_time (snd (fst (begin_item env fuel item self))).
Proof.
  destruct (snd (begin_item env fuel item self)) eqn:Hok.
  - rewrite (process_item_admitted env fuel item self Hok). cbv zeta.
    match goal with
    | |- context [finish_item env item ?p ?r ?s] =>
        pose proof (finish_item_frame env item p r s) as (_ & L & T & _)
    end.
    match goal with
    | |- context [run_reports ?u ?r ?s] =>
        pose proof (run_reports_frame u r s) as (_ & L1 & T1 & _)
    end.
    cbv zeta in *. split; congruence.
  - rewrite (process_item_waiting env fuel item self Hok).
    split; reflexivity.
  - rewrite (process_item_raised env fuel item self exc Hok).
    match goal with
    | |- context [except_Exception env item ?p ?e ?s] =>
        pose proof (except_frame env item p e s) as (_ & L & T & _)
    end.
    cbv zeta in *. split; assumption.
Qed.

(** X14.  [_process_item] acquires from the limiter of "youtube_api"
    and, only when the item asks for a summary, from the limiter of
    "openai_api"; the limiter of any other name is left as it was, and so
    is the one of "openai_api" for an item with [summarize = False].
    When the registry has no limiter for the services of the item, the
    handler is reached without any wait, whatever the fuel. *)
Theorem item_touches_only_its_limiters
    (fuel : nat) (item : QueueItem.t) (self : QueueService) :
  let services :=
    if QueueItem.summarize item then ["youtube_api"; "openai_api"]%string
    else ["youtube_api"%string] in
  (forall name,
     ~ In name services ->
     _rate_limiters (fst (_process_item env fuel item self)) !! name
     = _rate_limiters self !! name) /\
  ((forall name, In name services -> _rate_limiters self !! name = None) ->
   admits env fuel item self /\
   _rate_limiters (fst (_process_item env fuel item self))
   = _rate_limiters self /\
   loop_time (fst (_process_item env fuel item self)) = loop_time self).
Proof.
  intros services.
  assert (Es : services_to_throttle
                 (in_progress_copy item (utcnow env (utc_reads self)))
               = services).
  { unfold services_to_throttle, services. simpl.
    destruct (QueueItem.summarize item); reflexivity. }
  destruct (process_item_limiters fuel item self) as [El Et].
  split.
  - intros name Hnot. rewrite El. unfold begin_item, datetime_now.
    rewrite Es.
    match goal with
    | |- context [throttle env fuel services ?s] =>
        pose proof (throttle_other fuel services name s Hnot) as H;
        destruct (throttle env fuel services s) as [self1 ok]
    end.
    exact H.
  - intros Hnone. rewrite El, Et. unfold admits, begin_item, datetime_now.
    rewrite Es. rewrite throttle_unconfigured by exact Hnone.
    repeat split.
Qed.


End WithEnv.

Section WholeRun.

Variable env : Env.

(** ** A whole run: construct, enqueue, drain *)

Lemma init_state (handler : IngestionHandler)
    (rate_limits : list (string * ServiceRateLimit.t)) (now : Q) :
  let self := __init__ handler rate_limits now in
  _items self = ∅ /\ _priority_queue self = [] /\ _sequence self = 0%Z /\
  _ingestion_handler self = handler.
Proof.
  unfold __init__. destruct (load_rate_limits _ _ _ _). repeat split.
Qed.

Lemma loaded_none_processing (handler : IngestionHandler)
    (rate_limits : list (string * ServiceRateLimit.t)) (now : Q)
    (calls : list Enqueue) :
  none_processing (add_all env calls (__init__ handler rate_limits now)).
Proof.
  destruct (init_state handler rate_limits now) as (Ei & _).
  cbv zeta in Ei.
  intros k item Hk.
  destruct (add_all_items env calls (__init__ handler rate_limits now))
    as [_ Hs].
  destruct (Hs k item Hk) as [Hold| ->]; [|discriminate].
  rewrite Ei, lookup_empty in Hold. discriminate.
Qed.

(** X16.  A scheduler is constructed, URLs are enqueued in the form
    validation returns, and [process_queue] returns.  Then the status
    report accounts for every distinct URL as completed or failed:
    [queued] and [processing] are 0 and [completed + failed = total] is
    the number of distinct URLs of the accepted calls. *)
Theorem status_after_drain
    (handler : IngestionHandler)
    (rate_limits : list (string * ServiceRateLimit.t)) (now : Q)
    (calls : list Enqueue) (fuel : nat) :
  urls_normal env calls ->
  let loaded := add_all env calls (__init__ handler rate_limits now) in
  snd (process_queue env fuel loaded) = Returned ->
  let st := get_queue_status (snd (fst (process_queue env fuel loaded))) in
  queued st = 0%Z /\ processing st = 0%Z /\
  (completed st + failed st)%Z = total st /\
  total st
  = Z.of_nat (size (list_to_set (map url (List.filter (accepts env) calls))
                      : gset string)).
Proof.
  intros Hnormal loaded Hout st.
  destruct (drain_terminal env fuel loaded
              (loaded_none_processing handler rate_limits now calls) Hout)
    as [Hn Ht].
  set (final := snd (fst (process_queue env fuel loaded))) in *.
  assert (Hdom : dom (_items loaded)
                 = (list_to_set (map url (List.filter (accepts env) calls))
                    : gset string)).
  { destruct (add_all_items env calls (__init__ handler rate_limits now))
      as [Hd _].
    destruct (init_state handler rate_limits now) as (Ei & _).
    cbv zeta in Ei. fold loaded in Hd.
    rewrite Hd, Ei, dom_empty_L, union_empty_l_L. reflexivity. }
  destruct (add_all_pushed env calls (__init__ handler rate_limits now))
    as (pushed & Epq & _ & Ef & _).
  fold loaded in Epq.
  destruct (init_state handler rate_limits now) as (_ & Eq0 & _).
  cbv zeta in Eq0. rewrite Eq0, app_nil_r in Epq.
  (* the validated URLs in the queue are the URLs of the accepted calls *)
  assert (Hqueue : forall k,
             k ∈ dom (_items loaded) <->
             exists e, In e (_priority_queue loaded) /\
                       QueueItem.video_url (entry_item e) = k).
  { intros k. rewrite Hdom, elem_of_list_to_set, list_elem_of_In, in_map_iff.
    rewrite Epq.
    assert (Hacc : forall c, In c (List.filter (accepts env) calls) ->
                             http_url env (url c) = Some (url c)).
    { intros c Hc. apply List.filter_In in Hc. destruct Hc as [Hc Ha].
      apply Hnormal; assumption. }
    transitivity (exists e, In e pushed /\
                            QueueItem.video_url (entry_item e) = k).
    2:{ split; intros (e & He & Eu); exists e; (split; [|exact Eu]);
        [apply -> in_rev | apply <- in_rev]; exact He. }
    clear - Ef Hacc.
    revert Hacc. induction Ef as [|e c pushed cs [_ Hu] _ IH]; intros Hacc.
    - split; [intros (c & _ & []) | intros (e & [] & _)].
    - assert (Ec : QueueItem.video_url (entry_item e) = url c).
      { specialize (Hacc c (or_introl eq_refl)). congruence. }
      specialize (IH (fun c' Hc' => Hacc c' (or_intror Hc'))).
      split.
      + intros (c' & Eu & [<-|Hin]).
        * exists e. split; [left; reflexivity | congruence].
        * destruct (proj1 IH (ex_intro _ c' (conj Eu Hin)))
            as (e' & He' & Eu').
          exists e'. split; [right; exact He' | exact Eu'].
      + intros (e' & [<-|He'] & Eu').
        * exists c. split; [congruence | left; reflexivity].
        * destruct (proj2 IH (ex_intro _ e' (conj He' Eu')))
            as (c' & Eu & Hin).
          exists c'. split; [exact Eu | right; exact Hin]. }
  assert (Hterm : forall k item,
             _items final !! k = Some item ->
             terminal (QueueItem.status item)).
  { intros k item Hk.
    destruct (in_dec String.string_dec k
                (map (fun e => QueueItem.video_url (entry_item e))
                     (_priority_queue loaded))) as [Hin|Hnot].
    - apply in_map_iff in Hin. destruct Hin as (e & Eu & He).
      destruct (Ht e He) as (stored & Hs & Hst).
      rewrite Eu, Hk in Hs. injection Hs as <-. exact Hst.
    - exfalso.
      assert (Hframe : _items final !! k = _items loaded !! k).
      { apply (loop_map_frame env (length (_priority_queue loaded)) fuel loaded).
        intros e He Eu. apply Hnot. apply in_map_iff. exists e.
        split; assumption. }
      rewrite Hframe in Hk.
      assert (Hd : k ∈ dom (_items loaded))
        by (apply elem_of_dom; eexists; exact Hk).
      apply Hqueue in Hd. destruct Hd as (e & He & Eu).
      apply Hnot. apply in_map_iff. exists e. split; assumption. }
  assert (Hsame : dom (_items final) = dom (_items loaded)).
  { apply set_eq. intros k. rewrite !elem_of_dom. split.
    - intros [item Hk].
      destruct (in_dec String.string_dec k
                  (map (fun e => QueueItem.video_url (entry_item e))
                       (_priority_queue loaded))) as [Hin|Hnot].
      + apply elem_of_dom. apply Hqueue. apply in_map_iff in Hin.
        destruct Hin as (e & Eu & He). exists e. split; assumption.
      + rewrite <- (loop_map_frame env (length (_priority_queue loaded)) fuel
                      loaded k).
        * eexists; exact Hk.
        * intros e He Eu. apply Hnot. apply in_map_iff. exists e.
          split; assumption.
    - intros Hk. apply elem_of_dom, Hqueue in Hk.
      destruct Hk as (e & He & Eu). destruct (Ht e He) as (stored & Hs & _).
      rewrite Eu in Hs. eexists; exact Hs. }
  destruct (status_sizes final) as (Hq & Hpr & Hc & Hf & Htot).
  assert (Hsum : total (get_queue_status final)
                 = (queued (get_queue_status final)
                    + processing (get_queue_status final)
                    + completed (get_queue_status final)
                    + failed (get_queue_status final))%Z)
    by reflexivity.
  cbv zeta in Hq, Hpr, Hc, Hf, Htot. subst st.
  rewrite with_status_none in Hq
    by (intros k item Hk; destruct (Hterm k item Hk) as [-> | ->];
        discriminate).
  rewrite with_status_none in Hpr
    by (intros k item Hk; destruct (Hterm k item Hk) as [-> | ->];
        discriminate).
  rewrite map_size_empty in Hq, Hpr.
  change (Z.of_nat 0) with 0%Z in Hq, Hpr.
  split; [exact Hq|]. split; [exact Hpr|]. split; [lia|].
  rewrite Htot. f_equal. rewrite <- Hdom, <- Hsame. symmetry. apply size_dom.
Qed.

End WholeRun.

(** ** Concrete runs *)

Lemma two_calls_loaded :
  add_all plain_env two_calls (__init__ picky_handler tight_limits 0)
  = two_videos.
Proof. reflexivity. Qed.

Lemma rejected_enqueue_changes_nothing_witness :
  accepts plain_env (call "" 0) = false /\
  _priority_queue (snd (add_to_queue plain_env (call "" 0) two_videos))
  = _priority_queue two_videos /\
  _items (snd (add_to_queue plain_env (call "" 0) two_videos))
  = _items two_videos.
Proof.
  split; [reflexivity|].
  destruct (rejected_enqueue_changes_nothing plain_env (call "" 0) two_videos)
    as (_ & _ & H).
  destruct (H eq_refl) as (Hq & Hi & _).
  split; [exact Hq | exact Hi].
Defined.

Lemma reports_keep_overall_monotone_witness :
  exists current mid final : QueueItem.t,
    _items two_videos !! video = Some current /\
    _items (run_reports video (mkHandlerRun [halfway] None) two_videos)
      !! video = Some mid /\
    _items (run_reports video (mkHandlerRun ([halfway] ++ [halfway]) None)
              two_videos) !! video = Some final /\
    (QueueItem.overall_progress_percent current
     <= QueueItem.overall_progress_percent mid
     <= QueueItem.overall_progress_percent final)%Z.
Proof.
  let v := eval vm_compute in (_items two_videos !! video)
  in match v with Some ?i => pose (current := i) end.
  assert (H : _items two_videos !! video = Some current)
    by (vm_compute; reflexivity).
  destruct (reports_keep_overall_monotone video [halfway] [halfway] None
              two_videos current H)
    as (mid & final & H1 & H2 & H3 & H4 & _).
  exists current, mid, final.
  split; [exact H|]. split; [exact H1|]. split; [exact H2|].
  split; [exact H3 | exact H4].
Defined.

Lemma percentages_stay_in_range_witness :
  percentages_in_range (__init__ failing_handler tight_limits 0) /\
  reports_validated failing_handler /\
  percentages_in_range
    (snd (fst (process_queue plain_env 2
                 (add_all plain_env two_calls
                    (__init__ failing_handler tight_limits 0))))).
Proof.
  assert (H0 : percentages_in_range (__init__ failing_handler tight_limits 0)).
  { destruct (init_state failing_handler tight_limits 0) as (Ei & Eq & _).
    split.
    - intros k item Hk. rewrite Ei, lookup_empty in Hk. discriminate.
    - rewrite Eq. constructor. }
  assert (Hv : reports_validated failing_handler).
  { intros item. constructor; [reflexivity | constructor]. }
  split; [exact H0|]. split; [exact Hv|].
  apply (percentages_stay_in_range plain_env two_calls 2
           (__init__ failing_handler tight_limits 0) H0).
  destruct (init_state failing_handler tight_limits 0) as (_ & _ & _ & Eh).
  rewrite Eh. exact Hv.
Defined.

Lemma two_videos_none_processing : none_processing two_videos.
Proof.
  intros k item Hk. rewrite <- two_calls_loaded in Hk.
  destruct (add_all_items plain_env two_calls
              (__init__ picky_handler tight_limits 0)) as [_ Hs].
  destruct (Hs k item Hk) as [Hold| ->]; [|discriminate].
  destruct (init_state picky_handler tight_limits 0) as (Ei & _).
  rewrite Ei, lookup_empty in Hold. discriminate.
Qed.

Lemma drain_leaves_taken_items_terminal_witness :
  none_processing two_videos /\
  snd (process_queue plain_env 2 two_videos) = Returned /\
  none_processing (snd (fst (process_queue plain_env 2 two_videos))).
Proof.
  assert (Hout : snd (process_queue plain_env 2 two_videos) = Returned)
    by (vm_compute; reflexivity).
  split; [exact two_videos_none_processing|]. split; [exact Hout|].
  exact (proj1 (drain_leaves_taken_items_terminal plain_env 2 two_videos
                  two_videos_none_processing Hout)).
Defined.

Lemma drain_writes_only_validated_urls_witness :
  let self := __init__ quiet_handler [] 0 in
  let loaded := snd (add_to_queue normalising_env (call bare_host 0) self) in
  exists item : QueueItem.t,
    fst (add_to_queue normalising_env (call bare_host 0) self) = Some item /\
    QueueItem.video_url item = (bare_host +:+ "/") /\
    QueueItem.status item = QueueStatus.QUEUED /\
    snd (process_queue normalising_env 2 loaded) = Returned /\
    _items (snd (fst (process_queue normalising_env 2 loaded))) !! bare_host
    = Some item.
Proof.
  intros self loaded.
  destruct (drain_writes_only_validated_urls normalising_env 2 self)
    as [_ H].
  destruct (H (call bare_host 0) eq_refl) as (item & Hi & Hu & _ & Hs & Hl).
  { fold loaded.
    let v := eval vm_compute in (_priority_queue loaded)
    in assert (E : _priority_queue loaded = v) by (vm_compute; reflexivity).
    intros e He. rewrite E in He. destruct He as [<-|[]].
    intros Hx. vm_compute in Hx. discriminate Hx. }
  exists item. split; [exact Hi|].
  split; [injection Hu as <-; reflexivity|].
  split; [exact Hs|]. split; [vm_compute; reflexivity | exact Hl].
Defined.

Lemma registry_of_configuration_witness :
  NoDup (map fst tight_limits) /\
  _rate_limiters (__init__ quiet_handler tight_limits 0) !! "youtube_api"
  = Some (fst (_create_limiter 0 "youtube_api"
                 (ServiceRateLimit.mk (Some 60%Z) (Some 1%Z)))) /\
  _rate_limiters (__init__ quiet_handler tight_limits 0) !! "whisper" = None.
Proof.
  assert (Hn : NoDup (map fst tight_limits)).
  { unfold tight_limits. simpl.
    constructor; [|constructor; [|constructor]]; intros Hx;
      apply list_elem_of_In in Hx; [destruct Hx as [Hx|[]] | destruct Hx].
    discriminate Hx. }
  destruct (registry_of_configuration plain_env quiet_handler tight_limits 0
              Hn) as (Hin & Hout & _).
  split; [exact Hn|]. split.
  - apply Hin. left. reflexivity.
  - apply Hout. intros [H|[H|[]]]; discriminate H.
Defined.

Lemma item_touches_only_its_limiters_witness :
  exists (entry : Entry) (rest : list Entry),
    pq_get (_priority_queue two_videos) = Some (entry, rest) /\
    QueueItem.summarize (entry_item entry) = true /\
    _rate_limiters
      (fst (_process_item plain_env 2 (entry_item entry)
              (set_priority_queue two_videos rest))) !! "whisper"
    = _rate_limiters two_videos !! "whisper".
Proof.
  let v := eval vm_compute in (pq_get (_priority_queue two_videos))
  in match v with Some (?e, ?r) => pose (entry := e); pose (rest := r) end.
  exists entry, rest.
  split; [vm_compute; reflexivity|]. split; [reflexivity|].
  apply (proj1 (item_touches_only_its_limiters plain_env 2 (entry_item entry)
                  (set_priority_queue two_videos rest))).
  intros [H|[H|[]]]; discriminate H.
Defined.

Lemma two_calls_normal : urls_normal plain_env two_calls.
Proof. intros c [<-|[<-|[]]] _; reflexivity. Qed.

Lemma status_after_drain_witness :
  urls_normal plain_env two_calls /\
  snd (process_queue plain_env 2 two_videos) = Returned /\
  let st := get_queue_status
              (snd (fst (process_queue plain_env 2 two_videos))) in
  queued st = 0%Z /\ processing st = 0%Z /\
  (completed st + failed st)%Z = total st /\ total st = 2%Z.
Proof.
  assert (Hout : snd (process_queue plain_env 2 two_videos) = Returned)
    by (vm_compute; reflexivity).
  split; [exact two_calls_normal|]. split; [exact Hout|].
  destruct (status_after_drain plain_env picky_handler tight_limits 0
              two_calls 2 two_calls_normal Hout)
    as (Hq & Hp & Hs & Ht).
  split; [exact Hq|]. split; [exact Hp|]. split; [exact Hs|].
  etransitivity; [exact Ht|]. vm_compute. reflexivity.
Defined.
End SchedulerMore.

(* ================================================================== *)
(** * The drain with a console that renders markup *)
(* ================================================================== *)

Module MarkupFacts.

Import RateLimit RateLimitFacts Scheduler SchedulerFacts StatusReport.
Import SchedulerMore Markup.

Section WithConsole.

Variable env : Env.
Variable log_raises : string -> option BaseException.

Lemma markup_item_reached (fuel : nat) (item : QueueItem.t)
    (self : QueueService) :
  admits env fuel item self ->
  let in_progress := in_progress_copy item (utcnow env (utc_reads self)) in
  let self1 := snd (fst (begin_item env fuel item self)) in
  let run := _ingestion_handler self in_progress in
  Markup._process_item env log_raises fuel item self =
  Markup.finish_item env log_raises item in_progress run
    (run_reports (QueueItem.video_url item) run self1).
Proof.
  unfold admits, Markup._process_item. intros Ha.
  pose proof (begin_item_frame env fuel item self)
    as ((Uh & _) & _ & _ & Ei & _).
  destruct (begin_item env fuel item self) as [[in_progress self1] ok].
  simpl in *. subst ok in_progress. rewrite Uh. reflexivity.
Qed.

(** The state in which the handler of an item ends: the queue is the
    one [_process_item] was given, the map differs from it under the URL
    of the item only, where it holds an item in status PROCESSING. *)
Lemma after_reports (fuel : nat) (item : QueueItem.t) (self : QueueService)
    (run : HandlerRun) :
  let self2 :=
    run_reports (QueueItem.video_url item) run
      (snd (fst (begin_item env fuel item self))) in
  untouched self self2 /\
  utc_reads self2 = S (utc_reads self) /\
  (forall k, k <> QueueItem.video_url item ->
             _items self2 !! k = _items self !! k) /\
  exists current,
    _items self2 !! QueueItem.video_url item = Some current /\
    QueueItem.status current = QueueStatus.PROCESSING.
Proof.
  cbv zeta.
  pose proof (begin_item_frame env fuel item self) as (U & T & _ & _ & I).
  pose proof (run_reports_frame (QueueItem.video_url item) run
                (snd (fst (begin_item env fuel item self))))
    as (U1 & _ & _ & T1 & _ & I1).
  cbv zeta in *.
  split; [eapply untouched_trans; eassumption|].
  split; [congruence|]. split.
  - intros k Hk. rewrite I1, I by exact Hk. apply lookup_insert_ne.
    congruence.
  - destruct run as [updates ending].
    destruct (run_reports_lookup (QueueItem.video_url item) updates ending
                (snd (fst (begin_item env fuel item self)))
                (in_progress_copy item (utcnow env (utc_reads self))))
      as (f & Hf & _ & Ht & _).
    + rewrite I. apply lookup_insert_eq.
    + exists f. split; [exact Hf|]. rewrite Ht. reflexivity.
Qed.

(** C3.  The item that [process_queue] has just taken reaches the
    handler, and the handler raises [exc].

    When [exc] is an [Exception] and the log call of the [except] clause
    raises [err] (a default rich console raises MarkupError when the
    text of [exc] holds a closing tag), the FAILED item is stored with
    [error_message] and [error_type] taken from [exc], but [err] then
    leaves [_process_item] and [process_queue]: the loop ends with the
    entry it took, and the entries behind it stay in the queue, their
    items untouched in the map.

    When [exc] is not an [Exception] (asyncio.CancelledError,
    KeyboardInterrupt, SystemExit), the [except] clause does not catch
    it: it leaves [process_queue] in the same way, and the item stays
    PROCESSING. *)
Theorem failure_can_abort_the_drain
    (n fuel : nat) (self : QueueService) (entry : Entry)
    (rest : list Entry) (exc : BaseException) :
  pq_get (_priority_queue self) = Some (entry, rest) ->
  let item := entry_item entry in
  let taken := set_priority_queue self rest in
  admits env fuel item taken ->
  raised (_ingestion_handler self
            (in_progress_copy item (utcnow env (utc_reads self)))) = Some exc ->
  (forall err : BaseException,
     isinstance_Exception exc = true ->
     log_raises (failure_line exc) = Some err ->
     exists self1 stored,
       Markup._process_item env log_raises fuel item taken
       = (self1, Raised err) /\
       _items self1 !! QueueItem.video_url item = Some stored /\
       QueueItem.status stored = QueueStatus.FAILED /\
       QueueItem.error_message stored = Some (str exc) /\
       QueueItem.error_type stored = Some (class_name exc) /\
       _priority_queue self1 = rest /\
       (forall k, k <> QueueItem.video_url item ->
                  _items self1 !! k = _items self !! k) /\
       Markup.process_queue_loop env log_raises (S n) fuel self
       = ([entry], self1, Raised err)) /\
  (isinstance_Exception exc = false ->
   exists self1 stored,
     Markup._process_item env log_raises fuel item taken
     = (self1, Raised exc) /\
     _items self1 !! QueueItem.video_url item = Some stored /\
     QueueItem.status stored = QueueStatus.PROCESSING /\
     _priority_queue self1 = rest /\
     (forall k, k <> QueueItem.video_url item ->
                _items self1 !! k = _items self !! k) /\
     Markup.process_queue_loop env log_raises (S n) fuel self
     = ([entry], self1, Raised exc)).
Proof.
  intros Hget item taken Ha Hrun.
  pose proof (markup_item_reached fuel item taken Ha) as Hproc.
  cbv zeta in Hproc.
  change (_ingestion_handler taken) with (_ingestion_handler self) in Hproc.
  change (utc_reads taken) with (utc_reads self) in Hproc.
  set (run := _ingestion_handler self
                (in_progress_copy item (utcnow env (utc_reads self)))) in *.
  destruct (after_reports fuel item taken run)
    as ((_ & Uq & _) & _ & Hothers & current & Hcur & Hst).
  cbv zeta in Uq, Hothers, Hcur.
  change (_priority_queue taken) with rest in Uq.
  change (_items taken) with (_items self) in Hothers.
  set (self2 := run_reports (QueueItem.video_url item) run
                  (snd (fst (begin_item env fuel item taken)))) in *.
  unfold Markup.finish_item, Markup.except_Exception in Hproc.
  rewrite Hrun in Hproc.
  split.
  - intros err He Hlog.
    rewrite He in Hproc. unfold datetime_now, Markup.console_log in Hproc.
    rewrite Hlog in Hproc.
    eexists. eexists.
    split; [exact Hproc|]. split; [apply lookup_insert_eq|].
    do 3 (split; [reflexivity|]).
    split; [exact Uq|]. split.
    + intros k Hk. simpl. rewrite lookup_insert_ne by congruence.
      apply Hothers, Hk.
    + simpl. rewrite Hget. fold item taken. rewrite Hproc. reflexivity.
  - intros He. rewrite He in Hproc.
    exists self2, current.
    split; [exact Hproc|]. split; [exact Hcur|]. split; [exact Hst|].
    split; [exact Uq|]. split; [exact Hothers|].
    simpl. rewrite Hget. fold item taken. rewrite Hproc. reflexivity.
Qed.

(** ** A console that logs every line *)

Lemma quiet_except (item in_progress : QueueItem.t) (exc : BaseException)
    (self : QueueService) :
  (forall line, log_raises line = None) ->
  Markup.except_Exception env log_raises item in_progress exc self
  = Scheduler.except_Exception env item in_progress exc self.
Proof.
  intros Hq. unfold Markup.except_Exception, Scheduler.except_Exception.
  destruct (isinstance_Exception exc); [|reflexivity].
  unfold datetime_now, Markup.console_log. rewrite Hq. reflexivity.
Qed.

Lemma quiet_process_item (fuel : nat) (item : QueueItem.t)
    (self : QueueService) :
  (forall line, log_raises line = None) ->
  Markup._process_item env log_raises fuel item self
  = Scheduler._process_item env fuel item self.
Proof.
  intros Hq. unfold Markup._process_item, Scheduler._process_item.
  destruct (begin_item env fuel item self) as [[in_progress self1] out].
  destruct out as [| |exc]; [|reflexivity|apply quiet_except, Hq].
  unfold Markup.finish_item, Scheduler.finish_item.
  destruct (raised _) as [exc|]; [apply quiet_except, Hq|reflexivity].
Qed.

Lemma quiet_loop (n fuel : nat) (self : QueueService) :
  (forall line, log_raises line = None) ->
  Markup.process_queue_loop env log_raises n fuel self
  = Scheduler.process_queue_loop env n fuel self.
Proof.
  intros Hq. revert self. induction n as [|n IH]; intros self; simpl.
  - reflexivity.
  - destruct (pq_get (_priority_queue self)) as [[entry rest]|];
      [|reflexivity].
    rewrite quiet_process_item by exact Hq.
    destruct (Scheduler._process_item env fuel (entry_item entry)
                (set_priority_queue self rest)) as [s1 out].
    destruct out; try reflexivity. rewrite IH. reflexivity.
Qed.


(** X23.  The item that [process_queue] has just taken reaches the
    handler, the handler raises an [Exception], and the log call of the
    [except] clause returns.  Then [_process_item] returns and the map
    holds, under the URL of the item, an item with status FAILED,
    [completed_at] set, stage FAILED, and [error_message] and
    [error_type] taken from the exception; the queue is left as it was
    and the loop goes on with the remaining entries.  With a console
    that logs every line, what the handler does for this URL changes
    nothing else: a scheduler that differs from this one only for this
    URL takes the same entries in the same order, ends the same way,
    and ends with the same map entries for every other URL. *)
Theorem failure_is_recorded_when_logged
    (n fuel : nat) (self : QueueService) (entry : Entry)
    (rest : list Entry) (exc : BaseException) :
  pq_get (_priority_queue self) = Some (entry, rest) ->
  let item := entry_item entry in
  let taken := set_priority_queue self rest in
  admits env fuel item taken ->
  raised (_ingestion_handler self
            (in_progress_copy item (utcnow env (utc_reads self)))) = Some exc ->
  isinstance_Exception exc = true ->
  log_raises (failure_line exc) = None ->
  exists self1 stored finished,
    Markup._process_item env log_raises fuel item taken
    = (self1, Returned) /\
    _items self1 !! QueueItem.video_url item = Some stored /\
    QueueItem.status stored = QueueStatus.FAILED /\
    QueueItem.completed_at stored = Some finished /\
    QueueItem.current_stage stored = Some ProcessingStage.FAILED /\
    QueueItem.error_message stored = Some (str exc) /\
    QueueItem.error_type stored = Some (class_name exc) /\
    _priority_queue self1 = rest /\
    Markup.process_queue_loop env log_raises (S n) fuel self
    = (let '(popped, self2, out) :=
         Markup.process_queue_loop env log_raises n fuel self1 in
       (entry :: popped, self2, out)) /\
    ((forall line, log_raises line = None) ->
     forall other : QueueService,
       same_except (QueueItem.video_url item) self other ->
       raises_only_errors (_ingestion_handler self) ->
       raises_only_errors (_ingestion_handler other) ->
       let mine := Markup.process_queue_loop env log_raises (S n) fuel self in
       let theirs :=
         Markup.process_queue_loop env log_raises (S n) fuel other in
       fst (fst mine) = fst (fst theirs) /\
       snd mine = snd theirs /\
       same_except (QueueItem.video_url item)
         (snd (fst mine)) (snd (fst theirs))).
Proof.
  intros Hget item taken Ha Hrun He Hlog.
  pose proof (markup_item_reached fuel item taken Ha) as Hproc.
  cbv zeta in Hproc.
  change (_ingestion_handler taken) with (_ingestion_handler self) in Hproc.
  change (utc_reads taken) with (utc_reads self) in Hproc.
  set (run := _ingestion_handler self
                (in_progress_copy item (utcnow env (utc_reads self)))) in *.
  destruct (after_reports fuel item taken run)
    as ((_ & Uq & _) & _ & _ & _).
  cbv zeta in Uq. change (_priority_queue taken) with rest in Uq.
  unfold Markup.finish_item, Markup.except_Exception in Hproc.
  rewrite Hrun, He in Hproc.
  unfold datetime_now, Markup.console_log in Hproc. rewrite Hlog in Hproc.
  eexists. eexists. eexists.
  split; [exact Hproc|]. split; [apply lookup_insert_eq|].
  do 5 (split; [reflexivity|]).
  split; [exact Uq|]. split.
  - simpl. rewrite Hget. fold item taken. rewrite Hproc. reflexivity.
  - intros Hq other Hsame Hmine Htheirs. cbv zeta.
    rewrite !quiet_loop by exact Hq.
    apply loop_same_except; assumption.
Qed.

End WithConsole.

(** ** Instances *)

Lemma failure_can_abort_the_drain_witness :
  let err :=
    MarkupError
      "closing tag '[/var/tmp/sage]' at position 53 doesn't match any open tag" in
  exists (entry later : Entry) (final : QueueService),
    pq_get (_priority_queue two_more_videos) = Some (entry, [later]) /\
    QueueItem.video_url (entry_item entry) = video /\
    rich_console (failure_line cache_full) = Some err /\
    Markup.process_queue plain_env rich_console 2 two_more_videos
    = ([entry], final, Raised err) /\
    QueueItem.status <$> _items final !! video = Some QueueStatus.FAILED /\
    _priority_queue final = [later] /\
    QueueItem.status
      <$> _items final !! QueueItem.video_url (entry_item later)
    = Some QueueStatus.QUEUED.
Proof.
  intros err.
  let v := eval vm_compute in (pq_get (_priority_queue two_more_videos)) in
  match v with
  | Some (?e, [?l]) => pose (entry := e); pose (later := l)
  end.
  assert (Hget : pq_get (_priority_queue two_more_videos)
                 = Some (entry, [later]))
    by (vm_compute; reflexivity).
  assert (Ha : admits plain_env 2 (entry_item entry)
                 (set_priority_queue two_more_videos [later]))
    by (vm_compute; reflexivity).
  assert (Hrun : raised (_ingestion_handler two_more_videos
                           (in_progress_copy (entry_item entry)
                              (utcnow plain_env (utc_reads two_more_videos))))
                 = Some cache_full)
    by (vm_compute; reflexivity).
  assert (Hlog : rich_console (failure_line cache_full) = Some err)
    by (vm_compute; reflexivity).
  destruct (failure_can_abort_the_drain plain_env rich_console 1 2
              two_more_videos entry [later] cache_full Hget Ha Hrun)
    as [Hraise _].
  destruct (Hraise err eq_refl Hlog)
    as (self1 & stored & _ & Hl & Hs & _ & _ & Hq & Hothers & Hloop).
  exists entry, later, self1.
  split; [exact Hget|]. split; [reflexivity|]. split; [exact Hlog|].
  split; [exact Hloop|]. split.
  - change (QueueItem.video_url (entry_item entry)) with video in Hl.
    rewrite Hl. simpl. rewrite Hs. reflexivity.
  - split; [exact Hq|].
    rewrite Hothers by (vm_compute; discriminate).
    vm_compute. reflexivity.
Defined.

Lemma failure_is_recorded_when_logged_witness :
  exists (entry : Entry) (rest : list Entry) (self1 : QueueService),
    pq_get (_priority_queue two_videos) = Some (entry, rest) /\
    QueueItem.video_url (entry_item entry) = video /\
    rich_console (failure_line network_down) = None /\
    Markup._process_item plain_env rich_console 2 (entry_item entry)
      (set_priority_queue two_videos rest) = (self1, Returned) /\
    QueueItem.status <$> _items self1 !! video = Some QueueStatus.FAILED /\
    _priority_queue self1 = rest.
Proof.
  let v := eval vm_compute in (pq_get (_priority_queue two_videos)) in
  match v with
  | Some (?e, ?r) => pose (entry := e); pose (rest := r)
  end.
  assert (Hget : pq_get (_priority_queue two_videos) = Some (entry, rest))
    by (vm_compute; reflexivity).
  assert (Ha : admits plain_env 2 (entry_item entry)
                 (set_priority_queue two_videos rest))
    by (vm_compute; reflexivity).
  assert (Hrun : raised (_ingestion_handler two_videos
                           (in_progress_copy (entry_item entry)
                              (utcnow plain_env (utc_reads two_videos))))
                 = Some network_down)
    by (vm_compute; reflexivity).
  assert (He : isinstance_Exception network_down = true) by reflexivity.
  assert (Hlog : rich_console (failure_line network_down) = None)
    by (vm_compute; reflexivity).
  destruct (failure_is_recorded_when_logged plain_env rich_console 1 2
              two_videos entry rest network_down Hget Ha Hrun He Hlog)
    as (self1 & stored & finished & Hp & Hl & Hs & _ & _ & _ & _ & Hq & _).
  exists entry, rest, self1.
  split; [exact Hget|]. split; [reflexivity|]. split; [exact Hlog|].
  split; [exact Hp|]. split; [|exact Hq].
  change (QueueItem.video_url (entry_item entry)) with video in Hl.
  rewrite Hl. simpl. rewrite Hs. reflexivity.
Defined.


End MarkupFacts.

(* ================================================================== *)
(** * Properties of the batch command *)
(* ================================================================== *)

Module CliFacts.

Import Strings.Ascii RateLimit RateLimitFacts Scheduler SchedulerFacts.
Import StatusReport SchedulerMore Cli.

(** ** [split] and [join] *)

Lemma split_on_cons (sep : ascii) (s : list ascii) :
  exists piece pieces, split_on sep s = piece :: pieces.
Proof.
  destruct s as [|c s]; simpl; [eauto|].
  destruct (Strings.Ascii.eqb c sep); [eauto|].
  destruct (split_on sep s); eauto.
Qed.

Lemma split_on_no_sep (sep : ascii) (s : list ascii) :
  Forall (fun piece => ~ In sep piece) (split_on sep s).
Proof.
  induction s as [|c s IH]; simpl.
  - constructor; [intros []|constructor].
  - destruct (Strings.Ascii.eqb c sep) eqn:E.
    + constructor; [intros []|exact IH].
    + apply Strings.Ascii.eqb_neq in E.
      destruct (split_on sep s) as [|piece pieces].
      * constructor; [|constructor]. intros [H|[]]. congruence.
      * apply Forall_cons_iff in IH. destruct IH as [Hp Hps].
        constructor; [|exact Hps]. intros [H|H]; [congruence|tauto].
Qed.

Lemma join_split (sep : ascii) (s : list ascii) :
  join_with sep (split_on sep s) = s.
Proof.
  induction s as [|c s IH]; simpl; [reflexivity|].
  destruct (Strings.Ascii.eqb c sep) eqn:E.
  - apply Strings.Ascii.eqb_eq in E. subst c.
    destruct (split_on_cons sep s) as (p & ps & Es).
    rewrite Es in *. simpl. f_equal. exact IH.
  - destruct (split_on sep s) as [|piece [|next pieces]]; simpl in *;
      congruence.
Qed.

Lemma split_on_piece (sep : ascii) (piece : list ascii) :
  ~ In sep piece -> split_on sep piece = [piece].
Proof.
  induction piece as [|c piece IH]; intros Hn; simpl; [reflexivity|].
  destruct (Strings.Ascii.eqb c sep) eqn:E.
  - apply Strings.Ascii.eqb_eq in E. subst c. exfalso. apply Hn. left.
    reflexivity.
  - rewrite IH; [reflexivity|]. intros H. apply Hn. right. exact H.
Qed.

Lemma split_on_app (sep : ascii) (piece rest : list ascii) :
  ~ In sep piece ->
  split_on sep (piece ++ sep :: rest) = piece :: split_on sep rest.
Proof.
  induction piece as [|c piece IH]; intros Hn; simpl.
  - rewrite Strings.Ascii.eqb_refl. reflexivity.
  - destruct (Strings.Ascii.eqb c sep) eqn:E.
    + apply Strings.Ascii.eqb_eq in E. subst c. exfalso. apply Hn. left.
      reflexivity.
    + rewrite IH; [reflexivity|]. intros H. apply Hn. right. exact H.
Qed.

Lemma split_join (sep : ascii) (pieces : list (list ascii)) :
  pieces <> [] ->
  Forall (fun piece => ~ In sep piece) pieces ->
  split_on sep (join_with sep pieces) = pieces.
Proof.
  induction pieces as [|piece pieces IH]; intros Hne Hall; [congruence|].
  apply Forall_cons_iff in Hall. destruct Hall as [Hp Hps].
  destruct pieces as [|next pieces].
  - simpl. apply split_on_piece, Hp.
  - change (join_with sep (piece :: next :: pieces))
      with (piece ++ sep :: join_with sep (next :: pieces)).
    rewrite split_on_app by exact Hp. f_equal.
    apply IH; [discriminate | exact Hps].
Qed.

(** ** [strip] *)

Section Text.

Variable isspace : ascii -> bool.

Lemma lstrip_split (s : list ascii) :
  exists blank, s = blank ++ lstrip isspace s /\
                Forall (fun c => isspace c = true) blank.
Proof.
  induction s as [|c s (blank & E & Hb)]; simpl.
  - exists []. split; [reflexivity|constructor].
  - destruct (isspace c) eqn:Ec.
    + exists (c :: blank). simpl. split; [f_equal; exact E|].
      constructor; assumption.
    + exists []. split; [reflexivity|constructor].
Qed.

Lemma lstrip_cons (c : ascii) (s : list ascii) :
  lstrip isspace (c :: s) = if isspace c then lstrip isspace s else c :: s.
Proof. reflexivity. Qed.

Lemma lstrip_head (s : list ascii) (c : ascii) (rest : list ascii) :
  lstrip isspace s = c :: rest -> isspace c = false.
Proof.
  induction s as [|d s IH]; simpl; [discriminate|].
  destruct (isspace d) eqn:Ed; [exact IH|].
  intros [= <- _]. exact Ed.
Qed.

Lemma lstrip_fixed (s : list ascii) :
  match s with c :: _ => isspace c = false | [] => True end ->
  lstrip isspace s = s.
Proof.
  destruct s as [|c s]; simpl; [reflexivity|]. intros ->. reflexivity.
Qed.

Lemma lstrip_idem (s : list ascii) :
  lstrip isspace (lstrip isspace s) = lstrip isspace s.
Proof.
  apply lstrip_fixed. destruct (lstrip isspace s) eqn:E; [exact I|].
  eapply lstrip_head, E.
Qed.

Lemma strip_split (s : list ascii) :
  exists before after,
    s = before ++ strip isspace s ++ after /\
    Forall (fun c => isspace c = true) before /\
    Forall (fun c => isspace c = true) after.
Proof.
  unfold strip, rstrip.
  destruct (lstrip_split s) as (before & E & Hb).
  destruct (lstrip_split (rev (lstrip isspace s))) as (after & E' & Ha).
  exists before, (rev after). split; [|split; [exact Hb|]].
  - rewrite E at 1. f_equal.
    rewrite <- (rev_involutive (lstrip isspace s)), E' at 1.
    rewrite rev_app_distr. reflexivity.
  - apply List.Forall_forall. intros c Hc. apply in_rev in Hc.
    rewrite List.Forall_forall in Ha. apply Ha, Hc.
Qed.

Lemma strip_incl (s : list ascii) (c : ascii) :
  In c (strip isspace s) -> In c s.
Proof.
  destruct (strip_split s) as (before & after & E & _).
  intros H. rewrite E. apply in_or_app. right. apply in_or_app. left.
  exact H.
Qed.

(** What [strip] returns begins and ends with a character that is not
    white space, unless it is empty. *)
Lemma strip_ends (s : list ascii) :
  match strip isspace s with
  | [] => True
  | c :: _ => isspace c = false
  end /\
  match rev (strip isspace s) with
  | [] => True
  | c :: _ => isspace c = false
  end.
Proof.
  unfold strip, rstrip. rewrite rev_involutive.
  set (l := lstrip isspace s).
  assert (Hl : match l with c :: _ => isspace c = false | [] => True end).
  { destruct l eqn:E; [exact I|]. eapply lstrip_head, E. }
  split.
  - (* the head of [l] is still there, unless all of [l] is white space *)
    clearbody l.
    destruct l as [|c l]; [exact I|].
    induction l as [|d l IH] using rev_ind.
    + simpl. rewrite Hl. simpl. exact Hl.
    + replace (rev (c :: l ++ [d])) with (d :: rev (c :: l))
        by (change (c :: l ++ [d]) with ((c :: l) ++ [d]);
            rewrite rev_app_distr; reflexivity).
      rewrite lstrip_cons. destruct (isspace d) eqn:Ed; [exact IH|].
      change (rev (d :: rev (c :: l))) with (rev (rev (c :: l)) ++ [d]).
      rewrite rev_involutive. simpl. exact Hl.
  - destruct (lstrip isspace (rev l)) eqn:E; [exact I|].
    eapply lstrip_head, E.
Qed.

Lemma strip_fixed (s : list ascii) :
  match s with c :: _ => isspace c = false | [] => True end ->
  match rev s with c :: _ => isspace c = false | [] => True end ->
  strip isspace s = s.
Proof.
  intros Hh Hl. unfold strip, rstrip.
  rewrite (lstrip_fixed s Hh), (lstrip_fixed (rev s) Hl).
  apply rev_involutive.
Qed.

Lemma strip_idem (s : list ascii) :
  strip isspace (strip isspace s) = strip isspace s.
Proof.
  destruct (strip_ends s) as [Hh Hl]. apply strip_fixed; assumption.
Qed.

End Text.

(** ** [_parse_tags] and [_collect_urls] *)

Section Tags.

Variable isspace : ascii -> bool.

Lemma truthy_true (s : string) : truthy s = true <-> s <> ""%string.
Proof.
  unfold truthy. rewrite negb_true_iff. apply String.eqb_neq.
Qed.

Lemma str_strip_idem (s : string) :
  str_strip isspace (str_strip isspace s) = str_strip isspace s.
Proof.
  unfold str_strip. rewrite String.list_ascii_of_string_of_list_ascii.
  rewrite strip_idem. reflexivity.
Qed.

Lemma str_strip_incl (s : string) (c : ascii) :
  In c (String.list_ascii_of_string (str_strip isspace s)) ->
  In c (String.list_ascii_of_string s).
Proof.
  unfold str_strip. rewrite String.list_ascii_of_string_of_list_ascii.
  apply strip_incl.
Qed.

Lemma stripped_nonblank_in (pieces : list string) (x : string) :
  In x (stripped_nonblank isspace pieces) <->
  exists piece, In piece pieces /\ x = str_strip isspace piece /\
                x <> ""%string.
Proof.
  unfold stripped_nonblank. rewrite in_map_iff. split.
  - intros (piece & <- & Hin). apply List.filter_In in Hin.
    destruct Hin as [Hin Ht]. apply truthy_true in Ht. eauto.
  - intros (piece & Hin & -> & Hne). exists piece. split; [reflexivity|].
    apply List.filter_In. split; [exact Hin|]. apply truthy_true, Hne.
Qed.

Lemma stripped_nonblank_fixed (pieces : list string) :
  Forall (fun x => x <> ""%string /\ str_strip isspace x = x) pieces ->
  stripped_nonblank isspace pieces = pieces.
Proof.
  unfold stripped_nonblank.
  induction 1 as [|x pieces [Hne Hx] _ IH]; simpl; [reflexivity|].
  rewrite Hx. rewrite (proj2 (truthy_true x) Hne). simpl.
  rewrite Hx, IH. reflexivity.
Qed.

Lemma str_split_join (sep : ascii) (pieces : list string) :
  pieces <> [] ->
  Forall (fun x => ~ In sep (String.list_ascii_of_string x)) pieces ->
  str_split sep (str_join sep pieces) = pieces.
Proof.
  intros Hne Hall. unfold str_split, str_join.
  rewrite String.list_ascii_of_string_of_list_ascii.
  rewrite split_join.
  - rewrite map_map. rewrite <- (map_id pieces) at 2.
    apply map_ext. intros x. apply String.string_of_list_ascii_of_string.
  - destruct pieces; [congruence|discriminate].
  - apply List.Forall_forall. intros p Hp. apply in_map_iff in Hp.
    destruct Hp as (x & <- & Hx).
    rewrite List.Forall_forall in Hall. apply Hall, Hx.
Qed.

Lemma str_join_empty (sep : ascii) (pieces : list string) :
  str_join sep pieces = ""%string ->
  pieces = [] \/ pieces = [""%string].
Proof.
  unfold str_join. destruct pieces as [|x [|y pieces]]; simpl.
  - left. reflexivity.
  - intros H. right. f_equal.
    rewrite String.string_of_list_ascii_of_string in H. exact H.
  - intros H. exfalso.
    apply (f_equal String.list_ascii_of_string) in H.
    rewrite String.list_ascii_of_string_of_list_ascii in H. simpl in H.
    destruct (String.list_ascii_of_string x); discriminate.
Qed.

Lemma parse_tags_join (tags : list string) :
  Forall (clean isspace) tags ->
  _parse_tags isspace (Some (str_join "," tags)) = tags.
Proof.
  intros Hc. unfold _parse_tags.
  destruct (truthy (str_join "," tags)) eqn:Et.
  - assert (Hne : tags <> []) by (intros ->; discriminate).
    rewrite str_split_join; [|exact Hne|].
    + apply stripped_nonblank_fixed.
      eapply Forall_impl; [exact Hc|]. intros x (H1 & _ & H3). tauto.
    + eapply Forall_impl; [exact Hc|]. intros x (_ & H2 & _). exact H2.
  - apply negb_false_iff, String.eqb_eq, str_join_empty in Et.
    destruct Et as [->| ->]; [reflexivity|].
    apply Forall_cons_iff in Hc. destruct Hc as [[Hne _] _]. congruence.
Qed.

Lemma parse_tags_all_clean (raw_tags : option string) :
  Forall (clean isspace) (_parse_tags isspace raw_tags).
Proof.
  unfold _parse_tags. destruct raw_tags as [raw|]; [|constructor].
  destruct (truthy raw); [|constructor].
  apply List.Forall_forall. intros x Hx.
  apply stripped_nonblank_in in Hx. destruct Hx as (piece & Hin & -> & Hne).
  split; [exact Hne|]. split; [|apply str_strip_idem].
  intros Hc. apply str_strip_incl in Hc.
  unfold str_split in Hin. apply in_map_iff in Hin.
  destruct Hin as (p & <- & Hp).
  rewrite String.list_ascii_of_string_of_list_ascii in Hc.
  pose proof (split_on_no_sep "," (String.list_ascii_of_string raw)) as Hs.
  rewrite List.Forall_forall in Hs. exact (Hs p Hp Hc).
Qed.

(** X17.  [_parse_tags] returns clean tags only: none is empty, none
    contains a comma, none begins or ends with white space.  It is a left
    inverse of joining with commas on clean tags, so parsing its own
    output joined again gives that output back. *)
Theorem parse_tags_round_trip (raw_tags : option string) :
  Forall (clean isspace) (_parse_tags isspace raw_tags) /\
  (forall tags,
     Forall (clean isspace) tags ->
     _parse_tags isspace (Some (str_join "," tags)) = tags) /\
  _parse_tags isspace
    (Some (str_join "," (_parse_tags isspace raw_tags)))
  = _parse_tags isspace raw_tags.
Proof.
  split; [apply parse_tags_all_clean|]. split; [apply parse_tags_join|].
  apply parse_tags_join, parse_tags_all_clean.
Qed.


End Tags.

(** ** The order of a drain *)

(** A queue has one ascending order only. *)
Lemma sorted_perm_eq (l p : list Entry) :
  StronglySorted (fun a b => entry_ltb a b = true) l ->
  StronglySorted entry_le p ->
  Permutation p l -> p = l.
Proof.
  intros Hl. revert p.
  induction Hl as [|a l Hs IH Ha]; intros p Hp P.
  - apply Permutation_nil. symmetry. exact P.
  - destruct p as [|b p].
    + apply Permutation_nil in P. discriminate.
    + inversion Hp as [|b' p' Hps Hb]; subst.
      assert (E : b = a).
      { assert (Hin : In b (a :: l))
          by (eapply Permutation_in; [exact P | left; reflexivity]).
        destruct Hin as [->|Hin]; [reflexivity|].
        rewrite List.Forall_forall in Ha. specialize (Ha b Hin).
        assert (Hin' : In a (b :: p))
          by (eapply Permutation_in;
              [symmetry; exact P | left; reflexivity]).
        destruct Hin' as [->|Hin']; [reflexivity|].
        rewrite List.Forall_forall in Hb. specialize (Hb a Hin').
        unfold entry_le in Hb. congruence. }
      subst b. f_equal. apply IH; [exact Hps|].
      eapply Permutation_cons_inv. exact P.
Qed.

Lemma pushed_keys_above (p seq : Z) (cs : list Enqueue) :
  Forall (fun c => priority c = p) cs ->
  Forall (fun k => fst k = (- p)%Z /\ (seq < snd k)%Z) (pushed_keys seq cs).
Proof.
  intros H. revert seq.
  induction H as [|c cs Hc _ IH]; intros seq; simpl; constructor.
  - simpl. split; [rewrite Hc; reflexivity | lia].
  - eapply Forall_impl; [apply (IH (seq + 1)%Z)|].
    intros k [Hk Hs]. split; [exact Hk | lia].
Qed.

(** Entries pushed at one priority are in ascending order as pushed. *)
Lemma pushed_ascending (p seq : Z) (cs : list Enqueue)
    (pushed : list Entry) :
  Forall (fun c => priority c = p) cs ->
  map entry_key pushed = pushed_keys seq cs ->
  StronglySorted (fun a b => entry_ltb a b = true) pushed.
Proof.
  intros H. revert seq pushed.
  induction H as [|c cs Hc Hcs IH]; intros seq pushed Ek.
  - destruct pushed; [constructor|discriminate].
  - destruct pushed as [|e pushed]; [discriminate|].
    simpl in Ek. injection Ek as Ee Ek.
    constructor; [apply (IH (seq + 1)%Z), Ek|].
    pose proof (pushed_keys_above p (seq + 1) cs Hcs) as Hk.
    rewrite <- Ek in Hk. rewrite List.Forall_forall in Hk.
    apply List.Forall_forall. intros x Hx.
    destruct (Hk (entry_key x)) as [Hf Hs];
      [apply in_map; exact Hx|].
    unfold entry_ltb. rewrite Ee.
    destruct (entry_key x) as [kx sx]. simpl in *. subst kx.
    rewrite Hc. apply orb_true_iff. right.
    apply andb_true_iff. split; [apply Z.eqb_refl | apply Z.ltb_lt; lia].
Qed.

Lemma new_item_options (http : string -> option string) (u : string)
    (prio queued : Z) (tags : list string) (summ : bool) (len : Z)
    (rm frc : bool) (item : QueueItem.t) :
  QueueItem.new http u prio queued tags summ len rm frc = Some item ->
  QueueItem.manual_tags item = tags /\
  QueueItem.summarize item = summ /\
  QueueItem.summary_length item = len /\
  QueueItem.remove_timestamps item = rm /\
  QueueItem.force item = frc.
Proof.
  unfold QueueItem.new. destruct (http u) as [v|]; [|discriminate].
  destruct (1 <=? len)%Z; [|discriminate].
  intros [= <-]. repeat split.
Qed.

Section Batch.

Variable isspace : ascii -> bool.
Variable env : Env.

Lemma add_all_entries (calls : list Enqueue) (self : QueueService) :
  exists pushed : list Entry,
    _priority_queue (add_all env calls self)
    = rev pushed ++ _priority_queue self /\
    map entry_key pushed
    = pushed_keys (_sequence self) (List.filter (accepts env) calls) /\
    Forall2 (built_from env) pushed (List.filter (accepts env) calls).
Proof.
  unfold add_all. revert self.
  induction calls as [|c calls IH]; intros self; simpl.
  - exists []. simpl. repeat split. constructor.
  - destruct (IH (snd (add_to_queue env c self))) as (pushed & Eq & Ek & Ef).
    destruct (accepts env c) eqn:Ha.
    + destruct (add_to_queue_accepted env c self Ha)
        as (item & Hnew & _ & Eq1 & Es1 & _).
      exists (((- priority c)%Z, (_sequence self + 1)%Z, item) :: pushed).
      rewrite Eq, Eq1. rewrite Es1 in Ek. simpl. repeat split.
      * rewrite <- app_assoc. reflexivity.
      * rewrite Ek. reflexivity.
      * constructor; [|exact Ef]. eexists. exact Hnew.
    + rewrite (add_to_queue_rejected env c self Ha) in *. simpl in *.
      exists pushed. repeat split; assumption.
Qed.

Lemma add_all_console (calls : list Enqueue) (self : QueueService) :
  _console (add_all env calls self) = _console self.
Proof.
  unfold add_all. revert self.
  induction calls as [|c calls IH]; intros self; simpl; [reflexivity|].
  rewrite IH. unfold add_to_queue, datetime_now.
  destruct (QueueItem.new _ _ _ _ _ _ _ _ _); reflexivity.
Qed.

Lemma filter_all (calls : list Enqueue) :
  Forall (fun c => accepts env c = true) calls ->
  List.filter (accepts env) calls = calls.
Proof.
  induction 1 as [|c calls Hc _ IH]; simpl; [reflexivity|].
  rewrite Hc, IH. reflexivity.
Qed.

Lemma enqueue_targets_all (args : BatchArgs.t) (manual_tags : list string)
    (targets : list string) (self : QueueService) :
  Forall (fun u => accepts env (enqueue_call args manual_tags u) = true)
         targets ->
  enqueue_targets env args manual_tags targets self
  = (add_all env (map (enqueue_call args manual_tags) targets) self, true).
Proof.
  intros H. revert self.
  induction H as [|u targets Hu _ IH]; intros self; [reflexivity|].
  destruct (add_to_queue_accepted env _ self Hu) as (item & _ & Hf & _).
  cbn [enqueue_targets].
  destruct (add_to_queue env (enqueue_call args manual_tags u) self)
    as [r self1] eqn:E.
  cbn [fst] in Hf. subst r. rewrite IH. unfold add_all.
  cbn [map fold_left]. rewrite E. reflexivity.
Qed.

Lemma enqueue_targets_rejected (args : BatchArgs.t)
    (manual_tags : list string) (good : list string) (bad : string)
    (rest : list string) (self : QueueService) :
  Forall (fun u => accepts env (enqueue_call args manual_tags u) = true)
         good ->
  accepts env (enqueue_call args manual_tags bad) = false ->
  enqueue_targets env args manual_tags (good ++ bad :: rest) self
  = (snd (add_to_queue env (enqueue_call args manual_tags bad)
            (add_all env (map (enqueue_call args manual_tags) good) self)),
     false).
Proof.
  intros H Hbad. revert self.
  induction H as [|u good Hu _ IH]; intros self.
  - unfold add_all. cbn [app map fold_left enqueue_targets].
    rewrite (add_to_queue_rejected env _ self Hbad). reflexivity.
  - destruct (add_to_queue_accepted env _ self Hu) as (item & _ & Hf & _).
    cbn [app enqueue_targets].
    destruct (add_to_queue env (enqueue_call args manual_tags u) self)
      as [r self1] eqn:E.
    cbn [fst] in Hf. subst r. rewrite IH. unfold add_all.
    cbn [map fold_left]. rewrite E. reflexivity.
Qed.

(** X18.  A batch is processed in the order its URLs were given.  On
    the scheduler that [get_queue_service] builds, when every target
    passes validation the command enqueues all of them and calls
    [process_queue]; the entries that it takes are, one for one and in
    the order of [_collect_urls] (lines of the file first, then the
    inline URLs), the items built from the first targets with the
    parsed tags and the options of the command.  When [process_queue]
    returns it has taken an entry for every target, the queue is empty,
    and each target ends COMPLETED or FAILED. *)
Theorem batch_runs_in_the_order_given
    (handler : IngestionHandler)
    (rate_limits : list (string * ServiceRateLimit.t)) (now : Q)
    (args : BatchArgs.t) (fuel : nat) :
  let manual_tags := _parse_tags isspace (BatchArgs.tags args) in
  let targets :=
    _collect_urls isspace (BatchArgs.file args) (BatchArgs.urls args) in
  targets <> [] ->
  Forall (fun u => accepts env (enqueue_call args manual_tags u) = true)
         targets ->
  exists (popped : list Entry) (final : QueueService) (out : Outcome),
    ingest_youtube_batch isspace env fuel args
      (__init__ handler rate_limits now)
    = Ran popped final out (get_queue_status final) /\
    Forall2 (built_from env) popped
      (map (enqueue_call args manual_tags)
           (firstn (length popped) targets)) /\
    (out = Returned ->
     length popped = length targets /\
     _priority_queue final = [] /\
     none_processing final /\
     (forall e,
        In e popped ->
        exists stored,
          _items final !! QueueItem.video_url (entry_item e) = Some stored /\
          terminal (QueueItem.status stored))).
Proof.
  intros manual_tags targets Hne Hacc.
  unfold ingest_youtube_batch. fold manual_tags. fold targets.
  destruct targets as [|t ts] eqn:Et; [congruence|]. rewrite <- Et in *.
  clear Et t ts Hne.
  unfold _enqueue_and_process.
  rewrite (enqueue_targets_all args manual_tags targets _ Hacc).
  set (calls := map (enqueue_call args manual_tags) targets).
  set (start := __init__ handler rate_limits now).
  set (loaded := add_all env calls start).
  assert (Hall : Forall (fun c => accepts env c = true) calls).
  { apply List.Forall_forall. intros c Hc. apply in_map_iff in Hc.
    destruct Hc as (u & <- & Hu).
    rewrite List.Forall_forall in Hacc. apply Hacc, Hu. }
  destruct (add_all_entries calls start) as (pushed & Eq & Ek & Ef).
  fold loaded in Eq. rewrite (filter_all calls Hall) in Ek, Ef.
  destruct (init_state handler rate_limits now) as (_ & Eq0 & _).
  fold start in Eq0. cbv zeta in Eq0. rewrite Eq0, app_nil_r in Eq.
  assert (E : pq_drain (length (_priority_queue loaded))
                (_priority_queue loaded) = pushed).
  { apply sorted_perm_eq; [|apply pq_drain_sorted|].
    - apply (pushed_ascending (BatchArgs.priority args)
               (_sequence start) calls); [|exact Ek].
      apply List.Forall_forall. intros c Hc. apply in_map_iff in Hc.
      destruct Hc as (u & <- & _). reflexivity.
    - rewrite pq_drain_perm by lia. rewrite Eq. symmetry.
      apply Permutation_rev. }
  destruct (loop_popped env (length (_priority_queue loaded)) fuel loaded)
    as [Hpre Hfull].
  fold (process_queue env fuel loaded) in Hpre, Hfull.
  pose proof (loop_terminal env (length (_priority_queue loaded)) fuel loaded
                (loaded_none_processing env handler rate_limits now calls))
    as Hterm.
  fold (process_queue env fuel loaded) in Hterm.
  destruct (process_queue env fuel loaded) as [[popped final] out].
  cbn [fst snd] in *.
  rewrite pq_drain_prefix, E in Hpre.
  exists popped, final, out. split; [reflexivity|]. split.
  - rewrite Hpre at 1. unfold calls in Ef. rewrite <- firstn_map.
    apply Forall2_take, Ef.
  - intros Hout. destruct (Hfull Hout) as [Hpop Hempty].
    destruct (Hterm Hout) as [Hn Ht].
    rewrite E in Hpop.
    split; [|split; [exact Hempty | split; [exact Hn | exact Ht]]].
    rewrite Hpop. apply Forall2_length in Ef. rewrite Ef. unfold calls.
    apply length_map.
Qed.

(** X19.  A target that fails validation ends the batch before anything
    is processed: [add_to_queue] raises at the first rejected URL, the
    URLs before it stay in the queue as they were pushed, those after it
    are never enqueued, and [process_queue] is not called, so no stored
    item has left the status it had and the new ones are QUEUED. *)
Theorem batch_stops_at_first_rejected
    (args : BatchArgs.t) (fuel : nat) (self : QueueService)
    (good : list string) (bad : string) (rest : list string) :
  let manual_tags := _parse_tags isspace (BatchArgs.tags args) in
  _collect_urls isspace (BatchArgs.file args) (BatchArgs.urls args)
  = good ++ bad :: rest ->
  Forall (fun u => accepts env (enqueue_call args manual_tags u) = true)
         good ->
  accepts env (enqueue_call args manual_tags bad) = false ->
  exists self' : QueueService,
    ingest_youtube_batch isspace env fuel args self = ValidationError self' /\
    (exists pushed,
       _priority_queue self' = rev pushed ++ _priority_queue self /\
       Forall2 (built_from env) pushed
         (map (enqueue_call args manual_tags) good)) /\
    dom (_items self')
    = dom (_items self) ∪ list_to_set good /\
    (forall k item,
       _items self' !! k = Some item ->
       _items self !! k = Some item \/
       QueueItem.status item = QueueStatus.QUEUED) /\
    _rate_limiters self' = _rate_limiters self /\
    _console self' = _console self.
Proof.
  intros manual_tags Et Hgood Hbad.
  unfold ingest_youtube_batch. fold manual_tags. rewrite Et. clear Et.
  destruct (good ++ bad :: rest) as [|t ts] eqn:Eg;
    [destruct good; discriminate|].
  rewrite <- Eg. clear Eg t ts.
  unfold _enqueue_and_process.
  rewrite (enqueue_targets_rejected args manual_tags good bad rest self
             Hgood Hbad).
  set (calls := map (enqueue_call args manual_tags) good).
  rewrite (add_to_queue_rejected env _ (add_all env calls self) Hbad).
  cbn [snd].
  eexists. split; [reflexivity|].
  assert (Hall : Forall (fun c => accepts env c = true) calls).
  { apply List.Forall_forall. intros c Hc. apply in_map_iff in Hc.
    destruct Hc as (u & <- & Hu).
    rewrite List.Forall_forall in Hgood. apply Hgood, Hu. }
  destruct (add_all_entries calls self) as (pushed & Eq & _ & Ef).
  rewrite (filter_all calls Hall) in Ef.
  destruct (add_all_items env calls self) as [Hdom Hs].
  rewrite (filter_all calls Hall) in Hdom.
  split; [exists pushed; split; [exact Eq | exact Ef]|].
  split.
  { cbn. rewrite Hdom. unfold calls. rewrite map_map. cbn [url enqueue_call].
    rewrite map_id. reflexivity. }
  split; [exact Hs|].
  split.
  - change (_rate_limiters (add_all env calls self) = _rate_limiters self).
    apply add_all_frame.
  - change (_console (add_all env calls self) = _console self).
    apply add_all_console.
Qed.



End Batch.

(** ** The progress bar *)

Local Open Scope Q_scope.

Lemma handler_completed_eq
    (ranges : ProcessingStage.t -> option (Z * Z))
    (update : ProgressUpdate.t) (start end_ : Z) :
  ranges (ProgressUpdate.stage update) = Some (start, end_) ->
  handler_completed ranges update
  = Qmin (inject_Z start
          + (inject_Z (ProgressUpdate.stage_progress update) / 100)
            * inject_Z (Z.max (end_ - start) 1)) 100.
Proof.
  intros E. unfold handler_completed. rewrite E. reflexivity.
Qed.

Lemma validated_stage_progress (update : ProgressUpdate.t) :
  ProgressUpdate.validated update = true ->
  0 <= inject_Z (ProgressUpdate.stage_progress update) / 100 <= 1.
Proof.
  unfold ProgressUpdate.validated. intros H.
  repeat (apply andb_true_iff in H; destruct H as [H ?]).
  apply Z.leb_le in H. 
  match goal with Hx : (ProgressUpdate.stage_progress update <=? 100)%Z = true |- _ =>
    apply Z.leb_le in Hx; rename Hx into H100 end.
  rewrite Zle_Qle in H, H100.
  change (inject_Z 0) with 0 in H. change (inject_Z 100) with 100 in H100.
  split.
  - apply Qle_shift_div_l; lra.
  - apply Qle_shift_div_r; lra.
Qed.

(** Within a stage of positive width the bar is at the point of the
    stage's range that the stage progress marks. *)
Lemma bar_in_stage (update : ProgressUpdate.t) (start end_ : Z) :
  ProgressUpdate.validated update = true ->
  stage_ranges (ProgressUpdate.stage update) = Some (start, end_) ->
  (start < end_)%Z ->
  handler_completed stage_ranges update
  == inject_Z start
     + inject_Z (ProgressUpdate.stage_progress update) / 100
       * inject_Z (end_ - start) /\
  inject_Z start <= handler_completed stage_ranges update <= inject_Z end_.
Proof.
  intros Hv E Hlt.
  pose proof (validated_stage_progress update Hv) as Hp.
  rewrite (handler_completed_eq _ _ _ _ E).
  set (p := inject_Z (ProgressUpdate.stage_progress update) / 100) in *.
  clearbody p.
  destruct (ProgressUpdate.stage update); simpl in E;
    injection E as <- <-; try lia;
    vm_compute Z.max; vm_compute Z.sub; vm_compute inject_Z.
  all: match goal with
       | |- context [Qmin ?a ?b] =>
           destruct (Q.min_spec a b) as [[Hc Hm]|[Hc Hm]]; rewrite Hm
       end.
  all: split; [|split]; try lra.
Qed.

Lemma bar_complete (update : ProgressUpdate.t) :
  ProgressUpdate.validated update = true ->
  ProgressUpdate.stage update = ProcessingStage.COMPLETE ->
  handler_completed stage_ranges update == 100.
Proof.
  intros Hv Es.
  pose proof (validated_stage_progress update Hv) as Hp.
  rewrite (handler_completed_eq stage_ranges update 100 100)
    by (rewrite Es; reflexivity).
  set (p := inject_Z (ProgressUpdate.stage_progress update) / 100) in *.
  clearbody p. vm_compute Z.max. vm_compute inject_Z.
  destruct (Q.min_spec (100 + p * 1) 100) as [[Hc Hm]|[Hc Hm]];
    rewrite Hm; lra.
Qed.

Lemma bar_failed (update : ProgressUpdate.t) :
  ProgressUpdate.validated update = true ->
  ProgressUpdate.stage update = ProcessingStage.FAILED ->
  handler_completed stage_ranges update
  == inject_Z (ProgressUpdate.stage_progress update) / 100.
Proof.
  intros Hv Es.
  pose proof (validated_stage_progress update Hv) as Hp.
  rewrite (handler_completed_eq stage_ranges update 0 0)
    by (rewrite Es; reflexivity).
  set (p := inject_Z (ProgressUpdate.stage_progress update) / 100) in *.
  clearbody p. vm_compute Z.max. vm_compute inject_Z.
  destruct (Q.min_spec (0 + p * 1) 100) as [[Hc Hm]|[Hc Hm]];
    rewrite Hm; lra.
Qed.

Lemma stage_ranges_total (stage : ProcessingStage.t) :
  exists start end_,
    stage_ranges stage = Some (start, end_) /\
    ((start < end_)%Z \/
     stage = ProcessingStage.COMPLETE /\ start = 100%Z \/
     stage = ProcessingStage.FAILED /\ start = 0%Z).
Proof.
  destruct stage; simpl; do 2 eexists; (split; [reflexivity|]);
    first [left; lia | right; left; split; reflexivity
          | right; right; split; reflexivity].
Qed.

(** The bar is never left of the start of the stage reported. *)
Lemma bar_from_start (update : ProgressUpdate.t) (start end_ : Z) :
  ProgressUpdate.validated update = true ->
  stage_ranges (ProgressUpdate.stage update) = Some (start, end_) ->
  inject_Z start <= handler_completed stage_ranges update.
Proof.
  intros Hv E.
  destruct (stage_ranges_total (ProgressUpdate.stage update))
    as (a & b & E' & [Hlt|[[Es Ea]|[Es Ea]]]);
    rewrite E in E'; injection E' as <- <-.
  - apply (bar_in_stage update start end_ Hv E Hlt).
  - rewrite (bar_complete update Hv Es). subst start. apply Qle_refl.
  - rewrite (bar_failed update Hv Es). subst start.
    apply (validated_stage_progress update Hv).
Qed.

(** X21.  Where the progress bar of [ingest-youtube] stands after an
    update, for the stage ranges of the command.  It is always between 0
    and 100.  In a stage of positive width (VALIDATING to STORING) it is
    at [start + stage_progress / 100 * (end - start)], inside the range
    of the stage, and it does not decrease when the stage progress grows
    nor when a later update is for a stage whose range begins where this
    one ends or later.  COMPLETE puts it at 100.  For FAILED, whose
    range is (0, 0), the span is taken as 1 and the bar stands at
    [stage_progress / 100], between 0 and 1, and not at 0. *)
Theorem bar_position (update : ProgressUpdate.t) :
  ProgressUpdate.validated update = true ->
  let completed := handler_completed stage_ranges update in
  let fraction := inject_Z (ProgressUpdate.stage_progress update) / 100 in
  0 <= completed <= 100 /\
  (forall start end_,
     stage_ranges (ProgressUpdate.stage update) = Some (start, end_) ->
     (start < end_)%Z ->
     completed == inject_Z start + fraction * inject_Z (end_ - start) /\
     inject_Z start <= completed <= inject_Z end_ /\
     forall later start' end',
       ProgressUpdate.validated later = true ->
       stage_ranges (ProgressUpdate.stage later) = Some (start', end') ->
       ((end_ <= start')%Z \/
        ProgressUpdate.stage later = ProgressUpdate.stage update /\
        (ProgressUpdate.stage_progress update
         <= ProgressUpdate.stage_progress later)%Z) ->
       completed <= handler_completed stage_ranges later) /\
  (ProgressUpdate.stage update = ProcessingStage.COMPLETE ->
   completed == 100) /\
  (ProgressUpdate.stage update = ProcessingStage.FAILED ->
   completed == fraction /\ 0 <= completed <= 1).
Proof.
  intros Hv completed fraction.
  pose proof (validated_stage_progress update Hv) as Hp.
  fold fraction in Hp.
  split; [|split; [|split]].
  - destruct (stage_ranges_total (ProgressUpdate.stage update))
      as (a & b & E & [Hlt|[[Es Ea]|[Es Ea]]]).
    + destruct (bar_in_stage update a b Hv E Hlt) as (_ & Hlo & Hhi).
      fold completed in Hlo, Hhi.
      assert (Hab : (0 <= a)%Z /\ (b <= 100)%Z)
        by (destruct (ProgressUpdate.stage update); simpl in E;
            injection E as <- <-; lia).
      destruct Hab as [Ha Hb]. rewrite Zle_Qle in Ha, Hb.
      change (inject_Z 0) with 0 in Ha.
      change (inject_Z 100) with 100 in Hb. split; lra.
    + unfold completed. rewrite (bar_complete update Hv Es). split; lra.
    + unfold completed. rewrite (bar_failed update Hv Es).
      fold fraction. split; lra.
  - intros start end_ E Hlt.
    destruct (bar_in_stage update start end_ Hv E Hlt) as (Heq & Hlo & Hhi).
    fold completed in Heq, Hlo, Hhi. fold fraction in Heq.
    split; [exact Heq|]. split; [split; assumption|].
    intros later start' end' Hv' E' [Hle|[Es Hle]].
    + pose proof (bar_from_start later start' end' Hv' E') as Hfrom.
      rewrite Zle_Qle in Hle. lra.
    + rewrite Es, E in E'. injection E' as <- <-.
      rewrite <- Es in E.
      destruct (bar_in_stage later start end_ Hv' E Hlt) as (Heq' & _).
      rewrite Heq, Heq'.
      assert (Hw : 0 <= inject_Z (end_ - start))
        by (change 0 with (inject_Z 0); rewrite <- Zle_Qle; lia).
      assert (Hf : fraction
                   <= inject_Z (ProgressUpdate.stage_progress later) / 100).
      { unfold fraction, Qdiv.
        apply Qmult_le_compat_r; [|apply Qinv_le_0_compat; lra].
        rewrite <- Zle_Qle. exact Hle. }
      nra.
  - intros Es. unfold completed. apply (bar_complete update Hv Es).
  - intros Es. unfold completed. rewrite (bar_failed update Hv Es).
    fold fraction. split; [reflexivity | exact Hp].
Qed.

(** ** Concrete runs *)

Lemma parse_tags_round_trip_witness :
  Forall (clean ascii_space) ["talks"; "ai"]%string /\
  _parse_tags ascii_space (Some (str_join "," ["talks"; "ai"]%string))
  = ["talks"; "ai"]%string /\
  _parse_tags ascii_space (BatchArgs.tags batch_of_two)
  = ["talks"; "ai"]%string.
Proof.
  assert (Hc : Forall (clean ascii_space) ["talks"; "ai"]%string).
  { repeat constructor; try discriminate; try reflexivity;
      cbn; intuition discriminate. }
  split; [exact Hc|]. split; [|vm_compute; reflexivity].
  exact (proj1 (proj2 (parse_tags_round_trip ascii_space None))
           ["talks"; "ai"]%string Hc).
Defined.

Lemma batch_of_two_targets :
  _collect_urls ascii_space (BatchArgs.file batch_of_two)
    (BatchArgs.urls batch_of_two)
  = [video; "https://youtu.be/abcdefghijk"%string].
Proof. vm_compute. reflexivity. Qed.

Lemma batch_runs_in_the_order_given_witness :
  exists (popped : list Entry) (final : QueueService),
    ingest_youtube_batch ascii_space plain_env 2 batch_of_two
      (__init__ picky_handler tight_limits 0)
    = Ran popped final Returned (get_queue_status final) /\
    Forall2 (built_from plain_env) popped
      (map (enqueue_call batch_of_two
              (_parse_tags ascii_space (BatchArgs.tags batch_of_two)))
           [video; "https://youtu.be/abcdefghijk"%string]) /\
    _priority_queue final = [].
Proof.
  assert (Hne : _collect_urls ascii_space (BatchArgs.file batch_of_two)
                  (BatchArgs.urls batch_of_two) <> [])
    by (rewrite batch_of_two_targets; discriminate).
  assert (Hacc : Forall
                   (fun u => accepts plain_env
                               (enqueue_call batch_of_two
                                  (_parse_tags ascii_space
                                     (BatchArgs.tags batch_of_two)) u)
                             = true)
                   (_collect_urls ascii_space (BatchArgs.file batch_of_two)
                      (BatchArgs.urls batch_of_two)))
    by (rewrite batch_of_two_targets; repeat constructor).
  assert (Hret : match ingest_youtube_batch ascii_space plain_env 2
                         batch_of_two (__init__ picky_handler tight_limits 0)
                 with
                 | Ran _ _ out _ => out = Returned
                 | _ => False
                 end)
    by (vm_compute; reflexivity).
  destruct (batch_runs_in_the_order_given ascii_space plain_env
              picky_handler tight_limits 0 batch_of_two 2 Hne Hacc)
    as (popped & final & out & Hrun & Hf & Hdone).
  rewrite Hrun in Hret. subst out.
  destruct (Hdone eq_refl) as (Hl & Hq & _).
  rewrite batch_of_two_targets in Hf, Hl. rewrite Hl in Hf.
  exists popped, final. split; [exact Hrun|]. split; [exact Hf | exact Hq].
Defined.

Lemma batch_with_typo_targets :
  _collect_urls ascii_space (BatchArgs.file batch_with_typo)
    (BatchArgs.urls batch_with_typo)
  = [video; "https://youtu.be/abcdefghijk"%string]
    ++ "htps://youtu.be/x"%string :: [].
Proof. vm_compute. reflexivity. Qed.

Lemma batch_stops_at_first_rejected_witness :
  accepts http_only_env
    (enqueue_call batch_with_typo [] "htps://youtu.be/x") = false /\
  exists self' : QueueService,
    ingest_youtube_batch ascii_space http_only_env 2 batch_with_typo
      (__init__ quiet_handler [] 0)
    = ValidationError self' /\
    length (_priority_queue self') = 2%nat /\
    _console self' = [].
Proof.
  split; [reflexivity|].
  destruct (batch_stops_at_first_rejected ascii_space http_only_env
              batch_with_typo 2 (__init__ quiet_handler [] 0)
              [video; "https://youtu.be/abcdefghijk"%string]
              "htps://youtu.be/x" [] batch_with_typo_targets)
    as (self' & Hrun & (pushed & Eq & Ef) & _ & _ & _ & Hcon);
    [repeat constructor | reflexivity |].
  exists self'. split; [exact Hrun|]. split; [|exact Hcon].
  change (_priority_queue (__init__ quiet_handler [] 0)) with (@nil Entry)
    in Eq.
  apply Forall2_length in Ef.
  rewrite Eq, app_nil_r, length_rev, Ef. reflexivity.
Defined.

Lemma bar_position_witness :
  ProgressUpdate.validated halfway = true /\
  (0 <= handler_completed stage_ranges halfway <= 100)%Q /\
  (handler_completed stage_ranges halfway == 21)%Q.
Proof.
  split; [reflexivity|].
  destruct (bar_position halfway eq_refl) as (Hr & Hs & _).
  split; [exact Hr|].
  destruct (Hs 5%Z 25%Z eq_refl eq_refl) as (Heq & _).
  rewrite Heq. reflexivity.
Defined.
End CliFacts.
